(** * fix-illumos-compat.py: the patcher of invoke-unix-forensics.sh

    A shallow embedding of [fix-illumos-compat.py] and the properties of its
    rule sequence.  The script reads one file, runs eleven find/replace
    rules over the text in a fixed order while logging the rules that
    matched, and writes the text back when it changed.

    Text is a list of characters with code points below 256, a character
    being its code point.  The classes [\w] and [\d] of the two regular
    expressions are the Unicode ones that Python's [re] uses for a [str]
    pattern, taken on these code points. *)

From Stdlib Require Import Ascii String DecimalString.
From Stdlib Require Import List Arith Lia Bool Permutation Sorting.Sorted.
Import ListNotations.

Set Implicit Arguments.

(** ** Text and Python's string primitives *)

Module Py.

Definition text := list ascii.

Definition dquote : ascii := "034"%char.
Definition nl : text := ["010"%char].

(** Python string literals are transcribed with [~] standing for the double
    quote; no pattern, replacement or label of the script contains [~]. *)
Definition lit (s : string) : text :=
  map (fun c => if Ascii.eqb c "~" then dquote else c) (list_ascii_of_string s).

(** [a == b] *)
Fixpoint text_eqb (a b : text) : bool :=
  match a, b with
  | [], [] => true
  | x :: a', y :: b' => Ascii.eqb x y && text_eqb a' b'
  | _, _ => false
  end.

(** [s.startswith(p)] *)
Fixpoint starts_with (p s : text) : bool :=
  match p, s with
  | [], _ => true
  | _ :: _, [] => false
  | x :: p', y :: s' => Ascii.eqb x y && starts_with p' s'
  end.

(** [p in s] *)
Fixpoint contains (p s : text) : bool :=
  starts_with p s ||
  match s with
  | [] => false
  | _ :: s' => contains p s'
  end.

(** A matcher looks at the text from the current position on and answers
    with a value and the number of characters matched.  Literal patterns and
    the two regular expressions of the script are matchers. *)
Definition matcher (A : Type) := text -> option (A * nat).

(** The left-to-right scan shared by [str.replace], [str.count], [re.sub]
    and [re.findall]: at a match the scan resumes after the matched
    characters, otherwise it moves one character on.  [skip] counts the
    characters of the current match still to be passed over. *)
Fixpoint sub_scan (m : matcher text) (skip : nat) (s : text) : text :=
  match s with
  | [] => []
  | c :: s' =>
      match skip with
      | S k => sub_scan m k s'
      | O =>
          match m s with
          | Some (r, n) => r ++ sub_scan m (n - 1) s'
          | None => c :: sub_scan m 0 s'
          end
      end
  end.

Fixpoint find_scan (A : Type) (m : matcher A) (skip : nat) (s : text) : list A :=
  match s with
  | [] => []
  | c :: s' =>
      match skip with
      | S k => find_scan m k s'
      | O =>
          match m s with
          | Some (a, n) => a :: find_scan m (n - 1) s'
          | None => find_scan m 0 s'
          end
      end
  end.

Definition sub_all (m : matcher text) (s : text) : text := sub_scan m 0 s.
Definition find_all (A : Type) (m : matcher A) (s : text) : list A := find_scan m 0 s.

(** The matcher of a literal pattern [old], answering [new]. *)
Definition literal (old new : text) : matcher text :=
  fun s => if starts_with old s then Some (new, length old) else None.

(** [s.replace(old, new)] *)
Definition replace (old new s : text) : text := sub_all (literal old new) s.

(** [s.count(old)] *)
Definition count (old s : text) : nat := length (find_all (literal old []) s).

(** [s.replace(old, new, 1)] *)
Fixpoint replace1 (old new s : text) : text :=
  if starts_with old s then new ++ skipn (length old) s
  else match s with
       | [] => []
       | c :: s' => c :: replace1 old new s'
       end.

(** Character classes of [re] for a [str] pattern compiled without
    [re.ASCII]: they are the Unicode ones.  [\d] is a decimal digit
    (category Nd); below 256 these are [0] to [9].  [\w] is the underscore
    or a character that is alphanumeric for Unicode ([str.isalnum]); below
    256 these are the ASCII letters and digits and, past ASCII, the code
    points 170, 178, 179, 181, 185, 186, 188 to 190 (ordinal indicators,
    superscript digits, the micro sign, the fractions) and the letters
    192 to 255 without 215 and 247 (the signs of multiplication and
    division). *)
Definition in_range (lo hi c : ascii) : bool :=
  (nat_of_ascii lo <=? nat_of_ascii c) && (nat_of_ascii c <=? nat_of_ascii hi).

Definition code_between (lo hi : nat) (c : ascii) : bool :=
  (lo <=? nat_of_ascii c) && (nat_of_ascii c <=? hi).

Definition is_digit (c : ascii) : bool := in_range "0" "9" c.

Definition is_latin1_alnum (c : ascii) : bool :=
  code_between 170 170 c || code_between 178 179 c || code_between 181 181 c ||
  code_between 185 186 c || code_between 188 190 c || code_between 192 214 c ||
  code_between 216 246 c || code_between 248 255 c.

Definition is_word (c : ascii) : bool :=
  in_range "a" "z" c || in_range "A" "Z" c || is_digit c || Ascii.eqb c "_" ||
  is_latin1_alnum c.

Fixpoint span (f : ascii -> bool) (s : text) : text :=
  match s with
  | c :: s' => if f c then c :: span f s' else []
  | [] => []
  end.

(** The decimal numeral an f-string prints for a count. *)
Definition decimal (n : nat) : text :=
  list_ascii_of_string (NilEmpty.string_of_uint (Nat.to_uint n)).

(** Python's order on strings: lexicographic on the character codes. *)
Fixpoint text_ltb (a b : text) : bool :=
  match a, b with
  | _, [] => false
  | [], _ :: _ => true
  | x :: a', y :: b' =>
      (nat_of_ascii x <? nat_of_ascii y) ||
      ((nat_of_ascii x =? nat_of_ascii y) && text_ltb a' b')
  end.

Definition text_leb (a b : text) : bool := negb (text_ltb b a).

(** [sorted(l)], as an insertion sort. *)
Fixpoint insert (x : text) (l : list text) : list text :=
  match l with
  | [] => [x]
  | y :: l' => if text_leb x y then x :: y :: l' else y :: insert x l'
  end.

Fixpoint sorted (l : list text) : list text :=
  match l with
  | [] => []
  | x :: l' => insert x (sorted l')
  end.

(** [set(l)], enumerated in some order: the elements of [l], each once. *)
Definition set_of (l : list text) : list text := nodup (list_eq_dec ascii_dec) l.

End Py.

Import Py.

(** ** The patcher *)

Module Patcher.

(** The two variables the script threads through its rules. *)
Record state := State { content : text; fixes : list text }.

(** *** Rule 1: the interactive [format] replaced by [iostat -En] *)

Definition old_1a : text :=
  lit "    # Disk information" ++ nl ++
  lit "    if command -v format >/dev/null 2>&1; then" ++ nl ++
  lit "        echo ~=== Disk Devices ===~ | tee -a ~$OUTPUT_FILE~" ++ nl ++
  lit "        echo | format 2>/dev/null | grep ~^[0-9]~ | tee -a ~$OUTPUT_FILE~" ++ nl ++
  lit "        echo ~~ | tee -a ~$OUTPUT_FILE~" ++ nl ++
  lit "    fi".

Definition new_1a : text :=
  lit "    # Disk information (use iostat -En; interactive format hangs without a tty)" ++ nl ++
  lit "    if command -v iostat >/dev/null 2>&1; then" ++ nl ++
  lit "        echo ~=== Disk Devices ===~ | tee -a ~$OUTPUT_FILE~" ++ nl ++
  lit "        iostat -En 2>/dev/null | tee -a ~$OUTPUT_FILE~" ++ nl ++
  lit "        echo ~~ | tee -a ~$OUTPUT_FILE~" ++ nl ++
  lit "    fi".

Definition label_1a : text :=
  lit "1a: Replaced format with iostat -En in analyze_disk_solaris".

Definition old_1b : text :=
  lit "        local disk_list=$(echo ~~ | format 2>/dev/null | grep ~^[[:space:]]*[0-9]~ | awk '{print $2}')".

Definition new_1b : text :=
  lit "        local disk_list=~~" ++ nl ++
  lit "        for _d in $(iostat -En 2>/dev/null | awk '/^c[0-9]/{print $1}'); do" ++ nl ++
  lit "            iostat -En ~$_d~ 2>/dev/null | grep -qi ~CD-ROM~ && continue" ++ nl ++
  lit "            disk_list=~$disk_list $_d~" ++ nl ++
  lit "        done".

Definition label_1b : text :=
  lit "1b: Replaced format disk_list with iostat -En + CD-ROM filter".

Definition old_1c : text :=
  lit "        echo ~~ | format 2>/dev/null | egrep ~^[0-9]|c[0-9]~ | tee -a ~$OUTPUT_FILE~".

Definition new_1c : text :=
  lit "        iostat -En 2>/dev/null | egrep ~^c[0-9]|Size:|Vendor:~ | tee -a ~$OUTPUT_FILE~".

Definition label_1c : text :=
  lit "1c: Replaced format in storage topology with iostat -En".

(** [if old in content: content = content.replace(old, new, 1);
    fixes.append(label)] *)
Definition replace_first (old new label : text) (st : state) : state :=
  if contains old (content st)
  then State (replace1 old new (content st)) (fixes st ++ [label])
  else st.

Definition step_1a : state -> state := replace_first old_1a new_1a label_1a.
Definition step_1b : state -> state := replace_first old_1b new_1b label_1b.
Definition step_1c : state -> state := replace_first old_1c new_1c label_1c.

(** *** Rule 2: [|| echo "0")] *)

Definition old_2 : text := lit "|| echo ~0~)".
Definition new_2 : text := lit "|| true)".

Definition label_2 (count : nat) : text :=
  lit "2: Fixed || echo ~0~ -> || true (" ++ decimal count ++ lit " instances)".

(** [n = content.count(old); if n > 0: content = content.replace(old, new);
    fixes.append(label(n))] *)
Definition replace_counted (old new : text) (label : nat -> text)
    (st : state) : state :=
  let n := count old (content st) in
  if 0 <? n
  then State (replace old new (content st)) (fixes st ++ [label n])
  else st.

Definition step_2 : state -> state := replace_counted old_2 new_2 label_2.

(** *** Rule 3: [((var++))] *)

(** The regular expression [\(\((\w+)\+\+\)\)], answering the captured
    name.  [+] is no word character, so the greedy [\w+] is the whole run
    of word characters and backtracking into it never succeeds. *)
Definition inc_re : matcher text := fun s =>
  if starts_with (lit "((") s then
    let w := span is_word (skipn 2 s) in
    if (0 <? length w) && starts_with (lit "++))") (skipn (2 + length w) s)
    then Some (w, 2 + length w + 4)
    else None
  else None.

(** [re.findall(r'\(\((\w+)\+\+\)\)', content)] *)
Definition plusplus (content : text) : list text := find_all inc_re content.

Definition old_inc (var : text) : text := lit "((" ++ var ++ lit "++))".
Definition new_inc (var : text) : text := var ++ lit "=$((" ++ var ++ lit " + 1))".

Definition label_3 (var : text) (n : nat) : text :=
  lit "3: Fixed ((" ++ var ++ lit "++)) -> safe increment (" ++
  decimal n ++ lit " instances)".

(** The body of the loop, for one name. *)
Definition step_3_var (var : text) : state -> state :=
  replace_counted (old_inc var) (new_inc var) (label_3 var).

(** [for var in sorted(set(plusplus)): ...] *)
Definition step_3 (st : state) : state :=
  fold_left (fun st var => step_3_var var st)
            (sorted (set_of (plusplus (content st)))) st.

(** *** Rule 4: CD-ROM devices skipped in the [/dev/rdsk] loop *)

Definition old_guard : text :=
  lit "            [[ -c ~$disk_dev~ ]] || continue" ++ nl ++
  lit "            " ++ nl ++
  lit "            local disk_base=$(basename ~$disk_dev~ | sed 's/s2$//')".

Definition new_guard : text :=
  lit "            [[ -c ~$disk_dev~ ]] || continue" ++ nl ++
  lit "" ++ nl ++
  lit "            local disk_base=$(basename ~$disk_dev~ | sed 's/s2$//')" ++ nl ++
  lit "            # Skip CD-ROM / non-disk devices" ++ nl ++
  lit "            iostat -En ~$disk_base~ 2>/dev/null | grep -qi ~CD-ROM~ && continue".

Definition label_4 : text :=
  lit "4: Added CD-ROM skip to partition alignment loop".

(** [if old in content: content = content.replace(old, new);
    fixes.append(label)] *)
Definition replace_every (old new label : text) (st : state) : state :=
  if contains old (content st)
  then State (replace old new (content st)) (fixes st ++ [label])
  else st.

Definition step_4 : state -> state := replace_every old_guard new_guard label_4.

(** *** Rule 5: [sort -rh] *)

Definition old_sort : text := lit "du -sh /* 2>/dev/null | sort -rh | head -10".
Definition new_sort : text := lit "du -sk /* 2>/dev/null | sort -rn | head -10".

Definition label_5 : text :=
  lit "5: Replaced sort -rh -> sort -rn, du -sh -> du -sk".

Definition step_5 : state -> state := replace_every old_sort new_sort label_5.

(** *** Rule 6: the flags of [netstat] *)

Definition old_6a : text := lit "netstat -ant 2>/dev/null".
Definition new_6a : text := lit "netstat -an -f inet -P tcp 2>/dev/null".

Definition label_6a (n1 : nat) : text :=
  lit "6a: Fixed netstat -ant -> -an -f inet -P tcp (" ++ decimal n1 ++
  lit " instances)".

Definition old_6b : text := lit "netstat -tuln 2>/dev/null".
Definition new_6b : text := lit "netstat -an -f inet 2>/dev/null".

Definition label_6b (n2 : nat) : text :=
  lit "6b: Fixed netstat -tuln -> -an -f inet (" ++ decimal n2 ++
  lit " instances)".

Definition step_6a : state -> state := replace_counted old_6a new_6a label_6a.
Definition step_6b : state -> state := replace_counted old_6b new_6b label_6b.

(** *** Rule 7: ports matched after a dot *)

Definition fix_port_grep (port : text) : text :=
  lit "grep ~[.]" ++ port ++ lit "[[:space:]]~".

(** The regular expression [grep ":(\d+)"] with the replacement
    [fix_port_grep] computes for its match.  The closing quote is no digit,
    so the greedy [\d+] is the whole run of digits. *)
Definition port_re : matcher text := fun s =>
  if starts_with (lit "grep ~:") s then
    let port := span is_digit (skipn 7 s) in
    if (0 <? length port) && starts_with (lit "~") (skipn (7 + length port) s)
    then Some (fix_port_grep port, 7 + length port + 1)
    else None
  else None.

Definition label_7a : text :=
  lit "7a: Fixed grep :PORT -> grep [.]PORT for illumos netstat".

Definition step_7a (st : state) : state :=
  let new_content := sub_all port_re (content st) in
  if negb (text_eqb new_content (content st))
  then State new_content (fixes st ++ [label_7a])
  else st.

Definition old_egrep : text := lit "egrep ~:3306|:5432|:1521|:1433|:27017~".
Definition new_egrep : text :=
  lit "egrep ~[.]3306[[:space:]]|[.]5432[[:space:]]|[.]1521[[:space:]]|[.]1433[[:space:]]|[.]27017[[:space:]]~".

Definition label_7b : text :=
  lit "7b: Fixed egrep compound port pattern for illumos".

Definition step_7b : state -> state := replace_every old_egrep new_egrep label_7b.

(** *** The rule sequence *)

Definition steps : list (state -> state) :=
  [step_1a; step_1b; step_1c; step_2; step_3; step_4; step_5;
   step_6a; step_6b; step_7a; step_7b].

(** The script between reading the file and the final comparison. *)
Definition patch (original : text) : state :=
  fold_left (fun st step => step st) steps (State original []).

End Patcher.

Import Patcher.

(** ** The script around the rules: the file, the report, the exit *)

Module Script.

Inductive OSError := FileNotFoundError | PermissionError.

(** A file holds the text [f.read()] returns for it and whether it can be
    opened for reading and for writing.  The files of this model are those
    whose bytes decode to text in the encoding of the locale. *)
Record file := File { data : text; readable : bool; writable : bool }.

Definition filesystem := text -> option file.

Record world := World { fs : filesystem; stdout : text }.

(** How the process ends: [sys.exit(code)], falling off the end of the
    script (code 0), or an exception nobody catches. *)
Inductive outcome := Exit (code : nat) | Uncaught (e : OSError).

(** [open(path, "r")] followed by [f.read()] *)
Definition read_file (files : filesystem) (path : text) : OSError + text :=
  match files path with
  | None => inl FileNotFoundError
  | Some f => if readable f then inr (data f) else inl PermissionError
  end.

(** [open(path, "w")] followed by [f.write(new_data)] *)
Definition write_file (files : filesystem) (path new_data : text)
    : OSError + filesystem :=
  let store f := fun p => if text_eqb p path then Some f else files p in
  match files path with
  | None => inr (store (File new_data true true))
  | Some f =>
      if writable f
      then inr (store (File new_data (readable f) true))
      else inl PermissionError
  end.

(** [print(line)] *)
Definition print (line : text) (w : world) : world :=
  World (fs w) (stdout w ++ line ++ nl).

Definition default_target : text := lit "invoke-unix-forensics.sh".

(** [sys.argv[1] if len(sys.argv) > 1 else "invoke-unix-forensics.sh"] *)
Definition target_of (argv : list text) : text :=
  match argv with
  | _ :: path :: _ => path
  | _ => default_target
  end.

(** The message of the no-op case.  Its dash has a code point past 255
    and stands here as the three bytes of its UTF-8 encoding. *)
Definition no_changes : text :=
  list_ascii_of_string "No changes needed — script is already patched.".

(** [f"Applied {len(fixes)} fix(es) to {target}:\n"] *)
Definition applied (fixes : list text) (target : text) : text :=
  lit "Applied " ++ decimal (length fixes) ++ lit " fix(es) to " ++ target ++
  lit ":" ++ nl.

(** [for f in fixes: print(f"  {f}")] *)
Definition print_fixes (fixes : list text) (w : world) : world :=
  fold_left (fun w f => print (lit "  " ++ f) w) fixes w.

(** The whole script. *)
Definition main (argv : list text) (w : world) : world * outcome :=
  let target := target_of argv in
  match read_file (fs w) target with
  | inl e => (w, Uncaught e)
  | inr original =>
      let st := patch original in
      if text_eqb (content st) original then
        (print no_changes w, Exit 0)
      else
        match write_file (fs w) target (content st) with
        | inl e => (w, Uncaught e)
        | inr files =>
            (print_fixes (fixes st)
               (print (applied (fixes st) target) (World files (stdout w))),
             Exit 0)
        end
  end.

End Script.

Import Script.

(** ** Notions the properties are stated with *)

Module Spec.

(** Does the matcher match at some position of the text? *)
Fixpoint any_match (A : Type) (m : matcher A) (s : text) : bool :=
  match s with
  | [] => false
  | _ :: s' => match m s with Some _ => true | None => false end || any_match m s'
  end.

(** The rules as data: a literal replaced at its first occurrence, a literal
    replaced everywhere, and the two rules driven by a regular expression. *)
Inductive rule :=
| Once (old new : text)
| Every (old new : text)
| Increments
| Ports.

Definition apply (r : rule) (c : text) : text :=
  match r with
  | Once old new => replace1 old new c
  | Every old new => replace old new c
  | Increments =>
      fold_left (fun c var => replace (old_inc var) (new_inc var) c)
                (sorted (set_of (plusplus c))) c
  | Ports => sub_all port_re c
  end.

(** Rules 1a, 1b, 1c, 2, 3, 4, 5, 6a, 6b, 7a, 7b in the declared order. *)
Definition rules : list rule :=
  [Once old_1a new_1a; Once old_1b new_1b; Once old_1c new_1c;
   Every old_2 new_2; Increments; Every old_guard new_guard;
   Every old_sort new_sort; Every old_6a new_6a; Every old_6b new_6b;
   Ports; Every old_egrep new_egrep].

(** The text [grep ":port"] a match of [port_re] stands on. *)
Definition old_port (port : text) : text := lit "grep ~:" ++ port ++ lit "~".

(** The characters [t], [n], [=] and [.]: every rule puts more of them
    into the buffer than it takes out, which makes their number a measure
    of the rules applied. *)
Definition marked (c : ascii) : bool :=
  Ascii.eqb c "t" || Ascii.eqb c "n" || Ascii.eqb c "=" || Ascii.eqb c ".".

Definition marks (s : text) : nat := length (filter marked s).

(** A matcher gains when each of its replacements holds more marked
    characters than the text it replaces. *)
Definition gains (m : matcher text) : Prop :=
  forall s r n, m s = Some (r, n) -> 1 <= n /\ marks (firstn n s) < marks r.

(** A step logs what it does: it appends its entries to [fixes], leaves the
    buffer alone when it appends none and adds marked characters when it
    appends some. *)
Definition logs (step : state -> state) : Prop :=
  forall st, exists entries,
    fixes (step st) = fixes st ++ entries /\
    (entries = [] -> content (step st) = content st) /\
    (entries <> [] -> marks (content st) < marks (content (step st))).

(** Python's [a <= b] and [a < b] on strings, as propositions. *)
Definition le_text (a b : text) : Prop := text_leb a b = true.
Definition lt_text (a b : text) : Prop := text_ltb a b = true.

(** A step records its fix under [entry] when, from every state, it either
    does nothing at all or appends the entry computed from the buffer it
    found, leaving more marked characters than it found. *)
Definition records (step : state -> state) (entry : text -> text) : Prop :=
  forall st,
    step st = st \/
    (fixes (step st) = fixes st ++ [entry (content st)] /\
     marks (content st) < marks (content (step st))).

(** The elementary steps of a run: the ten rules with one pattern each, and
    the body of the loop of rule 3 for a name. *)
Inductive step_id :=
| S1a | S1b | S1c | S2 | S3 (var : text) | S4 | S5 | S6a | S6b | S7a | S7b.

Definition step_of (id : step_id) : state -> state :=
  match id with
  | S1a => step_1a | S1b => step_1b | S1c => step_1c
  | S2 => step_2
  | S3 var => step_3_var var
  | S4 => step_4 | S5 => step_5
  | S6a => step_6a | S6b => step_6b
  | S7a => step_7a | S7b => step_7b
  end.

(** The entry a step appends when it changes the buffer [c]. *)
Definition entry_of (id : step_id) (c : text) : text :=
  match id with
  | S1a => label_1a | S1b => label_1b | S1c => label_1c
  | S2 => label_2 (count old_2 c)
  | S3 var => label_3 var (count (old_inc var) c)
  | S4 => label_4 | S5 => label_5
  | S6a => label_6a (count old_6a c)
  | S6b => label_6b (count old_6b c)
  | S7a => label_7a | S7b => label_7b
  end.

(** The elementary steps a run on [original] goes through, in order. *)
Definition schedule (original : text) : list step_id :=
  let st := step_2 (step_1c (step_1b (step_1a (State original [])))) in
  [S1a; S1b; S1c; S2] ++
  map S3 (sorted (set_of (plusplus (content st)))) ++
  [S4; S5; S6a; S6b; S7a; S7b].

(** How many of the steps change the buffer when run in sequence. *)
Fixpoint hits (fs : list (state -> state)) (st : state) : nat :=
  match fs with
  | [] => 0
  | f :: fs' =>
      (if text_eqb (content (f st)) (content st) then 0 else 1) + hits fs' (f st)
  end.

(** How many of the eleven rules matched in a run on [original]. *)
Definition matched_rules (original : text) : nat :=
  hits steps (State original []).

(** Does the pattern of the rule occur in the text? *)
Definition matches (r : rule) (c : text) : bool :=
  match r with
  | Once old _ => contains old c
  | Every old _ => contains old c
  | Increments => any_match inc_re c
  | Ports => any_match port_re c
  end.

Definition no_rule_matches (c : text) : bool :=
  forallb (fun r => negb (matches r c)) rules.

(** *** Overlaps *)

(** One of the two texts is a prefix of the other: laid at the same place
    they agree as far as both go. *)
Fixpoint compat (a b : text) : bool :=
  match a, b with
  | x :: a', y :: b' => Ascii.eqb x y && compat a' b'
  | _, _ => true
  end.

(** The non-empty suffixes of a list. *)
Fixpoint tails (A : Type) (l : list A) : list (list A) :=
  match l with
  | [] => []
  | _ :: l' => l :: tails l'
  end.

(** No occurrence of [b] begins inside an occurrence of [a] (or with it):
    no non-empty suffix of [a] agrees with [b]. *)
Definition apart (a b : text) : bool :=
  forallb (fun t => negb (compat t b)) (tails a).

(** Occurrences of the two texts never share a character. *)
Definition strangers (a b : text) : bool := apart a b && apart b a.

(** The matcher [m] rewrites along [R]: each of its matches stands on a
    non-empty text [p] and answers [r] with [R p r]. *)
Definition rewrites (m : matcher text) (R : text -> text -> Prop) : Prop :=
  forall s r n, m s = Some (r, n) ->
  exists p rest, p <> [] /\ n = length p /\ s = p ++ rest /\ R p r.

(** *** Texts with runs in them *)

(** The patterns and replacements of rules 3 and 7a are texts with a name
    or a port number in them.  A template describes such a family of
    texts: a character, or a non-empty run of characters of a class. *)
Inductive sym :=
| Ch (c : ascii)
| Run (f : ascii -> bool).

Definition template := list sym.

Inductive inst : template -> text -> Prop :=
| inst_nil : inst [] []
| inst_ch (c : ascii) (T : template) (t : text) :
    inst T t -> inst (Ch c :: T) (c :: t)
| inst_run (f : ascii -> bool) (T : template) (w t : text) :
    w <> [] -> forallb f w = true -> inst T t -> inst (Run f :: T) (w ++ t).

Definition chars (t : text) : template := map Ch t.

Definition old_inc_t : template :=
  chars (lit "((") ++ [Run is_word] ++ chars (lit "++))").
Definition new_inc_t : template :=
  [Run is_word] ++ chars (lit "=$((") ++ [Run is_word] ++ chars (lit " + 1))").
Definition old_port_t : template :=
  chars (lit "grep ~:") ++ [Run is_digit] ++ chars (lit "~").
Definition fix_port_t : template :=
  chars (lit "grep ~[.]") ++ [Run is_digit] ++ chars (lit "[[:space:]]~").

(** Can instances of the two templates agree as far as both go?  The
    answer [false] is definite; [true] stands for "possibly". *)
Fixpoint scompat (fuel : nat) (T1 T2 : template) : bool :=
  match fuel with
  | O => true
  | S n =>
      match T1, T2 with
      | [], _ => true
      | _, [] => true
      | Ch a :: T1', Ch b :: T2' =>
          if Ascii.eqb a b then scompat n T1' T2' else false
      | Run f :: T1', Ch b :: T2' =>
          if f b
          then if scompat n T1' T2' then true else scompat n T1 T2'
          else false
      | Ch a :: T1', Run g :: T2' =>
          if g a
          then if scompat n T1' T2' then true else scompat n T1' T2
          else false
      | Run f :: T1', Run g :: T2' =>
          if scompat n T1' T2' then true
          else if scompat n T1 T2' then true
          else scompat n T1' T2
      end
  end.

Definition sapart (T1 T2 : template) : bool :=
  forallb (fun T => negb (scompat (length T + length T2) T T2)) (tails T1).

Definition sstrangers (T1 T2 : template) : bool :=
  sapart T1 T2 && sapart T2 T1.

(** *** Names, ports and the rules around rule 3 *)

(** A non-empty run of characters of a class: a captured name is
    [run_of is_word], a captured port [run_of is_digit]. *)
Definition run_of (f : ascii -> bool) (w : text) : Prop :=
  w <> [] /\ forallb f w = true.

(** Rule 3 for a given list of names. *)
Definition increment_all (vars : list text) (c : text) : text :=
  fold_left (fun c var => replace (old_inc var) (new_inc var) c) vars c.

(** What [port_re] rewrites. *)
Definition port_rewrite (p r : text) : Prop :=
  exists port, run_of is_digit port /\ p = old_port port /\ r = fix_port_grep port.

(** The rules before and after rule 3. *)
Definition rules_1_2 : list rule :=
  [Once old_1a new_1a; Once old_1b new_1b; Once old_1c new_1c; Every old_2 new_2].

Definition rules_4_7 : list rule :=
  [Every old_guard new_guard; Every old_sort new_sort; Every old_6a new_6a;
   Every old_6b new_6b; Ports; Every old_egrep new_egrep].

Definition nonempty (t : text) : bool :=
  match t with
  | [] => false
  | _ :: _ => true
  end.

(** The instances of the template [Q] are strangers to what the rule looks
    for and to what it puts in its place. *)
Definition rule_strangers (Q : template) (r : rule) : bool :=
  match r with
  | Once old new =>
      sstrangers (chars old) Q && sstrangers (chars new) Q
  | Every old new =>
      nonempty old && sstrangers (chars old) Q && sstrangers (chars new) Q
  | Increments => sstrangers old_inc_t Q && sstrangers new_inc_t Q
  | Ports => sstrangers old_port_t Q && sstrangers fix_port_t Q
  end.

(** Is the entry one of rule 3? *)
Definition from_rule_3 (entry : text) : bool := starts_with (lit "3:") entry.

Definition foo : text := lit "foo".
Definition bar : text := lit "bar".

(** The rule an elementary step applies to the buffer. *)
Definition rule_of (id : step_id) : rule :=
  match id with
  | S1a => Once old_1a new_1a
  | S1b => Once old_1b new_1b
  | S1c => Once old_1c new_1c
  | S2 => Every old_2 new_2
  | S3 var => Every (old_inc var) (new_inc var)
  | S4 => Every old_guard new_guard
  | S5 => Every old_sort new_sort
  | S6a => Every old_6a new_6a
  | S6b => Every old_6b new_6b
  | S7a => Ports
  | S7b => Every old_egrep new_egrep
  end.

Definition ids_1_2 : list step_id := [S1a; S1b; S1c; S2].
Definition ids_4_6 : list step_id := [S4; S5; S6a; S6b].
Definition ids_4_7 : list step_id := [S4; S5; S6a; S6b; S7a; S7b].

Definition rules_4_6 : list rule :=
  [Every old_guard new_guard; Every old_sort new_sort; Every old_6a new_6a;
   Every old_6b new_6b].

(** The run of a list of elementary steps. *)
Definition run_ids (ids : list step_id) (st : state) : state :=
  fold_left (fun st id => step_of id st) ids st.

(** The buffer when rule 3 begins, and the names rule 3 goes through. *)
Definition before_rule_3 (original : text) : text :=
  fold_left (fun c r => apply r c) rules_1_2 original.

Definition names_of (original : text) : list text :=
  sorted (set_of (plusplus (before_rule_3 original))).

(** The buffer when rule 7a begins. *)
Definition before_rule_7 (original : text) : text :=
  fold_left (fun c r => apply r c) (rules_1_2 ++ Increments :: rules_4_6) original.

(** A world whose only file is the default target, with nothing printed
    yet. *)
Definition sample_world (data : text) (readable writable : bool) : world :=
  World (fun p => if text_eqb p default_target
                  then Some (File data readable writable) else None) [].

End Spec.

Import Spec.

(** ** Notions for the rules taken one by one *)

Module Shape.

(** The loop of rule 3 as one pass: [re.sub] over the idiom, rewriting the
    names of [vars] and leaving the others as they are. *)
Definition inc_sub_in (vars : list text) : matcher text := fun s =>
  match inc_re s with
  | Some (w, n) =>
      Some (if existsb (text_eqb w) vars then new_inc w else old_inc w, n)
  | None => None
  end.

(** [re.sub(r'\(\((\w+)\+\+\)\)', lambda m: new_inc(m.group(1)), content)] *)
Definition inc_sub : matcher text := fun s =>
  match inc_re s with
  | Some (w, n) => Some (new_inc w, n)
  | None => None
  end.

Definition inc_rewrite_in (vars : list text) (p r : text) : Prop :=
  exists w, run_of is_word w /\ p = old_inc w /\
            r = if existsb (text_eqb w) vars then new_inc w else old_inc w.

(** No occurrence of [q] begins before [y] and ends in it. *)
Definition no_straddle (q y : text) : Prop :=
  forall pre u, q = pre ++ u -> pre <> [] -> u <> [] -> starts_with u y = false.

(** What the rule looks for never shares a character with an instance of
    [Q]. *)
Definition rule_spares (Q : template) (r : rule) : bool :=
  match r with
  | Once old _ => sstrangers (chars old) Q
  | Every old _ => nonempty old && sstrangers (chars old) Q
  | Increments => sstrangers old_inc_t Q
  | Ports => sstrangers old_port_t Q
  end.

(** The steps with a literal pattern, and the pattern. *)
Definition literal_step (id : step_id) : bool :=
  match id with
  | S3 _ | S7a => false
  | _ => true
  end.

Definition pattern_of (id : step_id) : text :=
  match rule_of id with
  | Once old _ => old
  | Every old _ => old
  | _ => []
  end.

(** The rule leaves an occurrence of [q] standing. *)
Definition keeps (q : text) (r : rule) : Prop :=
  forall c, contains q c = true -> contains q (apply r c) = true.

(** Each step of the run with the rule it applies. *)
Definition plan : list ((state -> state) * rule) := combine steps rules.

Definition rule_eqb (r r' : rule) : bool :=
  match r, r' with
  | Once a b, Once a' b' => text_eqb a a' && text_eqb b b'
  | Every a b, Every a' b' => text_eqb a a' && text_eqb b b'
  | Increments, Increments => true
  | Ports, Ports => true
  | _, _ => false
  end.

(** The rule [r] matches in the text and no other rule does. *)
Definition only (r : rule) (c : text) : bool :=
  forallb (fun r' => if rule_eqb r' r then matches r' c else negb (matches r' c)) rules.

(** What [r'] looks for is a stranger to what [r] looks for and to what
    [r] puts in its place: applying [r] neither completes nor breaks a
    match of [r']. *)
Definition quiet (r' r : rule) : bool :=
  match r' with
  | Once old _ => nonempty old && rule_strangers (chars old) r
  | Every old _ => nonempty old && rule_strangers (chars old) r
  | Increments => rule_strangers old_inc_t r
  | Ports => rule_strangers old_port_t r
  end.

(** The steps whose rule is quiet for every other rule: all but 1b, 3
    and 4. *)
Definition lone_step (id : step_id) : bool :=
  match id with
  | S1b | S3 _ | S4 => false
  | _ => true
  end.

Definition replacement_of (id : step_id) : text :=
  match rule_of id with
  | Once _ new => new
  | Every _ new => new
  | _ => []
  end.

(** The steps that replace the first occurrence only. *)
Definition once_step (id : step_id) : bool :=
  match id with
  | S1a | S1b | S1c => true
  | _ => false
  end.

(** The steps that count the occurrences they replace. *)
Definition counted_step (id : step_id) : bool :=
  match id with
  | S2 | S3 _ | S6a | S6b => true
  | _ => false
  end.

(** [es] holds, in order, one element for some of the elements of [l]:
    [l] with elements left out and the others replaced by a related
    element. *)
Inductive picks (A B : Type) (R : A -> B -> Prop) : list A -> list B -> Prop :=
| picks_nil : picks R [] []
| picks_skip (a : A) (l : list A) (es : list B) :
    picks R l es -> picks R (a :: l) es
| picks_take (a : A) (l : list A) (e : B) (es : list B) :
    R a e -> picks R l es -> picks R (a :: l) (e :: es).

(** The entry is one the step can append. *)
Definition entry_from (id : step_id) (e : text) : Prop :=
  exists c, e = entry_of id c.

(** The rule number an entry begins with. *)
Definition tag (e : text) : text := firstn 3 e.

(** *** What the rules are to do *)

(** [p] stands at the beginning of [s]. *)
Definition stands (p s : text) : Prop := exists t, s = p ++ t.

(** What [str.replace(old, new)] and [re.sub] are documented to do, said
    without a scan.  The text is read from left to right; where a pattern
    stands, it is replaced and reading goes on after it; the characters
    before the first pattern, between the patterns and after the last are
    kept.  [P p r] says that [p] is a pattern and [r] its replacement. *)
Inductive rewritten (P : text -> text -> Prop) : text -> text -> Prop :=
| rewritten_rest (g : text) :
    (forall g1 g2 p r, g = g1 ++ g2 -> P p r -> ~ stands p g2) ->
    rewritten P g g
| rewritten_match (g p r rest rest' : text) :
    P p r ->
    (forall g1 g2 p' r', g = g1 ++ g2 -> g2 <> [] -> P p' r' ->
       ~ stands p' (g2 ++ p ++ rest)) ->
    rewritten P rest rest' ->
    rewritten P (g ++ p ++ rest) (g ++ r ++ rest').

(** What [str.replace(old, new, 1)] is documented to do: the leftmost
    occurrence of [old] is replaced, and a text without one is left as it
    is. *)
Definition first_replaced (old new c x : text) : Prop :=
  ((forall g1 g2, c = g1 ++ g2 -> ~ stands old g2) /\ x = c) \/
  (exists g b,
     c = g ++ old ++ b /\
     (forall g1 g2, g = g1 ++ g2 -> g2 <> [] -> ~ stands old (g2 ++ old ++ b)) /\
     x = g ++ new ++ b).

(** The one pattern of a literal rule and its replacement. *)
Definition literally (old new p r : text) : Prop := p = old /\ r = new.

(** The patterns of rule 3 and their replacements. *)
Definition inc_rewrite (p r : text) : Prop :=
  exists w, run_of is_word w /\ p = old_inc w /\ r = new_inc w.

(** What a rule is to do to the buffer. *)
Definition follows (r : rule) : text -> text -> Prop :=
  match r with
  | Once old new => first_replaced old new
  | Every old new => rewritten (literally old new)
  | Increments => rewritten inc_rewrite
  | Ports => rewritten port_rewrite
  end.

End Shape.

Import Shape.

(** ** Facts about the string primitives *)

Module Facts.

Lemma eqb_ascii_refl (c : ascii) : Ascii.eqb c c = true.
Proof. apply Ascii.eqb_eq; reflexivity. Qed.

Lemma text_eqb_eq (a b : text) : text_eqb a b = true <-> a = b.
Proof.
  revert b; induction a as [|x a IH]; intros [|y b]; simpl;
    try (split; [discriminate | congruence]); try tauto.
  rewrite andb_true_iff, Ascii.eqb_eq, IH.
  split; [intros [-> ->]; reflexivity | intros E; inversion E; auto].
Qed.

Lemma text_eqb_refl (a : text) : text_eqb a a = true.
Proof. apply text_eqb_eq; reflexivity. Qed.

Lemma text_eqb_neq (a b : text) : text_eqb a b = false <-> a <> b.
Proof.
  rewrite <- text_eqb_eq. destruct (text_eqb a b); split; congruence.
Qed.

Lemma starts_with_iff (p s : text) :
  starts_with p s = true <-> exists t, s = p ++ t.
Proof.
  revert s; induction p as [|x p IH]; intros s; simpl.
  - split; [exists s; reflexivity | reflexivity].
  - destruct s as [|y s].
    + split; [discriminate | intros [t E]; discriminate].
    + rewrite andb_true_iff, Ascii.eqb_eq, IH. split.
      * intros [-> [t ->]]. exists t; reflexivity.
      * intros [t E]. inversion E; subst. split; [reflexivity | exists t; reflexivity].
Qed.

Lemma starts_with_app (p t : text) : starts_with p (p ++ t) = true.
Proof. apply starts_with_iff; exists t; reflexivity. Qed.

Lemma starts_with_split (p s : text) :
  starts_with p s = true -> s = p ++ skipn (length p) s.
Proof.
  intros H; apply starts_with_iff in H; destruct H as [t ->].
  rewrite skipn_app, skipn_all, Nat.sub_diag; reflexivity.
Qed.

Lemma contains_iff (p s : text) :
  contains p s = true <-> exists a b, s = a ++ p ++ b.
Proof.
  induction s as [|c s IH]; simpl.
  - rewrite orb_false_r, starts_with_iff. split.
    + intros [t E]. exists [], t; exact E.
    + intros [a [b E]]. destruct a; simpl in E.
      * exists b; exact E.
      * discriminate.
  - rewrite orb_true_iff, starts_with_iff, IH. split.
    + intros [[t E] | [a [b E]]].
      * exists [], t; exact E.
      * exists (c :: a), b; simpl; congruence.
    + intros [a [b E]]. destruct a as [|x a]; simpl in E.
      * left; exists b; exact E.
      * right; exists a, b; congruence.
Qed.

(** *** The scans *)

Lemma sub_scan_skip (m : matcher text) (k : nat) (s : text) :
  sub_scan m k s = sub_all m (skipn k s).
Proof.
  revert k; induction s as [|c s IH]; intros [|k]; simpl; try reflexivity.
  apply IH.
Qed.

Lemma find_scan_skip (A : Type) (m : matcher A) (k : nat) (s : text) :
  find_scan m k s = find_all m (skipn k s).
Proof.
  revert k; induction s as [|c s IH]; intros [|k]; simpl; try reflexivity.
  apply IH.
Qed.

Lemma sub_all_cons (m : matcher text) (c : ascii) (s : text) :
  sub_all m (c :: s) =
  match m (c :: s) with
  | Some (r, n) => r ++ sub_all m (skipn (n - 1) s)
  | None => c :: sub_all m s
  end.
Proof.
  unfold sub_all at 1; simpl. destruct (m (c :: s)) as [[r n]|]; [|reflexivity].
  rewrite sub_scan_skip; reflexivity.
Qed.

Lemma find_all_cons (A : Type) (m : matcher A) (c : ascii) (s : text) :
  find_all m (c :: s) =
  match m (c :: s) with
  | Some (a, n) => a :: find_all m (skipn (n - 1) s)
  | None => find_all m s
  end.
Proof.
  unfold find_all at 1; simpl. destruct (m (c :: s)) as [[r n]|]; [|reflexivity].
  rewrite find_scan_skip; reflexivity.
Qed.

Lemma sub_all_no_match (m : matcher text) (s : text) :
  any_match m s = false -> sub_all m s = s.
Proof.
  induction s as [|c s IH]; [reflexivity|]. simpl. intros H.
  apply orb_false_iff in H; destruct H as [H1 H2].
  rewrite sub_all_cons. destruct (m (c :: s)); [discriminate|].
  rewrite IH by assumption; reflexivity.
Qed.

Lemma find_all_no_match (A : Type) (m : matcher A) (s : text) :
  any_match m s = false -> find_all m s = [].
Proof.
  induction s as [|c s IH]; [reflexivity|]. simpl. intros H.
  apply orb_false_iff in H; destruct H as [H1 H2].
  rewrite find_all_cons. destruct (m (c :: s)); [discriminate|].
  apply IH; assumption.
Qed.

Lemma find_all_match (A : Type) (m : matcher A) (s : text) :
  any_match m s = true -> find_all m s <> [].
Proof.
  induction s as [|c s IH]; [discriminate|]. simpl. intros H.
  rewrite find_all_cons. destruct (m (c :: s)) as [[a n]|]; [discriminate|].
  apply IH; exact H.
Qed.

Lemma find_all_nil_iff (A : Type) (m : matcher A) (s : text) :
  find_all m s = [] <-> any_match m s = false.
Proof.
  split; [|apply find_all_no_match].
  intros H. destruct (any_match m s) eqn:E; [|reflexivity].
  exfalso; exact (find_all_match m s E H).
Qed.

Lemma any_match_literal (old new : text) (s : text) :
  any_match (literal old new) s = true -> contains old s = true.
Proof.
  induction s as [|c s IH]; [discriminate|]. simpl. unfold literal at 1.
  destruct (starts_with old (c :: s)); [reflexivity|]. simpl. exact IH.
Qed.

Lemma any_match_literal_new (old new new' : text) (s : text) :
  any_match (literal old new) s = any_match (literal old new') s.
Proof.
  induction s as [|c s IH]; [reflexivity|]. simpl. rewrite IH.
  unfold literal. destruct (starts_with old (c :: s)); reflexivity.
Qed.

Lemma contains_any_match (old new : text) (s : text) :
  old <> [] -> contains old s = true -> any_match (literal old new) s = true.
Proof.
  intros Hne. induction s as [|c s IH]; simpl.
  - destruct old; [congruence | discriminate].
  - unfold literal at 1. destruct (starts_with old (c :: s)); [reflexivity|].
    simpl. exact IH.
Qed.

Lemma count_zero_iff (old s : text) :
  count old s = 0 <-> any_match (literal old []) s = false.
Proof.
  unfold count. rewrite <- find_all_nil_iff. apply length_zero_iff_nil.
Qed.

Lemma replace_absent (old new s : text) :
  contains old s = false -> replace old new s = s.
Proof.
  intros H. apply sub_all_no_match.
  destruct (any_match (literal old new) s) eqn:E; [|reflexivity].
  apply any_match_literal in E. congruence.
Qed.

Lemma replace_count_zero (old new s : text) :
  count old s = 0 -> replace old new s = s.
Proof.
  intros H. apply sub_all_no_match.
  rewrite (any_match_literal_new old new []). apply count_zero_iff; exact H.
Qed.

Lemma replace1_absent (old new s : text) :
  contains old s = false -> replace1 old new s = s.
Proof.
  induction s as [|c s IH]; simpl; intros H;
    apply orb_false_iff in H; destruct H as [H1 H2]; rewrite H1.
  - reflexivity.
  - rewrite IH by assumption; reflexivity.
Qed.

End Facts.

Import Facts.

(** ** The measure of applied rules *)

Module Measure.

Lemma marks_app (a b : text) : marks (a ++ b) = marks a + marks b.
Proof. unfold marks. rewrite filter_app, length_app. reflexivity. Qed.

Lemma marks_split (n : nat) (s : text) :
  marks s = marks (firstn n s) + marks (skipn n s).
Proof. rewrite <- marks_app, firstn_skipn. reflexivity. Qed.

Lemma marks_sub_scan (m : matcher text) :
  gains m -> forall s k, marks (skipn k s) <= marks (sub_scan m k s).
Proof.
  intros G. induction s as [|c s IH]; intros k.
  - destruct k; simpl; lia.
  - destruct k as [|k]; simpl.
    + destruct (m (c :: s)) as [[r n]|] eqn:E.
      * destruct (G _ _ _ E) as [Hn Hlt].
        rewrite marks_app. specialize (IH (n - 1)).
        rewrite (marks_split n (c :: s)).
        replace (skipn n (c :: s)) with (skipn (n - 1) s)
          by (destruct n; [lia | simpl; rewrite Nat.sub_0_r; reflexivity]).
        fold (marks (c :: s)). lia.
      * specialize (IH 0). simpl in IH.
        change (c :: sub_scan m 0 s) with ([c] ++ sub_scan m 0 s).
        change (c :: s) with ([c] ++ s).
        rewrite !marks_app. lia.
    + apply IH.
Qed.

Lemma marks_sub_all (m : matcher text) (s : text) :
  gains m -> marks s <= marks (sub_all m s).
Proof. intros G. exact (marks_sub_scan G s 0). Qed.

Lemma marks_sub_all_match (m : matcher text) (s : text) :
  gains m -> any_match m s = true -> marks s < marks (sub_all m s).
Proof.
  intros G. induction s as [|c s IH]; [discriminate|]. simpl. intros H.
  rewrite sub_all_cons. destruct (m (c :: s)) as [[r n]|] eqn:E.
  - destruct (G _ _ _ E) as [Hn Hlt].
    rewrite marks_app, (marks_split n (c :: s)).
    replace (skipn n (c :: s)) with (skipn (n - 1) s)
      by (destruct n; [lia | simpl; rewrite Nat.sub_0_r; reflexivity]).
    pose proof (marks_sub_all (skipn (n - 1) s) G). lia.
  - simpl in H. specialize (IH H).
    change (c :: sub_all m s) with ([c] ++ sub_all m s).
    change (c :: s) with ([c] ++ s).
    rewrite !marks_app. lia.
Qed.

Lemma firstn_starts_with (p s : text) :
  starts_with p s = true -> firstn (length p) s = p.
Proof.
  intros H. rewrite (starts_with_split _ _ H).
  rewrite firstn_app, Nat.sub_diag, firstn_all. simpl. apply app_nil_r.
Qed.

Lemma gains_literal (old new : text) :
  old <> [] -> marks old < marks new -> gains (literal old new).
Proof.
  intros Hne Hlt s r n. unfold literal.
  destruct (starts_with old s) eqn:E; [|discriminate].
  intros H; inversion H; subst. split.
  - destruct old; [congruence | simpl; lia].
  - rewrite firstn_starts_with by assumption. exact Hlt.
Qed.

Lemma marks_replace1 (old new s : text) :
  marks old < marks new -> contains old s = true ->
  marks s < marks (replace1 old new s).
Proof.
  intros Hlt. induction s as [|c s IH]; simpl; intros H.
  - rewrite orb_false_r in H. rewrite H.
    rewrite (starts_with_split _ _ H) at 1. rewrite !marks_app. lia.
  - destruct (starts_with old (c :: s)) eqn:E.
    + rewrite (starts_with_split _ _ E) at 1. rewrite !marks_app. lia.
    + simpl in H. specialize (IH H).
      change (c :: replace1 old new s) with ([c] ++ replace1 old new s).
      change (c :: s) with ([c] ++ s).
      rewrite !marks_app. lia.
Qed.

End Measure.

Import Measure.

(** ** The two regular expressions *)

Module Regex.

Lemma span_split (f : ascii -> bool) (s : text) :
  s = span f s ++ skipn (length (span f s)) s.
Proof.
  induction s as [|c s IH]; simpl; [reflexivity|].
  destruct (f c); simpl; [f_equal; exact IH | reflexivity].
Qed.

Lemma span_all (f : ascii -> bool) (s : text) : forallb f (span f s) = true.
Proof.
  induction s as [|c s IH]; simpl; [reflexivity|].
  destruct (f c) eqn:E; simpl; [rewrite E; exact IH | reflexivity].
Qed.

Lemma span_stop (f : ascii -> bool) (d : text) (c : ascii) (rest : text) :
  forallb f d = true -> f c = false -> span f (d ++ c :: rest) = d.
Proof.
  intros Hd Hc. induction d as [|x d IH]; simpl in *.
  - rewrite Hc; reflexivity.
  - apply andb_true_iff in Hd; destruct Hd as [Hx Hd].
    rewrite Hx, IH by assumption. reflexivity.
Qed.

Lemma skipn_plus (A : Type) (a b : nat) (l : list A) :
  skipn (a + b) l = skipn b (skipn a l).
Proof. rewrite skipn_skipn. f_equal; lia. Qed.

(** A match of [inc_re] is the literal [((w++))] for a non-empty run [w] of
    word characters, and conversely. *)
Lemma inc_re_inv (s w : text) (n : nat) :
  inc_re s = Some (w, n) ->
  w <> [] /\ forallb is_word w = true /\ n = length (old_inc w) /\
  exists rest, s = old_inc w ++ rest.
Proof.
  unfold inc_re. destruct (starts_with (lit "((") s) eqn:E1; [|discriminate].
  set (w0 := span is_word (skipn 2 s)).
  destruct ((0 <? length w0) && starts_with (lit "++))") (skipn (2 + length w0) s)) eqn:E2;
    [|discriminate].
  intros H; inversion H; subst w n; clear H.
  apply andb_true_iff in E2; destruct E2 as [Hlen E3].
  apply Nat.ltb_lt in Hlen.
  split; [destruct w0; [simpl in Hlen; lia | discriminate]|].
  split; [apply span_all|].
  split; [unfold old_inc; rewrite !length_app; simpl; lia|].
  rewrite skipn_plus in E3. apply starts_with_iff in E3; destruct E3 as [rest E3].
  exists rest. unfold old_inc.
  rewrite (starts_with_split _ _ E1) at 1.
  change (length (lit "((")) with 2.
  rewrite (span_split is_word (skipn 2 s)) at 1. fold w0.
  rewrite E3. rewrite <- !app_assoc. reflexivity.
Qed.

Lemma inc_re_old_inc (w rest : text) :
  w <> [] -> forallb is_word w = true ->
  inc_re (old_inc w ++ rest) = Some (w, length (old_inc w)).
Proof.
  intros Hne Hw. unfold inc_re, old_inc.
  rewrite <- !app_assoc. rewrite (starts_with_app (lit "((")).
  change (skipn 2 (lit "((" ++ w ++ lit "++))" ++ rest))
    with (w ++ "+"%char :: lit "+))" ++ rest).
  rewrite span_stop by (assumption || reflexivity).
  replace (0 <? length w) with true
    by (symmetry; apply Nat.ltb_lt; destruct w; [congruence | simpl; lia]).
  rewrite skipn_plus.
  change (skipn 2 (lit "((" ++ w ++ lit "++))" ++ rest))
    with (w ++ lit "++))" ++ rest).
  rewrite skipn_app, skipn_all, Nat.sub_diag, skipn_O, app_nil_l.
  rewrite (starts_with_app (lit "++))")). simpl andb. cbv iota.
  f_equal. f_equal. rewrite !length_app. simpl. lia.
Qed.

Lemma port_re_inv (s r : text) (n : nat) :
  port_re s = Some (r, n) ->
  exists port rest,
    port <> [] /\ forallb is_digit port = true /\
    s = old_port port ++ rest /\ r = fix_port_grep port /\
    n = length (old_port port).
Proof.
  unfold port_re. destruct (starts_with (lit "grep ~:") s) eqn:E1; [|discriminate].
  set (d := span is_digit (skipn 7 s)).
  destruct ((0 <? length d) && starts_with (lit "~") (skipn (7 + length d) s)) eqn:E2;
    [|discriminate].
  intros H; inversion H; subst r n; clear H.
  apply andb_true_iff in E2; destruct E2 as [Hlen E3].
  apply Nat.ltb_lt in Hlen.
  rewrite skipn_plus in E3. apply starts_with_iff in E3; destruct E3 as [rest E3].
  exists d, rest.
  split; [destruct d; [simpl in Hlen; lia | discriminate]|].
  split; [apply span_all|].
  split; [|split; [reflexivity | unfold old_port; rewrite !length_app; simpl; lia]].
  unfold old_port.
  rewrite (starts_with_split _ _ E1) at 1.
  change (length (lit "grep ~:")) with 7.
  rewrite (span_split is_digit (skipn 7 s)) at 1. fold d.
  rewrite E3. rewrite <- !app_assoc. reflexivity.
Qed.

Lemma port_re_old_port (port rest : text) :
  port <> [] -> forallb is_digit port = true ->
  port_re (old_port port ++ rest) =
  Some (fix_port_grep port, length (old_port port)).
Proof.
  intros Hne Hd. unfold port_re, old_port.
  rewrite <- !app_assoc. rewrite (starts_with_app (lit "grep ~:")).
  change (skipn 7 (lit "grep ~:" ++ port ++ lit "~" ++ rest))
    with (port ++ dquote :: rest).
  rewrite span_stop by (assumption || reflexivity).
  replace (0 <? length port) with true
    by (symmetry; apply Nat.ltb_lt; destruct port; [congruence | simpl; lia]).
  rewrite skipn_plus.
  change (skipn 7 (lit "grep ~:" ++ port ++ lit "~" ++ rest))
    with (port ++ lit "~" ++ rest).
  rewrite skipn_app, skipn_all, Nat.sub_diag, skipn_O, app_nil_l.
  rewrite (starts_with_app (lit "~")). simpl andb. cbv iota.
  f_equal. f_equal. rewrite !length_app. simpl. lia.
Qed.

(** The two classes, as the code points they hold. *)
Lemma word_codes :
  filter (fun n => is_word (ascii_of_nat n)) (seq 0 256) =
  seq 48 10 ++ seq 65 26 ++ [95] ++ seq 97 26 ++
  [170; 178; 179; 181; 185; 186; 188; 189; 190] ++
  seq 192 23 ++ seq 216 31 ++ seq 248 8.
Proof. vm_compute. reflexivity. Qed.

Lemma digit_codes :
  filter (fun n => is_digit (ascii_of_nat n)) (seq 0 256) = seq 48 10.
Proof. vm_compute. reflexivity. Qed.

End Regex.

Import Regex.

(** ** Every step logs what it does *)

Module Logging.

Lemma records_logs (step : state -> state) (entry : text -> text) :
  records step entry -> logs step.
Proof.
  intros H st. destruct (H st) as [E | [F M]].
  - exists []. rewrite E, app_nil_r.
    split; [reflexivity|]. split; [reflexivity | congruence].
  - exists [entry (content st)].
    split; [exact F|]. split; [discriminate | intros _; exact M].
Qed.

Lemma records_replace_first (old new label : text) :
  marks old < marks new ->
  records (replace_first old new label) (fun _ => label).
Proof.
  intros Hlt st. unfold replace_first.
  destruct (contains old (content st)) eqn:E; [right | left; reflexivity].
  cbn [fixes content]. split; [reflexivity | apply marks_replace1; assumption].
Qed.

Lemma count_pos_any_match (old new s : text) :
  0 < count old s -> any_match (literal old new) s = true.
Proof.
  intros H. rewrite (any_match_literal_new old new []).
  destruct (any_match (literal old []) s) eqn:A; [reflexivity|].
  apply count_zero_iff in A. lia.
Qed.

Lemma records_replace_counted (old new : text) (label : nat -> text) :
  old <> [] -> marks old < marks new ->
  records (replace_counted old new label) (fun c => label (count old c)).
Proof.
  intros Hne Hlt st. unfold replace_counted.
  destruct (0 <? count old (content st)) eqn:E; [right | left; reflexivity].
  cbn [fixes content]. split; [reflexivity|].
  apply marks_sub_all_match; [apply gains_literal; assumption|].
  apply count_pos_any_match. apply Nat.ltb_lt; exact E.
Qed.

Lemma records_replace_every (old new label : text) :
  old <> [] -> marks old < marks new ->
  records (replace_every old new label) (fun _ => label).
Proof.
  intros Hne Hlt st. unfold replace_every.
  destruct (contains old (content st)) eqn:E; [right | left; reflexivity].
  cbn [fixes content]. split; [reflexivity|].
  apply marks_sub_all_match; [apply gains_literal; assumption|].
  apply contains_any_match; assumption.
Qed.

Lemma marks_inc (var : text) : marks (old_inc var) < marks (new_inc var).
Proof.
  unfold old_inc, new_inc. rewrite !marks_app.
  change (marks (lit "((")) with 0. change (marks (lit "++))")) with 0.
  change (marks (lit "=$((")) with 1. change (marks (lit " + 1))")) with 0.
  lia.
Qed.

Lemma old_inc_not_nil (var : text) : old_inc var <> [].
Proof. discriminate. Qed.

Lemma marks_port (port : text) : marks (old_port port) < marks (fix_port_grep port).
Proof.
  unfold old_port, fix_port_grep. rewrite !marks_app.
  change (marks (lit "grep ~:")) with 0. change (marks (lit "~")) with 0.
  change (marks (lit "grep ~[.]")) with 1. change (marks (lit "[[:space:]]~")) with 0.
  lia.
Qed.

Lemma gains_port_re : gains port_re.
Proof.
  intros s r n H. apply port_re_inv in H.
  destruct H as [port [rest [Hne [Hd [-> [-> ->]]]]]]. split.
  - unfold old_port. rewrite !length_app. simpl. lia.
  - rewrite firstn_app, Nat.sub_diag, firstn_all. simpl firstn.
    rewrite app_nil_r. apply marks_port.
Qed.

Lemma records_step_7a : records step_7a (fun _ => label_7a).
Proof.
  intros st. unfold step_7a. cbv zeta.
  destruct (text_eqb (sub_all port_re (content st)) (content st)) eqn:E;
    [left; reflexivity | right].
  cbn [negb fixes content]. split; [reflexivity|].
  apply marks_sub_all_match; [apply gains_port_re|].
  destruct (any_match port_re (content st)) eqn:A; [reflexivity|].
  apply sub_all_no_match in A. apply text_eqb_neq in E. congruence.
Qed.

Ltac literal_gain :=
  first [ discriminate | apply Nat.ltb_lt; vm_compute; reflexivity ].

Lemma records_step_of (id : step_id) : records (step_of id) (entry_of id).
Proof.
  destruct id; cbn [step_of entry_of].
  - apply records_replace_first; literal_gain.
  - apply records_replace_first; literal_gain.
  - apply records_replace_first; literal_gain.
  - unfold step_2. apply records_replace_counted; literal_gain.
  - unfold step_3_var. apply records_replace_counted;
      [apply old_inc_not_nil | apply marks_inc].
  - apply records_replace_every; literal_gain.
  - apply records_replace_every; literal_gain.
  - unfold step_6a. apply records_replace_counted; literal_gain.
  - unfold step_6b. apply records_replace_counted; literal_gain.
  - apply records_step_7a.
  - apply records_replace_every; literal_gain.
Qed.

Lemma logs_compose (f g : state -> state) :
  logs f -> logs g -> logs (fun st => g (f st)).
Proof.
  intros Hf Hg st.
  destruct (Hf st) as [e1 [F1 [N1 C1]]].
  destruct (Hg (f st)) as [e2 [F2 [N2 C2]]].
  exists (e1 ++ e2). split; [rewrite F2, F1, app_assoc; reflexivity|]. split.
  - intros E. apply app_eq_nil in E; destruct E as [-> ->].
    rewrite N2, N1; reflexivity.
  - intros E. destruct e1 as [|x e1], e2 as [|y e2].
    + simpl in E; congruence.
    + rewrite <- N1 by reflexivity. apply C2; discriminate.
    + rewrite N2 by reflexivity. apply C1; discriminate.
    + specialize (C1 ltac:(discriminate)). specialize (C2 ltac:(discriminate)). lia.
Qed.

Lemma logs_id : logs (fun st => st).
Proof.
  intros st. exists []. rewrite app_nil_r.
  split; [reflexivity|]. split; [reflexivity | congruence].
Qed.

Lemma logs_ids (ids : list step_id) :
  logs (fun st => fold_left (fun st id => step_of id st) ids st).
Proof.
  induction ids as [|id ids IH]; cbn [fold_left].
  - apply logs_id.
  - exact (logs_compose (records_logs (records_step_of id)) IH).
Qed.

Lemma fold_left_map (A B C : Type) (f : A -> C -> A) (g : B -> C)
    (l : list B) (a : A) :
  fold_left f (map g l) a = fold_left (fun a b => f a (g b)) l a.
Proof. revert a; induction l as [|b l IH]; intros a; simpl; [reflexivity | apply IH]. Qed.

(** A run is the sequence of its elementary steps. *)
Lemma patch_schedule (original : text) :
  patch original =
  fold_left (fun st id => step_of id st) (schedule original) (State original []).
Proof.
  unfold schedule. cbv zeta. rewrite !fold_left_app.
  cbn [fold_left step_of]. rewrite fold_left_map.
  reflexivity.
Qed.

(** The state the patcher ends in: either nothing was logged and the buffer
    is the original, or something was logged and the buffer holds more
    marked characters than the original. *)
Lemma patch_logs (original : text) :
  (fixes (patch original) = [] /\ content (patch original) = original) \/
  (fixes (patch original) <> [] /\
   marks original < marks (content (patch original))).
Proof.
  rewrite patch_schedule.
  destruct (logs_ids (schedule original) (State original [])) as [es [F [N C]]].
  cbv beta in F, N, C. cbn [fixes content app] in F, N, C.
  destruct es as [|e es].
  - left. split; [exact F | apply N; reflexivity].
  - right. rewrite F. split; [discriminate | apply C; discriminate].
Qed.

Lemma state_eq (st st' : state) :
  content st' = content st -> fixes st' = fixes st -> st' = st.
Proof. destruct st, st'; simpl; intros -> ->; reflexivity. Qed.

(** The entries of a run count the elementary steps that changed the
    buffer. *)
Lemma hits_fixes (ids : list step_id) (st : state) :
  length (fixes (fold_left (fun st id => step_of id st) ids st)) =
  length (fixes st) + hits (map step_of ids) st.
Proof.
  revert st; induction ids as [|id ids IH]; intros st; cbn [fold_left map hits].
  - lia.
  - rewrite IH. destruct (records_step_of id st) as [E | [F M]].
    + rewrite E, text_eqb_refl. lia.
    + rewrite F, length_app. cbn [length].
      replace (text_eqb (content (step_of id st)) (content st)) with false; [lia|].
      symmetry; apply text_eqb_neq. intros E. rewrite E in M. lia.
Qed.

End Logging.

Import Logging.

(** ** Runs in which no rule matches, and runs in which one does *)

Module Runs.

Lemma find_scan_in (A : Type) (m : matcher A) (a : A) (s : text) :
  forall k, In a (find_scan m k s) ->
  exists pre t n, s = pre ++ t /\ m t = Some (a, n).
Proof.
  induction s as [|c s IH]; intros k H; [contradiction|].
  destruct k as [|k]; cbn [find_scan] in H.
  - destruct (m (c :: s)) as [[b n]|] eqn:E.
    + destruct H as [-> | H].
      * exists [], (c :: s), n. split; [reflexivity | exact E].
      * destruct (IH _ H) as [pre [t [n' [-> Ht]]]].
        exists (c :: pre), t, n'. split; [reflexivity | exact Ht].
    + destruct (IH _ H) as [pre [t [n' [-> Ht]]]].
      exists (c :: pre), t, n'. split; [reflexivity | exact Ht].
  - destruct (IH _ H) as [pre [t [n' [-> Ht]]]].
    exists (c :: pre), t, n'. split; [reflexivity | exact Ht].
Qed.

(** A captured name is a non-empty word standing in the text as [((w++))]. *)
Lemma plusplus_in (w c : text) :
  In w (plusplus c) ->
  w <> [] /\ forallb is_word w = true /\ contains (old_inc w) c = true.
Proof.
  intros H. apply find_scan_in in H. destruct H as [pre [t [n [-> Ht]]]].
  apply inc_re_inv in Ht. destruct Ht as [Hne [Hw [_ [rest ->]]]].
  split; [exact Hne|]. split; [exact Hw|].
  apply contains_iff. exists pre, rest. reflexivity.
Qed.

Lemma insert_in (x y : text) (l : list text) :
  In y (insert x l) <-> y = x \/ In y l.
Proof.
  induction l as [|z l IH]; simpl.
  - intuition congruence.
  - destruct (text_leb x z); simpl; [intuition congruence|].
    rewrite IH. intuition congruence.
Qed.

Lemma sorted_in (y : text) (l : list text) : In y (sorted l) <-> In y l.
Proof.
  induction l as [|x l IH]; simpl; [tauto|].
  rewrite insert_in, IH. intuition congruence.
Qed.

Lemma set_of_in (y : text) (l : list text) : In y (set_of l) <-> In y l.
Proof. apply nodup_In. Qed.

Lemma contains_count_pos (old s : text) :
  old <> [] -> contains old s = true -> 0 < count old s.
Proof.
  intros Hne H. apply (contains_any_match []) in H; [|exact Hne].
  destruct (count old s) eqn:E; [|lia].
  apply count_zero_iff in E. congruence.
Qed.

Lemma absent_count_zero (old s : text) :
  contains old s = false -> count old s = 0.
Proof.
  intros H. apply count_zero_iff.
  destruct (any_match (literal old []) s) eqn:E; [|reflexivity].
  apply any_match_literal in E. congruence.
Qed.

(** What a step that did nothing tells about the buffer. *)

Lemma fixes_grow (st : state) (e : text) : fixes st ++ [e] <> fixes st.
Proof.
  intros E. apply (f_equal (@length text)) in E.
  rewrite length_app in E. simpl in E. lia.
Qed.

Lemma replace_first_idle (old new label : text) (st : state) :
  replace_first old new label st = st <-> contains old (content st) = false.
Proof.
  unfold replace_first. destruct (contains old (content st)); split; try congruence.
  intros E. apply (f_equal fixes) in E. cbn [fixes] in E.
  exfalso; exact (fixes_grow _ _ E).
Qed.

Lemma replace_every_idle (old new label : text) (st : state) :
  replace_every old new label st = st <-> contains old (content st) = false.
Proof.
  unfold replace_every. destruct (contains old (content st)); split; try congruence.
  intros E. apply (f_equal fixes) in E. cbn [fixes] in E.
  exfalso; exact (fixes_grow _ _ E).
Qed.

Lemma replace_counted_idle (old new : text) (label : nat -> text) (st : state) :
  old <> [] ->
  replace_counted old new label st = st <-> contains old (content st) = false.
Proof.
  intros Hne. unfold replace_counted.
  destruct (0 <? count old (content st)) eqn:C; split.
  - intros E. apply (f_equal fixes) in E. cbn [fixes] in E.
    exfalso; exact (fixes_grow _ _ E).
  - intros H. apply absent_count_zero in H. apply Nat.ltb_lt in C. lia.
  - intros _. destruct (contains old (content st)) eqn:H; [|reflexivity].
    apply contains_count_pos in H; [|exact Hne]. apply Nat.ltb_ge in C. lia.
  - reflexivity.
Qed.

Lemma step_7a_idle (st : state) :
  step_7a st = st <-> any_match port_re (content st) = false.
Proof.
  split.
  - intros E. destruct (any_match port_re (content st)) eqn:A; [|reflexivity].
    pose proof (marks_sub_all_match _ gains_port_re A) as M.
    unfold step_7a in E. cbv zeta in E.
    destruct (text_eqb (sub_all port_re (content st)) (content st)) eqn:T.
    + apply text_eqb_eq in T. rewrite T in M. lia.
    + cbn [negb] in E. apply (f_equal fixes) in E. cbn [fixes] in E.
      exfalso; exact (fixes_grow _ _ E).
  - intros A. unfold step_7a. cbv zeta.
    rewrite (sub_all_no_match _ _ A), text_eqb_refl. reflexivity.
Qed.

Lemma step_3_vars_fixes (vars : list text) (st : state) :
  exists es, fixes (fold_left (fun st var => step_3_var var st) vars st) = fixes st ++ es.
Proof.
  revert st; induction vars as [|v vars IH]; intros st; cbn [fold_left].
  - exists []. rewrite app_nil_r; reflexivity.
  - destruct (IH (step_3_var v st)) as [es E]. rewrite E.
    destruct (records_step_of (S3 v) st) as [I | [F _]].
    + cbn [step_of] in I. rewrite I. exists es; reflexivity.
    + cbn [step_of] in F. rewrite F, <- app_assoc. eexists; reflexivity.
Qed.

Lemma step_3_idle (st : state) :
  step_3 st = st <-> any_match inc_re (content st) = false.
Proof.
  split.
  - intros E. destruct (any_match inc_re (content st)) eqn:A; [|reflexivity].
    exfalso. apply find_all_match in A. fold (plusplus (content st)) in A.
    unfold step_3 in E.
    destruct (sorted (set_of (plusplus (content st)))) as [|v vars] eqn:V.
    + destruct (plusplus (content st)) as [|x l] eqn:P; [congruence|].
      assert (In x (sorted (set_of (x :: l))))
        by (apply sorted_in, set_of_in; left; reflexivity).
      rewrite V in H. contradiction.
    + assert (Hv : In v (plusplus (content st))).
      { apply set_of_in, sorted_in. rewrite V. left; reflexivity. }
      apply plusplus_in in Hv. destruct Hv as [_ [_ Hc]].
      cbn [fold_left] in E.
      destruct (step_3_vars_fixes vars (step_3_var v st)) as [es F].
      rewrite E in F.
      assert (I : step_3_var v st <> st).
      { intros I. apply replace_counted_idle in I; [congruence | apply old_inc_not_nil]. }
      destruct (records_step_of (S3 v) st) as [I' | [F' _]]; cbn [step_of] in *;
        [contradiction|].
      rewrite F', <- app_assoc in F.
      apply (f_equal (@length text)) in F. rewrite !length_app in F.
      cbn [length] in F. lia.
  - intros A. unfold step_3. apply find_all_no_match in A.
    unfold plusplus. rewrite A. reflexivity.
Qed.

(** No pattern in the text: the run does nothing. *)
Lemma patch_idle (original : text) :
  no_rule_matches original = true -> patch original = State original [].
Proof.
  unfold no_rule_matches, rules. cbn [forallb matches].
  rewrite !andb_true_iff, !negb_true_iff.
  intros [H1a [H1b [H1c [H2 [H3 [H4 [H5 [H6a [H6b [H7a [H7b _]]]]]]]]]]].
  unfold patch, steps. cbn [fold_left].
  set (st := State original []).
  assert (E1a : step_1a st = st) by (apply replace_first_idle; exact H1a).
  rewrite E1a.
  assert (E1b : step_1b st = st) by (apply replace_first_idle; exact H1b).
  rewrite E1b.
  assert (E1c : step_1c st = st) by (apply replace_first_idle; exact H1c).
  rewrite E1c.
  assert (E2 : step_2 st = st)
    by (apply replace_counted_idle; [discriminate | exact H2]).
  rewrite E2.
  assert (E3 : step_3 st = st) by (apply step_3_idle; exact H3).
  rewrite E3.
  assert (E4 : step_4 st = st) by (apply replace_every_idle; exact H4).
  rewrite E4.
  assert (E5 : step_5 st = st) by (apply replace_every_idle; exact H5).
  rewrite E5.
  assert (E6a : step_6a st = st)
    by (apply replace_counted_idle; [discriminate | exact H6a]).
  rewrite E6a.
  assert (E6b : step_6b st = st)
    by (apply replace_counted_idle; [discriminate | exact H6b]).
  rewrite E6b.
  assert (E7a : step_7a st = st) by (apply step_7a_idle; exact H7a).
  rewrite E7a.
  apply replace_every_idle; exact H7b.
Qed.

Lemma logs_step (f : state -> state) :
  logs f -> forall st, exists es, fixes (f st) = fixes st ++ es /\
                                   (es = [] -> f st = st).
Proof.
  intros L st. destruct (L st) as [es [F [N _]]]. exists es. split; [exact F|].
  intros E. apply state_eq; [apply N; exact E | rewrite F, E, app_nil_r; reflexivity].
Qed.

Lemma logs_step_3 : logs step_3.
Proof.
  intros st. unfold step_3.
  generalize (sorted (set_of (plusplus (content st)))); intros vars.
  pose proof (logs_ids (map S3 vars) st) as L. cbv beta in L.
  rewrite fold_left_map in L. exact L.
Qed.

Lemma logs_steps : Forall logs steps.
Proof.
  unfold steps. repeat (apply Forall_cons; [|]); [..|apply Forall_nil].
  - exact (records_logs (records_step_of S1a)).
  - exact (records_logs (records_step_of S1b)).
  - exact (records_logs (records_step_of S1c)).
  - exact (records_logs (records_step_of S2)).
  - exact logs_step_3.
  - exact (records_logs (records_step_of S4)).
  - exact (records_logs (records_step_of S5)).
  - exact (records_logs (records_step_of S6a)).
  - exact (records_logs (records_step_of S6b)).
  - exact (records_logs (records_step_of S7a)).
  - exact (records_logs (records_step_of S7b)).
Qed.

(** Steps that log nothing in sequence each did nothing. *)
Lemma idle_fold (fs : list (state -> state)) (st : state) :
  Forall logs fs ->
  fixes (fold_left (fun st f => f st) fs st) = fixes st ->
  Forall (fun f => f st = st) fs.
Proof.
  intros L. revert st. induction L as [|f fs Lf Lfs IH]; intros st E; [constructor|].
  cbn [fold_left] in E.
  destruct (logs_step Lf st) as [e1 [F1 I1]].
  assert (Lrest : logs (fun st => fold_left (fun st f => f st) fs st)).
  { clear -Lfs. induction Lfs as [|g gs Lg _ IHg]; cbn [fold_left].
    - apply logs_id.
    - exact (logs_compose Lg IHg). }
  destruct (Lrest (f st)) as [e2 [F2 _]]. cbv beta in F2.
  rewrite E, F1, <- app_assoc in F2.
  assert (e1 = []).
  { apply (f_equal (@length text)) in F2. rewrite !length_app in F2.
    destruct e1; [reflexivity | cbn [length] in F2; lia]. }
  specialize (I1 H). constructor; [exact I1|].
  apply IH. rewrite I1 in E. exact E.
Qed.

Lemma patch_unfold (original : text) :
  patch original = fold_left (fun st step => step st) steps (State original []).
Proof. reflexivity. Qed.

Lemma idle_fold_start (fs : list (state -> state)) (original : text) :
  Forall logs fs ->
  fixes (fold_left (fun st f => f st) fs (State original [])) = [] ->
  Forall (fun f => f (State original []) = State original []) fs.
Proof. intros L E. apply idle_fold; [exact L | exact E]. Qed.

Lemma patch_silent_steps (original : text) :
  fixes (patch original) = [] ->
  Forall (fun f => f (State original []) = State original []) steps.
Proof.
  intros E. rewrite patch_unfold in E.
  exact (idle_fold_start original logs_steps E).
Qed.

(** A run that logs nothing met no pattern. *)
Lemma patch_silent (original : text) :
  fixes (patch original) = [] -> no_rule_matches original = true.
Proof.
  intros E. pose proof (patch_silent_steps original E) as I.
  unfold steps in I.
  repeat match type of I with
         | Forall _ (_ :: _) =>
             let H := fresh "I" in
             pose proof (Forall_inv I) as H; apply Forall_inv_tail in I;
             cbv beta in H
         end.
  unfold no_rule_matches, rules. cbn [forallb matches].
  rewrite !andb_true_iff, !negb_true_iff.
  repeat split.
  - apply (replace_first_idle old_1a new_1a label_1a (State original [])); assumption.
  - apply (replace_first_idle old_1b new_1b label_1b (State original [])); assumption.
  - apply (replace_first_idle old_1c new_1c label_1c (State original [])); assumption.
  - assert (N : old_2 <> []) by discriminate.
    apply (proj1 (replace_counted_idle new_2 label_2 (State original []) N)); assumption.
  - apply (step_3_idle (State original [])); assumption.
  - apply (replace_every_idle old_guard new_guard label_4 (State original [])); assumption.
  - apply (replace_every_idle old_sort new_sort label_5 (State original [])); assumption.
  - assert (N : old_6a <> []) by discriminate.
    apply (proj1 (replace_counted_idle new_6a label_6a (State original []) N)); assumption.
  - assert (N : old_6b <> []) by discriminate.
    apply (proj1 (replace_counted_idle new_6b label_6b (State original []) N)); assumption.
  - apply (step_7a_idle (State original [])); assumption.
  - apply (replace_every_idle old_egrep new_egrep label_7b (State original [])); assumption.
Qed.

Lemma patch_changes (original : text) :
  no_rule_matches original = false ->
  fixes (patch original) <> [] /\ content (patch original) <> original.
Proof.
  intros H. destruct (patch_logs original) as [[F _] | [F M]].
  - apply patch_silent in F. congruence.
  - split; [exact F|]. intros E. rewrite E in M. lia.
Qed.

(** What the two printing loops leave on the standard output. *)
Lemma print_fixes_out (fixes : list text) (w : world) :
  print_fixes fixes w =
  World (fs w) (stdout w ++ concat (map (fun f => lit "  " ++ f ++ nl) fixes)).
Proof.
  unfold print_fixes. revert w.
  induction fixes as [|f fixes IH]; intros w; cbn [fold_left map concat].
  - rewrite app_nil_r. destruct w; reflexivity.
  - rewrite IH. unfold print. cbn [fs stdout].
    rewrite <- !app_assoc. reflexivity.
Qed.

End Runs.

Import Runs.

(** ** Python's order on strings and [sorted] *)

Module Order.

Lemma nat_of_ascii_inj (x y : ascii) : nat_of_ascii x = nat_of_ascii y -> x = y.
Proof.
  intros E. rewrite <- (ascii_nat_embedding x), <- (ascii_nat_embedding y), E.
  reflexivity.
Qed.

Lemma text_ltb_irrefl (a : text) : text_ltb a a = false.
Proof.
  induction a as [|x a IH]; simpl; [reflexivity|].
  rewrite Nat.ltb_irrefl, Nat.eqb_refl, IH. reflexivity.
Qed.

Lemma text_ltb_trans (a b c : text) :
  text_ltb a b = true -> text_ltb b c = true -> text_ltb a c = true.
Proof.
  revert b c; induction a as [|x a IH]; intros [|y b] [|z c]; simpl;
    try discriminate; try reflexivity.
  rewrite !orb_true_iff, !andb_true_iff, !Nat.ltb_lt, !Nat.eqb_eq.
  intros [H1 | [H1 H1']] [H2 | [H2 H2']].
  - left; lia.
  - left; lia.
  - left; lia.
  - right. split; [lia | eapply IH; eassumption].
Qed.

Lemma text_ltb_total (a b : text) :
  text_ltb a b = false -> text_ltb b a = false -> a = b.
Proof.
  revert b; induction a as [|x a IH]; intros [|y b]; simpl;
    try discriminate; try reflexivity.
  rewrite !orb_false_iff, !andb_false_iff, !Nat.ltb_ge, !Nat.eqb_neq.
  intros [H1 H1'] [H2 H2'].
  assert (E : nat_of_ascii x = nat_of_ascii y) by lia.
  apply nat_of_ascii_inj in E. subst y. f_equal.
  apply IH; [destruct H1' | destruct H2']; congruence.
Qed.

Lemma text_leb_total (a b : text) : text_leb a b = false -> text_leb b a = true.
Proof.
  unfold text_leb. rewrite negb_false_iff, negb_true_iff. intros H.
  destruct (text_ltb a b) eqn:E; [|reflexivity].
  pose proof (text_ltb_trans _ _ _ E H) as C. rewrite text_ltb_irrefl in C.
  discriminate.
Qed.

Lemma text_leb_trans (a b c : text) :
  text_leb a b = true -> text_leb b c = true -> text_leb a c = true.
Proof.
  unfold text_leb. rewrite !negb_true_iff. intros H1 H2.
  destruct (text_ltb c a) eqn:E; [|reflexivity].
  destruct (text_ltb a b) eqn:E'.
  - pose proof (text_ltb_trans _ _ _ E E') as C. congruence.
  - pose proof (text_ltb_total _ _ E' H1). subst b. congruence.
Qed.

Lemma text_leb_antisym (a b : text) :
  text_leb a b = true -> text_leb b a = true -> a = b.
Proof.
  unfold text_leb. rewrite !negb_true_iff. intros H1 H2.
  apply text_ltb_total; assumption.
Qed.

Lemma insert_perm (x : text) (l : list text) : Permutation (x :: l) (insert x l).
Proof.
  induction l as [|y l IH]; simpl; [reflexivity|].
  destruct (text_leb x y); [reflexivity|].
  rewrite perm_swap. apply perm_skip. exact IH.
Qed.

Lemma sorted_perm (l : list text) : Permutation l (sorted l).
Proof.
  induction l as [|x l IH]; simpl; [reflexivity|].
  rewrite <- insert_perm. apply perm_skip. exact IH.
Qed.

Lemma insert_sorted (x : text) (l : list text) :
  StronglySorted le_text l -> StronglySorted le_text (insert x l).
Proof.
  induction 1 as [|y l S IH F]; simpl.
  - constructor; constructor.
  - destruct (text_leb x y) eqn:E.
    + constructor; [constructor; assumption|].
      constructor; [exact E|].
      eapply Forall_impl; [|exact F]. intros z Hz.
      exact (text_leb_trans _ _ _ E Hz).
    + constructor; [exact IH|].
      apply Forall_forall. intros z Hz.
      apply (Permutation_in _ (Permutation_sym (insert_perm x l))) in Hz.
      destruct Hz as [<- | Hz].
      * apply text_leb_total; exact E.
      * rewrite Forall_forall in F. apply F; exact Hz.
Qed.

Lemma sorted_sorted (l : list text) : StronglySorted le_text (sorted l).
Proof.
  induction l as [|x l IH]; simpl; [constructor | apply insert_sorted; exact IH].
Qed.

(** A sorted list is determined by its elements. *)
Lemma sorted_unique (l1 l2 : list text) :
  StronglySorted le_text l1 -> StronglySorted le_text l2 ->
  Permutation l1 l2 -> l1 = l2.
Proof.
  intros S1; revert l2. induction S1 as [|x l1 S1 IH F1]; intros l2 S2 P.
  - apply Permutation_nil in P. congruence.
  - destruct S2 as [|y l2 S2 F2].
    + apply Permutation_sym, Permutation_nil in P. discriminate.
    + assert (x = y).
      { assert (Hx : In x (y :: l2))
          by (apply (Permutation_in _ P); left; reflexivity).
        assert (Hy : In y (x :: l1))
          by (apply (Permutation_in _ (Permutation_sym P)); left; reflexivity).
        rewrite Forall_forall in F1, F2.
        destruct Hx as [-> | Hx]; [reflexivity|].
        destruct Hy as [-> | Hy]; [reflexivity|].
        apply text_leb_antisym; [apply F1; exact Hy | apply F2; exact Hx]. }
      subst y. f_equal. apply IH; [exact S2|].
      eapply Permutation_cons_inv; exact P.
Qed.

Lemma sorted_canonical (l1 l2 : list text) :
  Permutation l1 l2 -> sorted l1 = sorted l2.
Proof.
  intros P. apply sorted_unique; try apply sorted_sorted.
  rewrite <- (sorted_perm l1), <- (sorted_perm l2). exact P.
Qed.

Lemma set_of_nodup (l : list text) : NoDup (set_of l).
Proof. apply NoDup_nodup. Qed.

(** Without repetitions the sorted list ascends strictly. *)
Lemma sorted_strict (l : list text) :
  NoDup l -> StronglySorted lt_text (sorted l).
Proof.
  intros N.
  assert (N' : NoDup (sorted l))
    by (eapply Permutation_NoDup; [apply sorted_perm | exact N]).
  pose proof (sorted_sorted l) as S. revert N'.
  induction S as [|x m S IH F]; intros N'; constructor.
  - apply IH. inversion N'; assumption.
  - inversion N' as [|? ? Hx _]; subst.
    rewrite Forall_forall in F |- *. intros y Hy.
    specialize (F y Hy). unfold le_text, text_leb in F. unfold lt_text.
    rewrite negb_true_iff in F.
    destruct (text_ltb x y) eqn:E; [reflexivity|].
    pose proof (text_ltb_total _ _ E F). subst y. contradiction.
Qed.

End Order.

Import Order.

(** ** Texts that do not overlap the rules *)

Module Overlap.

Lemma compat_sym (a b : text) : compat a b = compat b a.
Proof.
  revert b; induction a as [|x a IH]; intros [|y b]; simpl; try reflexivity.
  rewrite IH. f_equal. destruct (Ascii.eqb x y) eqn:E.
  - apply Ascii.eqb_eq in E. subst. symmetry; apply eqb_ascii_refl.
  - destruct (Ascii.eqb y x) eqn:E'; [|reflexivity].
    apply Ascii.eqb_eq in E'. subst. rewrite eqb_ascii_refl in E. discriminate.
Qed.

Lemma starts_with_compat (q t rest : text) :
  starts_with q (t ++ rest) = true -> compat t q = true.
Proof.
  revert q; induction t as [|x t IH]; intros q H; [reflexivity|].
  destruct q as [|y q]; [reflexivity|]. simpl in *.
  apply andb_true_iff in H; destruct H as [E H].
  rewrite (IH _ H), andb_true_r.
  apply Ascii.eqb_eq in E. subst. apply eqb_ascii_refl.
Qed.

Lemma apart_cons (c : ascii) (a b : text) :
  apart (c :: a) b = negb (compat (c :: a) b) && apart a b.
Proof. reflexivity. Qed.

Lemma apart_suffix (a1 a2 b : text) :
  apart (a1 ++ a2) b = true -> apart a2 b = true.
Proof.
  induction a1 as [|c a1 IH]; simpl app; [tauto|].
  rewrite apart_cons, andb_true_iff. intros [_ H]. apply IH; exact H.
Qed.

Lemma apart_compat (a b : text) :
  apart a b = true -> a <> [] -> compat a b = false.
Proof.
  destruct a as [|c a]; [congruence|].
  rewrite apart_cons, andb_true_iff, negb_true_iff. tauto.
Qed.

Lemma apart_tail_compat (a1 a2 b : text) :
  apart (a1 ++ a2) b = true -> a2 <> [] -> compat a2 b = false.
Proof. intros H. apply apart_compat. exact (@apart_suffix _ _ _ H). Qed.

Lemma starts_with_app_l (q a y : text) :
  starts_with q a = true -> starts_with q (a ++ y) = true.
Proof.
  intros H. apply starts_with_iff in H; destruct H as [t ->].
  rewrite <- app_assoc. apply starts_with_app.
Qed.

Lemma starts_with_app_inv (q a y : text) :
  starts_with q (a ++ y) = true ->
  starts_with q a = true \/
  exists u, u <> [] /\ q = a ++ u /\ starts_with u y = true.
Proof.
  revert q; induction a as [|x a IH]; intros q H.
  - destruct q as [|z q]; [left; reflexivity|].
    right. exists (z :: q). split; [discriminate|]. split; [reflexivity | exact H].
  - destruct q as [|z q]; [left; reflexivity|]. simpl in H |- *.
    apply andb_true_iff in H; destruct H as [E H]. rewrite E. simpl.
    destruct (IH _ H) as [L | [u [Hu [-> Hs]]]]; [left; exact L|].
    right. exists u. apply Ascii.eqb_eq in E. subst.
    split; [exact Hu|]. split; [reflexivity | exact Hs].
Qed.

(** Where an occurrence of [q] begins is not changed by a text [x] that
    [q] does not run into. *)
Lemma starts_with_sep (q x a b : text) :
  apart q x = true ->
  starts_with q (a ++ x ++ b) = true -> starts_with q a = true.
Proof.
  intros A H. destruct (starts_with_app_inv _ _ _ H) as [L | [u [Hu [E Hs]]]];
    [exact L|].
  exfalso. apply starts_with_compat in Hs. rewrite compat_sym in Hs.
  rewrite E in A. rewrite (@apart_tail_compat _ _ _ A Hu) in Hs. discriminate.
Qed.

Lemma contains_nil (s : text) : contains [] s = true.
Proof. destruct s; reflexivity. Qed.

Lemma contains_skip (q x b : text) :
  apart x q = true -> contains q (x ++ b) = contains q b.
Proof.
  induction x as [|c x IH]; [reflexivity|].
  rewrite apart_cons, andb_true_iff, negb_true_iff. intros [C A].
  simpl app. cbn [contains]. rewrite IH by exact A.
  destruct (starts_with q (c :: x ++ b)) eqn:E; [|reflexivity].
  apply (starts_with_compat q (c :: x) b) in E. congruence.
Qed.

Lemma contains_sep (q x a b : text) :
  strangers x q = true ->
  contains q (a ++ x ++ b) = contains q a || contains q b.
Proof.
  unfold strangers. rewrite andb_true_iff. intros [A1 A2].
  induction a as [|c a IH].
  - simpl app. rewrite contains_skip by exact A1.
    destruct q; [rewrite contains_nil; reflexivity | reflexivity].
  - simpl app. cbn [contains]. rewrite IH, orb_assoc. f_equal. f_equal.
    destruct (starts_with q (c :: a)) eqn:E.
    + exact (starts_with_app_l _ _ _ E).
    + destruct (starts_with q (c :: a ++ x ++ b)) eqn:E'; [|reflexivity].
      apply (starts_with_sep q x (c :: a) b A2) in E'. congruence.
Qed.

(** *** Counting *)

Lemma count_miss (q : text) (c : ascii) (s : text) :
  starts_with q (c :: s) = false -> count q (c :: s) = count q s.
Proof.
  intros H. unfold count. rewrite find_all_cons. unfold literal at 1.
  rewrite H. reflexivity.
Qed.

Lemma count_hit (q z : text) : q <> [] -> count q (q ++ z) = S (count q z).
Proof.
  intros Hne. destruct q as [|c q]; [congruence|].
  unfold count. simpl app. rewrite find_all_cons. unfold literal at 1.
  change (c :: q ++ z) with ((c :: q) ++ z). rewrite (starts_with_app (c :: q)).
  cbn [length]. rewrite Nat.sub_succ, Nat.sub_0_r.
  rewrite skipn_app, skipn_all, Nat.sub_diag. reflexivity.
Qed.

Lemma count_skip (q x b : text) :
  apart x q = true -> count q (x ++ b) = count q b.
Proof.
  induction x as [|c x IH]; [reflexivity|].
  rewrite apart_cons, andb_true_iff, negb_true_iff. intros [C A].
  simpl app. rewrite count_miss; [apply IH; exact A|].
  destruct (starts_with q (c :: x ++ b)) eqn:E; [|reflexivity].
  apply (starts_with_compat q (c :: x) b) in E. congruence.
Qed.

Lemma count_sep (q x : text) :
  q <> [] -> strangers x q = true ->
  forall a b, count q (a ++ x ++ b) = count q a + count q b.
Proof.
  intros Hne S. unfold strangers in S. apply andb_true_iff in S.
  destruct S as [A1 A2]. intros a.
  induction a as [a IH] using (induction_ltof1 _ (@length ascii)).
  unfold ltof in IH. intros b. destruct a as [|c a].
  - simpl app. rewrite count_skip by exact A1. reflexivity.
  - destruct (starts_with q (c :: a)) eqn:E.
    + apply starts_with_iff in E; destruct E as [a2 E]. rewrite E.
      rewrite <- app_assoc, !count_hit by exact Hne.
      rewrite IH; [reflexivity|].
      rewrite E, length_app. destruct q; [congruence | simpl; lia].
    + rewrite (@count_miss _ _ _ E). simpl app. rewrite count_miss.
      * apply IH. simpl; lia.
      * destruct (starts_with q (c :: a ++ x ++ b)) eqn:E'; [|reflexivity].
        apply (starts_with_sep q x (c :: a) b A2) in E'. congruence.
Qed.

(** *** The first match of a scan *)

Lemma skipn_pred_app (p rest : text) (c : ascii) (s : text) :
  p <> [] -> c :: s = p ++ rest -> skipn (length p - 1) s = rest.
Proof.
  intros Hne E. destruct p as [|x p]; [congruence|].
  simpl in E. inversion E; subst. cbn [length].
  rewrite Nat.sub_succ, Nat.sub_0_r, skipn_app, skipn_all, Nat.sub_diag.
  reflexivity.
Qed.

Lemma sub_all_first (m : matcher text) (R : text -> text -> Prop) (s : text) :
  rewrites m R -> any_match m s = true ->
  exists a p r rest,
    s = a ++ p ++ rest /\ p <> [] /\ R p r /\
    (forall a1 a2, a = a1 ++ a2 -> a2 <> [] -> m (a2 ++ p ++ rest) = None) /\
    sub_all m s = a ++ r ++ sub_all m rest.
Proof.
  intros Rw. induction s as [|c s IH]; [discriminate|].
  cbn [any_match]. intros H. rewrite sub_all_cons.
  destruct (m (c :: s)) as [[r n]|] eqn:E.
  - destruct (Rw _ _ _ E) as [p [rest [Hne [-> [Es HR]]]]].
    exists [], p, r, rest. split; [exact Es|]. split; [exact Hne|].
    split; [exact HR|]. split.
    + intros a1 a2 Ea. destruct a1; [simpl in Ea; congruence | discriminate].
    + rewrite (@skipn_pred_app _ _ _ _ Hne Es). reflexivity.
  - simpl in H. destruct (IH H) as [a [p [r [rest [Es [Hne [HR [Hno Hs]]]]]]]].
    exists (c :: a), p, r, rest. split; [rewrite Es; reflexivity|].
    split; [exact Hne|]. split; [exact HR|]. split.
    + intros a1 a2 Ea Ha2. destruct a1 as [|x a1]; simpl in Ea.
      * subst a2. simpl app. rewrite <- Es. exact E.
      * inversion Ea; subst. eapply Hno; [reflexivity | exact Ha2].
    + rewrite Hs. reflexivity.
Qed.

Lemma any_match_at (A : Type) (m : matcher A) (a t : text) :
  t <> [] -> m t <> None -> any_match m (a ++ t) = true.
Proof.
  intros Hne Hm. induction a as [|c a IH]; simpl app.
  - destruct t as [|c t]; [congruence|]. cbn [any_match].
    destruct (m (c :: t)); [reflexivity | congruence].
  - cbn [any_match]. rewrite IH. apply orb_true_r.
Qed.

(** A text that is a stranger to the patterns and to the replacements of a
    scan occurs as often after the scan as before it. *)
Lemma sub_all_strangers (m : matcher text) (R : text -> text -> Prop) (q : text) :
  rewrites m R -> q <> [] ->
  (forall p r, R p r -> strangers p q = true /\ strangers r q = true) ->
  forall s, contains q (sub_all m s) = contains q s /\
            count q (sub_all m s) = count q s.
Proof.
  intros Rw Hne HS s.
  induction s as [s IH] using (induction_ltof1 _ (@length ascii)).
  unfold ltof in IH.
  destruct (any_match m s) eqn:M.
  - destruct (@sub_all_first _ _ _ Rw M) as [a [p [r [rest [Es [Hp [HR [_ Hs]]]]]]]].
    destruct (HS _ _ HR) as [Sp Sr].
    assert (L : length rest < length s).
    { rewrite Es, !length_app. destruct p; [congruence | simpl; lia]. }
    destruct (IH _ L) as [IHc IHn].
    rewrite Hs, Es.
    rewrite !contains_sep, !count_sep by assumption.
    rewrite IHc, IHn. split; reflexivity.
  - rewrite (@sub_all_no_match _ _ M). split; reflexivity.
Qed.

(** A text the matcher matches wherever it stands, and which is a stranger
    to the replacements, is gone after the scan. *)
Lemma sub_all_removes (m : matcher text) (R : text -> text -> Prop) (q : text) :
  rewrites m R -> q <> [] ->
  (forall p r, R p r -> strangers r q = true) ->
  (forall rest, m (q ++ rest) <> None) ->
  forall s, contains q (sub_all m s) = false.
Proof.
  intros Rw Hne HS Hc s.
  induction s as [s IH] using (induction_ltof1 _ (@length ascii)).
  unfold ltof in IH.
  destruct (any_match m s) eqn:M.
  - destruct (@sub_all_first _ _ _ Rw M) as [a [p [r [rest [Es [Hp [HR [Hno Hs]]]]]]]].
    assert (L : length rest < length s).
    { rewrite Es, !length_app. destruct p; [congruence | simpl; lia]. }
    rewrite Hs, contains_sep by (apply (HS _ _ HR)).
    rewrite (IH _ L), orb_false_r.
    destruct (contains q a) eqn:C; [|reflexivity].
    apply contains_iff in C. destruct C as [a1 [a3 Ea]].
    assert (N : m ((q ++ a3) ++ p ++ rest) = None).
    { apply (Hno a1); [exact Ea|]. destruct q; [congruence | discriminate]. }
    rewrite <- app_assoc in N. exfalso. exact (Hc _ N).
  - rewrite (@sub_all_no_match _ _ M).
    destruct (contains q s) eqn:C; [|reflexivity].
    apply contains_iff in C. destruct C as [a [b Es]].
    rewrite Es, (@any_match_at _ m a (q ++ b)) in M; [discriminate| |apply Hc].
    destruct q; [congruence | discriminate].
Qed.

Lemma rewrites_literal (old new : text) :
  old <> [] -> rewrites (literal old new) (fun p r => p = old /\ r = new).
Proof.
  intros Hne s r n. unfold literal.
  destruct (starts_with old s) eqn:E; [|discriminate].
  intros H; inversion H; subst. apply starts_with_iff in E. destruct E as [rest ->].
  exists old, rest. repeat split; assumption.
Qed.

Lemma replace_strangers (old new q : text) :
  old <> [] -> q <> [] -> strangers old q = true -> strangers new q = true ->
  forall s, contains q (replace old new s) = contains q s /\
            count q (replace old new s) = count q s.
Proof.
  intros Ho Hq So Sn. apply (@sub_all_strangers _ _ _ (@rewrites_literal old new Ho) Hq).
  intros p r [-> ->]. split; assumption.
Qed.

Lemma replace_removes (old new : text) :
  old <> [] -> strangers new old = true ->
  forall s, contains old (replace old new s) = false.
Proof.
  intros Ho Sn. apply (@sub_all_removes _ _ _ (@rewrites_literal old new Ho) Ho).
  - intros p r [-> ->]. exact Sn.
  - intros rest. unfold literal. rewrite starts_with_app. discriminate.
Qed.

Lemma replace1_split (old new s : text) :
  contains old s = true ->
  exists a b, s = a ++ old ++ b /\ replace1 old new s = a ++ new ++ b.
Proof.
  induction s as [|c s IH]; cbn [contains replace1]; intros H.
  - rewrite orb_false_r in H. rewrite H.
    exists [], (skipn (length old) []). split; [|reflexivity].
    exact (starts_with_split _ _ H).
  - destruct (starts_with old (c :: s)) eqn:E.
    + exists [], (skipn (length old) (c :: s)). split; [|reflexivity].
      exact (starts_with_split _ _ E).
    + simpl in H. destruct (IH H) as [a [b [Es Er]]].
      exists (c :: a), b. rewrite Er. split; [rewrite Es at 1|]; reflexivity.
Qed.

Lemma replace1_strangers (old new q : text) :
  q <> [] -> strangers old q = true -> strangers new q = true ->
  forall s, contains q (replace1 old new s) = contains q s /\
            count q (replace1 old new s) = count q s.
Proof.
  intros Hq So Sn s. destruct (contains old s) eqn:C.
  - destruct (@replace1_split old new s C) as [a [b [Es Er]]].
    rewrite Er, Es.
    rewrite !contains_sep, !count_sep by assumption. split; reflexivity.
  - rewrite (@replace1_absent old new s C). split; reflexivity.
Qed.

(** *** Counting what a scan puts in *)

Lemma count_self (q : text) :
  q <> [] -> apart (tl q) q = true ->
  forall a b, count q (a ++ q ++ b) = count q a + S (count q b).
Proof.
  intros Hne A a.
  induction a as [a IH] using (induction_ltof1 _ (@length ascii)).
  unfold ltof in IH. intros b. destruct a as [|c a].
  - simpl app. rewrite count_hit by exact Hne. reflexivity.
  - destruct (starts_with q (c :: a)) eqn:E.
    + apply starts_with_iff in E; destruct E as [a2 E]. rewrite E.
      rewrite <- app_assoc, !count_hit by exact Hne.
      rewrite IH; [reflexivity|].
      rewrite E, length_app. destruct q; [congruence | simpl; lia].
    + rewrite (@count_miss _ _ _ E). simpl app. rewrite count_miss.
      * apply IH. simpl; lia.
      * destruct (starts_with q (c :: a ++ q ++ b)) eqn:E'; [|reflexivity].
        exfalso.
        destruct (@starts_with_app_inv q (c :: a) (q ++ b) E')
          as [L | [u [Hu [Eq Hs]]]]; [congruence|].
        apply starts_with_compat in Hs. rewrite compat_sym in Hs.
        rewrite Eq in A at 1. cbn [tl app] in A.
        rewrite (@apart_tail_compat _ _ _ A Hu) in Hs. discriminate.
Qed.

Lemma count_absent (q s : text) : contains q s = false -> count q s = 0.
Proof.
  intros H. apply count_zero_iff.
  destruct (any_match (literal q []) s) eqn:E; [|reflexivity].
  apply any_match_literal in E. congruence.
Qed.

(** A scan that turns each [p0] into [r0], and otherwise rewrites
    strangers to both, adds to the occurrences of [r0] those of [p0]. *)
Lemma sub_all_counts (m : matcher text) (R : text -> text -> Prop) (p0 r0 : text) :
  rewrites m R -> p0 <> [] -> r0 <> [] ->
  (forall rest, m (p0 ++ rest) <> None) ->
  (forall p r, R p r ->
     (p = p0 /\ r = r0) \/
     (strangers p p0 = true /\ strangers p r0 = true /\ strangers r r0 = true)) ->
  strangers p0 r0 = true ->
  apart (tl p0) p0 = true -> apart (tl r0) r0 = true ->
  forall s, count r0 (sub_all m s) = count r0 s + count p0 s.
Proof.
  intros Rw Hp Hr Hc HR S0 Ap Ar s.
  induction s as [s IH] using (induction_ltof1 _ (@length ascii)).
  unfold ltof in IH.
  destruct (any_match m s) eqn:M.
  - destruct (@sub_all_first _ _ _ Rw M) as [a [p [r [rest [Es [Hne [Rpr [Hno Hs]]]]]]]].
    assert (L : length rest < length s).
    { rewrite Es, !length_app. destruct p; [congruence | simpl; lia]. }
    assert (Z : count p0 a = 0).
    { apply count_absent. destruct (contains p0 a) eqn:C; [|reflexivity].
      exfalso. apply contains_iff in C. destruct C as [a1 [a3 Ea]].
      assert (N : m ((p0 ++ a3) ++ p ++ rest) = None).
      { apply (Hno a1); [exact Ea|]. destruct p0; [congruence | discriminate]. }
      rewrite <- app_assoc in N. exact (Hc _ N). }
    rewrite Hs, Es. destruct (HR _ _ Rpr) as [[-> ->] | [S1 [S2 S3]]].
    + rewrite !count_self by assumption.
      rewrite count_sep by assumption. rewrite (IH _ L), Z. lia.
    + rewrite !count_sep by assumption. rewrite (IH _ L). lia.
  - rewrite (@sub_all_no_match _ _ M).
    assert (Z : count p0 s = 0).
    { apply count_absent. destruct (contains p0 s) eqn:C; [|reflexivity].
      apply contains_iff in C. destruct C as [a [b Es]].
      rewrite Es, (@any_match_at _ m a (p0 ++ b)) in M; [discriminate| |apply Hc].
      destruct p0; [congruence | discriminate]. }
    rewrite Z. lia.
Qed.

Lemma replace_counts (old new : text) :
  old <> [] -> new <> [] -> strangers old new = true ->
  apart (tl old) old = true -> apart (tl new) new = true ->
  forall s, count new (replace old new s) = count new s + count old s.
Proof.
  intros Ho Hn S Ao An.
  apply (@sub_all_counts _ _ old new (@rewrites_literal old new Ho) Ho Hn);
    try assumption.
  - intros rest. unfold literal. rewrite starts_with_app. discriminate.
  - intros p r [-> ->]. left. split; reflexivity.
Qed.

End Overlap.

Import Overlap.

(** ** Overlaps decided on templates *)

Module Symbolic.

Lemma inst_chars (t : text) : inst (chars t) t.
Proof. induction t as [|c t IH]; simpl; constructor; exact IH. Qed.

Lemma inst_app (T1 T2 : template) (t1 t2 : text) :
  inst T1 t1 -> inst T2 t2 -> inst (T1 ++ T2) (t1 ++ t2).
Proof.
  induction 1 as [|c T t H IH|f T w t Hw Hf H IH]; intros H2; simpl.
  - exact H2.
  - constructor. apply IH; exact H2.
  - rewrite <- app_assoc. constructor; [exact Hw | exact Hf | apply IH; exact H2].
Qed.

Lemma inst_run_only (f : ascii -> bool) (w : text) :
  w <> [] -> forallb f w = true -> inst [Run f] w.
Proof.
  intros Hw Hf. rewrite <- (app_nil_r w). constructor; [exact Hw | exact Hf | constructor].
Qed.

Lemma inst_old_inc (w : text) :
  w <> [] -> forallb is_word w = true -> inst old_inc_t (old_inc w).
Proof.
  intros Hw Hf. unfold old_inc_t, old_inc.
  repeat apply inst_app; try apply inst_chars. apply inst_run_only; assumption.
Qed.

Lemma inst_new_inc (w : text) :
  w <> [] -> forallb is_word w = true -> inst new_inc_t (new_inc w).
Proof.
  intros Hw Hf. unfold new_inc_t, new_inc.
  repeat apply inst_app; try apply inst_chars; apply inst_run_only; assumption.
Qed.

Lemma inst_old_port (d : text) :
  d <> [] -> forallb is_digit d = true -> inst old_port_t (old_port d).
Proof.
  intros Hw Hf. unfold old_port_t, old_port.
  repeat apply inst_app; try apply inst_chars. apply inst_run_only; assumption.
Qed.

Lemma inst_fix_port (d : text) :
  d <> [] -> forallb is_digit d = true -> inst fix_port_t (fix_port_grep d).
Proof.
  intros Hw Hf. unfold fix_port_t, fix_port_grep.
  repeat apply inst_app; try apply inst_chars. apply inst_run_only; assumption.
Qed.

Lemma eqb_ascii_true (a b : ascii) : Ascii.eqb a b = true -> a = b.
Proof. apply Ascii.eqb_eq. Qed.

(** Two runs laid at the same place. *)
Lemma scompat_runs (n : nat) (f g : ascii -> bool) (T1 T2 : template)
    (t1 t2 : text) :
  (forall U1 U2 u1 u2, inst U1 u1 -> inst U2 u2 -> compat u1 u2 = true ->
                       scompat n U1 U2 = true) ->
  inst T1 t1 -> inst T2 t2 ->
  forall w1 w2,
    w1 <> [] -> w2 <> [] -> forallb f w1 = true -> forallb g w2 = true ->
    compat (w1 ++ t1) (w2 ++ t2) = true ->
    (if scompat n T1 T2 then true
     else if scompat n (Run f :: T1) T2 then true
     else scompat n T1 (Run g :: T2)) = true.
Proof.
  intros IH I1 I2. induction w1 as [|x w1 IHw]; intros w2 H1 H2 F1 F2 C;
    [congruence|].
  destruct w2 as [|y w2]; [congruence|].
  cbn [app compat] in C. apply andb_true_iff in C; destruct C as [_ C].
  cbn [forallb] in F1, F2.
  apply andb_true_iff in F1; destruct F1 as [_ F1].
  apply andb_true_iff in F2; destruct F2 as [_ F2].
  destruct w1 as [|x' w1], w2 as [|y' w2].
  - rewrite (IH _ _ _ _ I1 I2 C). reflexivity.
  - assert (I2' : inst (Run g :: T2) ((y' :: w2) ++ t2))
      by (constructor; [discriminate | exact F2 | exact I2]).
    rewrite (IH _ _ _ _ I1 I2' C).
    destruct (scompat n T1 T2), (scompat n (Run f :: T1) T2); reflexivity.
  - assert (I1' : inst (Run f :: T1) ((x' :: w1) ++ t1))
      by (constructor; [discriminate | exact F1 | exact I1]).
    rewrite (IH _ _ _ _ I1' I2 C).
    destruct (scompat n T1 T2); reflexivity.
  - apply (IHw (y' :: w2)); [discriminate | discriminate | exact F1 | exact F2 | exact C].
Qed.

(** A run laid over a character and what follows it. *)
Lemma scompat_run_ch (n : nat) (f : ascii -> bool) (T1 T2 : template)
    (t1 t2 : text) (b : ascii) :
  (forall U1 U2 u1 u2, inst U1 u1 -> inst U2 u2 -> compat u1 u2 = true ->
                       scompat n U1 U2 = true) ->
  inst T1 t1 -> inst T2 t2 ->
  forall w, w <> [] -> forallb f w = true ->
    compat (w ++ t1) (b :: t2) = true ->
    (if f b
     then if scompat n T1 T2 then true else scompat n (Run f :: T1) T2
     else false) = true.
Proof.
  intros IH I1 I2 w Hw F C. destruct w as [|x w]; [congruence|].
  cbn [app compat] in C. apply andb_true_iff in C; destruct C as [E C].
  apply eqb_ascii_true in E. subst b.
  cbn [forallb] in F. apply andb_true_iff in F; destruct F as [Fx F].
  rewrite Fx. destruct w as [|x' w].
  - rewrite (IH _ _ _ _ I1 I2 C). reflexivity.
  - assert (I1' : inst (Run f :: T1) ((x' :: w) ++ t1))
      by (constructor; [discriminate | exact F | exact I1]).
    rewrite (IH _ _ _ _ I1' I2 C). destruct (scompat n T1 T2); reflexivity.
Qed.

Lemma scompat_sound (fuel : nat) :
  forall T1 T2 t1 t2,
    inst T1 t1 -> inst T2 t2 -> compat t1 t2 = true ->
    scompat fuel T1 T2 = true.
Proof.
  induction fuel as [|n IH]; intros T1 T2 t1 t2 I1 I2 C; [reflexivity|].
  destruct I1 as [|a T1 t1 I1|f T1 w1 t1 Hw1 F1 I1]; [reflexivity|..];
    destruct I2 as [|b T2 t2 I2|g T2 w2 t2 Hw2 F2 I2]; try reflexivity.
  - cbn [compat] in C. cbn [scompat]. apply andb_true_iff in C.
    destruct C as [E C]. rewrite E. exact (IH _ _ _ _ I1 I2 C).
  - cbn [scompat]. rewrite compat_sym in C.
    destruct w2 as [|y w2]; [congruence|].
    cbn [app compat] in C. apply andb_true_iff in C; destruct C as [E C].
    apply eqb_ascii_true in E. subst a.
    cbn [forallb] in F2. apply andb_true_iff in F2; destruct F2 as [Fy F2].
    rewrite Fy. rewrite compat_sym in C. destruct w2 as [|y' w2].
    + rewrite (IH _ _ _ _ I1 I2 C). reflexivity.
    + assert (I2' : inst (Run g :: T2) ((y' :: w2) ++ t2))
        by (constructor; [discriminate | exact F2 | exact I2]).
      rewrite (IH _ _ _ _ I1 I2' C). destruct (scompat n T1 T2); reflexivity.
  - cbn [scompat]. exact (@scompat_run_ch n f T1 T2 t1 t2 b IH I1 I2 w1 Hw1 F1 C).
  - cbn [scompat].
    exact (@scompat_runs n f g T1 T2 t1 t2 IH I1 I2 w1 w2 Hw1 Hw2 F1 F2 C).
Qed.

(** Each non-empty suffix of an instance is an instance of a suffix of the
    template. *)
Lemma inst_suffix (T : template) (a : text) :
  inst T a ->
  forall pre t, a = pre ++ t -> t <> [] ->
  exists T', In T' (tails T) /\ inst T' t.
Proof.
  induction 1 as [|c T a I IH|f T w a Hw Hf I IH]; intros pre t E Ht.
  - destruct pre; simpl in E; [congruence | discriminate].
  - destruct pre as [|x pre]; simpl in E.
    + subst t. exists (Ch c :: T). split; [left; reflexivity | constructor; exact I].
    + inversion E; subst. destruct (IH _ _ eq_refl Ht) as [T' [HT' IT']].
      exists T'. split; [right; exact HT' | exact IT'].
  - apply app_eq_app in E. destruct E as [l [[E1 E2] | [E1 E2]]].
    + subst. destruct l as [|y l].
      * simpl in Ht |- *. destruct (IH [] a eq_refl Ht) as [T' [HT' IT']].
        exists T'. split; [right; exact HT' | exact IT'].
      * exists (Run f :: T). split; [left; reflexivity|].
        constructor; [discriminate | | exact I].
        rewrite forallb_app in Hf. apply andb_true_iff in Hf. tauto.
    + subst. destruct (IH _ _ eq_refl Ht) as [T' [HT' IT']].
      exists T'. split; [right; exact HT' | exact IT'].
Qed.

Lemma apart_intro (a b : text) :
  (forall pre t, a = pre ++ t -> t <> [] -> compat t b = false) ->
  apart a b = true.
Proof.
  induction a as [|c a IH]; intros H; [reflexivity|].
  rewrite apart_cons, andb_true_iff, negb_true_iff. split.
  - apply (H []); [reflexivity | discriminate].
  - apply IH. intros pre t E Ht. apply (H (c :: pre)); [rewrite E; reflexivity | exact Ht].
Qed.

Lemma sapart_sound (T1 T2 : template) (a b : text) :
  inst T1 a -> inst T2 b -> sapart T1 T2 = true -> apart a b = true.
Proof.
  intros I1 I2 S. apply apart_intro. intros pre t E Ht.
  destruct (@inst_suffix _ _ I1 _ _ E Ht) as [T' [HT' IT']].
  unfold sapart in S. rewrite forallb_forall in S. specialize (S _ HT').
  apply negb_true_iff in S.
  destruct (compat t b) eqn:C; [|reflexivity].
  rewrite (@scompat_sound _ _ _ _ _ IT' I2 C) in S. discriminate.
Qed.

Lemma sstrangers_sound (T1 T2 : template) (a b : text) :
  inst T1 a -> inst T2 b -> sstrangers T1 T2 = true -> strangers a b = true.
Proof.
  intros I1 I2 S. unfold sstrangers in S. apply andb_true_iff in S.
  destruct S as [S1 S2]. unfold strangers.
  rewrite (@sapart_sound _ _ _ _ I1 I2 S1), (@sapart_sound _ _ _ _ I2 I1 S2). reflexivity.
Qed.

End Symbolic.

Import Symbolic.

(** ** Names against names, ports against ports *)

Module Families.

(** Two texts that begin with a run of a class, each followed by a
    character outside the class, agree only when the runs are equal. *)
Lemma compat_align (f : ascii -> bool) (u v : text) (x y : ascii) (a b : text) :
  forallb f u = true -> forallb f v = true -> f x = false -> f y = false ->
  compat (u ++ x :: a) (v ++ y :: b) = true ->
  u = v /\ compat (x :: a) (y :: b) = true.
Proof.
  revert v; induction u as [|c u IH]; intros [|z v] Fu Fv Fx Fy C.
  - split; [reflexivity | exact C].
  - exfalso. cbn [app compat] in C. apply andb_true_iff in C. destruct C as [E _].
    apply Ascii.eqb_eq in E. subst z. cbn [forallb] in Fv.
    apply andb_true_iff in Fv. destruct Fv as [Fz _]. congruence.
  - exfalso. cbn [app compat] in C. apply andb_true_iff in C. destruct C as [E _].
    apply Ascii.eqb_eq in E. subst y. cbn [forallb] in Fu.
    apply andb_true_iff in Fu. destruct Fu as [Fc _]. congruence.
  - cbn [app compat] in C. apply andb_true_iff in C. destruct C as [E C].
    apply Ascii.eqb_eq in E. subst z. cbn [forallb] in Fu, Fv.
    apply andb_true_iff in Fu. destruct Fu as [_ Fu].
    apply andb_true_iff in Fv. destruct Fv as [_ Fv].
    destruct (IH v Fu Fv Fx Fy C) as [-> C']. split; [reflexivity | exact C'].
Qed.

Lemma apart_app_intro (a b q : text) :
  (forall pre t, a = pre ++ t -> t <> [] -> compat (t ++ b) q = false) ->
  apart b q = true -> apart (a ++ b) q = true.
Proof.
  intros H Hb. induction a as [|c a IH]; [exact Hb|].
  simpl app. rewrite apart_cons, andb_true_iff, negb_true_iff. split.
  - apply (H [] (c :: a)); [reflexivity | discriminate].
  - apply IH. intros pre t E Ht. apply (H (c :: pre)); [rewrite E; reflexivity | exact Ht].
Qed.

Lemma old_inc_apart (u v : text) :
  run_of is_word u -> run_of is_word v -> u <> v ->
  apart (old_inc u) (old_inc v) = true.
Proof.
  intros [Hu Fu] [Hv Fv] Ne. unfold old_inc at 1.
  change (lit "((" ++ u ++ lit "++))") with ("("%char :: "("%char :: u ++ lit "++))").
  rewrite apart_cons, andb_true_iff, negb_true_iff. split.
  - unfold old_inc.
    change (lit "((" ++ v ++ lit "++))") with ("("%char :: "("%char :: v ++ lit "++))").
    cbn [compat]. change (Ascii.eqb "(" "(") with true. cbn [andb].
    destruct (compat (u ++ lit "++))") (v ++ lit "++))")) eqn:C; [|reflexivity].
    change (lit "++))") with ("+"%char :: lit "+))") in C.
    destruct (compat_align is_word u v "+" "+" _ _ Fu Fv eq_refl eq_refl C) as [E _].
    congruence.
  - apply (@sapart_sound (tl old_inc_t) old_inc_t).
    + cbn [old_inc_t tl chars map lit list_ascii_of_string app]. constructor.
      apply (@inst_app [Run is_word] (chars (lit "++))"))).
      * apply inst_run_only; assumption.
      * apply inst_chars.
    + apply inst_old_inc; assumption.
    + vm_compute. reflexivity.
Qed.

Lemma old_inc_strangers (u v : text) :
  run_of is_word u -> run_of is_word v -> u <> v ->
  strangers (old_inc u) (old_inc v) = true.
Proof.
  intros Hu Hv Ne. unfold strangers.
  rewrite (old_inc_apart Hu Hv Ne), (old_inc_apart Hv Hu (not_eq_sym Ne)).
  reflexivity.
Qed.

Lemma new_inc_apart (u v : text) :
  run_of is_word u -> run_of is_word v -> u <> v ->
  apart (new_inc u) (new_inc v) = true.
Proof.
  intros [Hu Fu] [Hv Fv] Ne. unfold new_inc at 1. apply apart_app_intro.
  - intros pre t E Ht.
    destruct (compat (t ++ lit "=$((" ++ u ++ lit " + 1))") (new_inc v)) eqn:C;
      [|reflexivity].
    exfalso. unfold new_inc in C.
    assert (Ft : forallb is_word t = true).
    { rewrite E, forallb_app in Fu. apply andb_true_iff in Fu. tauto. }
    change (lit "=$((" ++ u ++ lit " + 1))")
      with ("="%char :: lit "$((" ++ u ++ lit " + 1))") in C.
    change (lit "=$((" ++ v ++ lit " + 1))")
      with ("="%char :: lit "$((" ++ v ++ lit " + 1))") in C.
    destruct (compat_align is_word t v "=" "=" _ _ Ft Fv eq_refl eq_refl C) as [_ C'].
    change ("="%char :: lit "$((" ++ u ++ lit " + 1))")
      with ("="%char :: "$"%char :: "("%char :: "("%char :: u ++ lit " + 1))") in C'.
    change ("="%char :: lit "$((" ++ v ++ lit " + 1))")
      with ("="%char :: "$"%char :: "("%char :: "("%char :: v ++ lit " + 1))") in C'.
    cbn [compat] in C'.
    change (Ascii.eqb "=" "=") with true in C'.
    change (Ascii.eqb "$" "$") with true in C'.
    change (Ascii.eqb "(" "(") with true in C'.
    cbn [andb] in C'.
    change (lit " + 1))") with (" "%char :: lit "+ 1))") in C'.
    destruct (compat_align is_word u v " " " " _ _ Fu Fv eq_refl eq_refl C') as [E' _].
    congruence.
  - apply (@sapart_sound (tl new_inc_t) new_inc_t).
    + cbn [new_inc_t tl app].
      apply (@inst_app (chars (lit "=$((")) ([Run is_word] ++ chars (lit " + 1))"))).
      * apply inst_chars.
      * apply (@inst_app [Run is_word] (chars (lit " + 1))"))).
        -- apply inst_run_only; assumption.
        -- apply inst_chars.
    + apply inst_new_inc; assumption.
    + vm_compute. reflexivity.
Qed.

Lemma new_inc_strangers (u v : text) :
  run_of is_word u -> run_of is_word v -> u <> v ->
  strangers (new_inc u) (new_inc v) = true.
Proof.
  intros Hu Hv Ne. unfold strangers.
  rewrite (new_inc_apart Hu Hv Ne), (new_inc_apart Hv Hu (not_eq_sym Ne)).
  reflexivity.
Qed.

Lemma old_port_apart (d e : text) :
  run_of is_digit d -> run_of is_digit e -> d <> e ->
  apart (old_port d) (old_port e) = true.
Proof.
  intros [Hd Fd] [He Fe] Ne. unfold old_port at 1.
  change (lit "grep ~:" ++ d ++ lit "~")
    with ("g"%char :: lit "rep ~:" ++ d ++ lit "~").
  rewrite apart_cons, andb_true_iff, negb_true_iff. split.
  - unfold old_port.
    change (lit "grep ~:" ++ e ++ lit "~")
      with ("g"%char :: "r"%char :: "e"%char :: "p"%char :: " "%char :: dquote
            :: ":"%char :: e ++ lit "~").
    change ("g"%char :: lit "rep ~:" ++ d ++ lit "~")
      with ("g"%char :: "r"%char :: "e"%char :: "p"%char :: " "%char :: dquote
            :: ":"%char :: d ++ lit "~").
    cbn [compat].
    change (Ascii.eqb "g" "g") with true. change (Ascii.eqb "r" "r") with true.
    change (Ascii.eqb "e" "e") with true. change (Ascii.eqb "p" "p") with true.
    change (Ascii.eqb " " " ") with true. change (Ascii.eqb dquote dquote) with true.
    change (Ascii.eqb ":" ":") with true. cbn [andb].
    destruct (compat (d ++ lit "~") (e ++ lit "~")) eqn:C; [|reflexivity].
    change (lit "~") with [dquote] in C.
    destruct (compat_align is_digit d e dquote dquote _ _ Fd Fe eq_refl eq_refl C)
      as [E _].
    congruence.
  - apply (@sapart_sound (tl old_port_t) old_port_t).
    + cbn [old_port_t tl app].
      change (tl (chars (lit "grep ~:") ++ [Run is_digit] ++ chars (lit "~")))
        with (chars (lit "rep ~:") ++ [Run is_digit] ++ chars (lit "~")).
      apply (@inst_app (chars (lit "rep ~:")) ([Run is_digit] ++ chars (lit "~"))).
      * apply inst_chars.
      * apply (@inst_app [Run is_digit] (chars (lit "~"))).
        -- apply inst_run_only; assumption.
        -- apply inst_chars.
    + apply inst_old_port; assumption.
    + vm_compute. reflexivity.
Qed.

Lemma old_port_strangers (d e : text) :
  run_of is_digit d -> run_of is_digit e -> d <> e ->
  strangers (old_port d) (old_port e) = true.
Proof.
  intros Hd He Ne. unfold strangers.
  rewrite (old_port_apart Hd He Ne), (old_port_apart He Hd (not_eq_sym Ne)).
  reflexivity.
Qed.

Lemma fix_port_apart (d e : text) :
  run_of is_digit d -> run_of is_digit e -> d <> e ->
  apart (fix_port_grep d) (fix_port_grep e) = true.
Proof.
  intros [Hd Fd] [He Fe] Ne. unfold fix_port_grep at 1.
  change (lit "grep ~[.]" ++ d ++ lit "[[:space:]]~")
    with ("g"%char :: lit "rep ~[.]" ++ d ++ lit "[[:space:]]~").
  rewrite apart_cons, andb_true_iff, negb_true_iff. split.
  - unfold fix_port_grep.
    change (lit "grep ~[.]" ++ e ++ lit "[[:space:]]~")
      with ("g"%char :: "r"%char :: "e"%char :: "p"%char :: " "%char :: dquote
            :: "["%char :: "."%char :: "]"%char :: e ++ lit "[[:space:]]~").
    change ("g"%char :: lit "rep ~[.]" ++ d ++ lit "[[:space:]]~")
      with ("g"%char :: "r"%char :: "e"%char :: "p"%char :: " "%char :: dquote
            :: "["%char :: "."%char :: "]"%char :: d ++ lit "[[:space:]]~").
    cbn [compat].
    change (Ascii.eqb "g" "g") with true. change (Ascii.eqb "r" "r") with true.
    change (Ascii.eqb "e" "e") with true. change (Ascii.eqb "p" "p") with true.
    change (Ascii.eqb " " " ") with true. change (Ascii.eqb dquote dquote) with true.
    change (Ascii.eqb "[" "[") with true. change (Ascii.eqb "." ".") with true.
    change (Ascii.eqb "]" "]") with true. cbn [andb].
    destruct (compat (d ++ lit "[[:space:]]~") (e ++ lit "[[:space:]]~")) eqn:C;
      [|reflexivity].
    change (lit "[[:space:]]~") with ("["%char :: lit "[:space:]]~") in C.
    destruct (compat_align is_digit d e "[" "[" _ _ Fd Fe eq_refl eq_refl C)
      as [E _].
    congruence.
  - apply (@sapart_sound (tl fix_port_t) fix_port_t).
    + change (tl fix_port_t)
        with (chars (lit "rep ~[.]") ++ [Run is_digit] ++ chars (lit "[[:space:]]~")).
      apply (@inst_app (chars (lit "rep ~[.]"))
               ([Run is_digit] ++ chars (lit "[[:space:]]~"))).
      * apply inst_chars.
      * apply (@inst_app [Run is_digit] (chars (lit "[[:space:]]~"))).
        -- apply inst_run_only; assumption.
        -- apply inst_chars.
    + apply inst_fix_port; assumption.
    + vm_compute. reflexivity.
Qed.

Lemma fix_port_strangers (d e : text) :
  run_of is_digit d -> run_of is_digit e -> d <> e ->
  strangers (fix_port_grep d) (fix_port_grep e) = true.
Proof.
  intros Hd He Ne. unfold strangers.
  rewrite (fix_port_apart Hd He Ne), (fix_port_apart He Hd (not_eq_sym Ne)).
  reflexivity.
Qed.

(** No pattern and no replacement of rules 3 and 7a overlaps itself. *)

Lemma old_inc_self (w : text) :
  run_of is_word w -> apart (tl (old_inc w)) (old_inc w) = true.
Proof.
  intros [Hw Fw]. apply (@sapart_sound (tl old_inc_t) old_inc_t).
  - change (tl (old_inc w)) with ("("%char :: w ++ lit "++))").
    change (tl old_inc_t) with (Ch "(" :: [Run is_word] ++ chars (lit "++))")).
    constructor. apply (@inst_app [Run is_word] (chars (lit "++))"))).
    + apply inst_run_only; assumption.
    + apply inst_chars.
  - apply inst_old_inc; assumption.
  - vm_compute. reflexivity.
Qed.

Lemma new_inc_self (w : text) :
  run_of is_word w -> apart (tl (new_inc w)) (new_inc w) = true.
Proof.
  intros [Hw Fw]. destruct w as [|c w]; [congruence|].
  unfold new_inc at 1. cbn [app tl]. apply apart_app_intro.
  - intros pre t E Ht.
    match goal with |- ?g = false => destruct g eqn:C end; [|reflexivity].
    exfalso. unfold new_inc in C.
    assert (Ft : forallb is_word t = true).
    { cbn [forallb] in Fw. apply andb_true_iff in Fw. destruct Fw as [_ Fw].
      rewrite E, forallb_app in Fw. apply andb_true_iff in Fw. tauto. }
    change (t ++ "="%char :: lit "$((" ++ (c :: w) ++ lit " + 1))")
      with (t ++ "="%char :: lit "$((" ++ (c :: w) ++ lit " + 1))") in C.
    change ((c :: w) ++ lit "=$((" ++ (c :: w) ++ lit " + 1))")
      with ((c :: w) ++ "="%char :: lit "$((" ++ (c :: w) ++ lit " + 1))") in C.
    destruct (compat_align is_word t (c :: w) "=" "=" _ _ Ft Fw eq_refl eq_refl C)
      as [Et _].
    apply (f_equal (@length ascii)) in Et. rewrite E in Et.
    cbn [length] in Et. rewrite length_app in Et. lia.
  - apply (@sapart_sound (tl new_inc_t) new_inc_t).
    + cbn [new_inc_t tl app].
      apply (@inst_app (chars (lit "=$((")) ([Run is_word] ++ chars (lit " + 1))"))).
      * apply inst_chars.
      * apply (@inst_app [Run is_word] (chars (lit " + 1))")) (c :: w)
                 (lit " + 1))")).
        -- apply inst_run_only; assumption.
        -- apply inst_chars.
    + apply inst_new_inc; assumption.
    + vm_compute. reflexivity.
Qed.

Lemma old_port_self (d : text) :
  run_of is_digit d -> apart (tl (old_port d)) (old_port d) = true.
Proof.
  intros [Hd Fd]. apply (@sapart_sound (tl old_port_t) old_port_t).
  - change (tl (old_port d)) with (lit "rep ~:" ++ d ++ lit "~").
    change (tl old_port_t)
      with (chars (lit "rep ~:") ++ [Run is_digit] ++ chars (lit "~")).
    apply (@inst_app (chars (lit "rep ~:")) ([Run is_digit] ++ chars (lit "~"))).
    + apply inst_chars.
    + apply (@inst_app [Run is_digit] (chars (lit "~"))).
      * apply inst_run_only; assumption.
      * apply inst_chars.
  - apply inst_old_port; assumption.
  - vm_compute. reflexivity.
Qed.

Lemma fix_port_self (d : text) :
  run_of is_digit d -> apart (tl (fix_port_grep d)) (fix_port_grep d) = true.
Proof.
  intros [Hd Fd]. apply (@sapart_sound (tl fix_port_t) fix_port_t).
  - change (tl (fix_port_grep d)) with (lit "rep ~[.]" ++ d ++ lit "[[:space:]]~").
    change (tl fix_port_t)
      with (chars (lit "rep ~[.]") ++ [Run is_digit] ++ chars (lit "[[:space:]]~")).
    apply (@inst_app (chars (lit "rep ~[.]"))
             ([Run is_digit] ++ chars (lit "[[:space:]]~"))).
    + apply inst_chars.
    + apply (@inst_app [Run is_digit] (chars (lit "[[:space:]]~"))).
      * apply inst_run_only; assumption.
      * apply inst_chars.
  - apply inst_fix_port; assumption.
  - vm_compute. reflexivity.
Qed.

End Families.

Import Families.

(** ** What the rules leave alone, what they remove *)

Module Preserve.

Lemma old_port_not_nil (d : text) : old_port d <> [].
Proof. discriminate. Qed.

Lemma rewrites_port : rewrites port_re port_rewrite.
Proof.
  intros s r n H. apply port_re_inv in H.
  destruct H as [port [rest [Hne [Hd [Es [Er En]]]]]].
  exists (old_port port), rest.
  split; [apply old_port_not_nil|]. split; [exact En|]. split; [exact Es|].
  exists port. split; [split; assumption|]. split; [reflexivity | exact Er].
Qed.

Lemma increment_all_strangers (Q : template) (q : text) (vars : list text) :
  inst Q q -> q <> [] ->
  sstrangers old_inc_t Q = true -> sstrangers new_inc_t Q = true ->
  Forall (run_of is_word) vars ->
  forall c, contains q (increment_all vars c) = contains q c /\
            count q (increment_all vars c) = count q c.
Proof.
  intros IQ Hq So Sn W. induction W as [|v vars [Hv Fv] _ IH]; intros c.
  - split; reflexivity.
  - unfold increment_all. cbn [fold_left].
    fold (increment_all vars (replace (old_inc v) (new_inc v) c)).
    destruct (IH (replace (old_inc v) (new_inc v) c)) as [-> ->].
    apply replace_strangers; [apply old_inc_not_nil | exact Hq | |].
    + exact (@sstrangers_sound _ _ _ _ (inst_old_inc Hv Fv) IQ So).
    + exact (@sstrangers_sound _ _ _ _ (inst_new_inc Hv Fv) IQ Sn).
Qed.

Lemma plusplus_words (c : text) :
  Forall (run_of is_word) (sorted (set_of (plusplus c))).
Proof.
  apply Forall_forall. intros v Hv. apply -> sorted_in in Hv. apply -> set_of_in in Hv.
  apply plusplus_in in Hv. destruct Hv as [Hne [Hw _]]. split; assumption.
Qed.

Lemma nonempty_true (t : text) : nonempty t = true -> t <> [].
Proof. destruct t; [discriminate | discriminate]. Qed.

(** A rule leaves the strangers to it where they are. *)
Lemma apply_strangers (Q : template) (q : text) (r : rule) :
  inst Q q -> q <> [] -> rule_strangers Q r = true ->
  forall c, contains q (apply r c) = contains q c /\
            count q (apply r c) = count q c.
Proof.
  intros IQ Hq S c. destruct r as [old new|old new| |]; cbn [rule_strangers apply] in *.
  - apply andb_true_iff in S. destruct S as [So Sn].
    apply replace1_strangers; [exact Hq | |].
    + exact (@sstrangers_sound _ _ _ _ (inst_chars old) IQ So).
    + exact (@sstrangers_sound _ _ _ _ (inst_chars new) IQ Sn).
  - apply andb_true_iff in S. destruct S as [S Sn].
    apply andb_true_iff in S. destruct S as [Ho So].
    apply replace_strangers; [exact (@nonempty_true _ Ho) | exact Hq | |].
    + exact (@sstrangers_sound _ _ _ _ (inst_chars old) IQ So).
    + exact (@sstrangers_sound _ _ _ _ (inst_chars new) IQ Sn).
  - apply andb_true_iff in S. destruct S as [So Sn].
    apply (@increment_all_strangers Q q _ IQ Hq So Sn). apply plusplus_words.
  - apply andb_true_iff in S. destruct S as [So Sn].
    apply (@sub_all_strangers _ _ _ rewrites_port Hq).
    intros p r' [port [[Hp Fp] [-> ->]]]. split.
    + exact (@sstrangers_sound _ _ _ _ (inst_old_port Hp Fp) IQ So).
    + exact (@sstrangers_sound _ _ _ _ (inst_fix_port Hp Fp) IQ Sn).
Qed.

Lemma fold_strangers (Q : template) (q : text) (rs : list rule) :
  inst Q q -> q <> [] -> forallb (rule_strangers Q) rs = true ->
  forall c, contains q (fold_left (fun c r => apply r c) rs c) = contains q c /\
            count q (fold_left (fun c r => apply r c) rs c) = count q c.
Proof.
  intros IQ Hq. induction rs as [|r rs IH]; intros S c; cbn [fold_left].
  - split; reflexivity.
  - cbn [forallb] in S. apply andb_true_iff in S. destruct S as [Sr Srs].
    destruct (IH Srs (apply r c)) as [-> ->].
    exact (@apply_strangers Q q r IQ Hq Sr c).
Qed.

Lemma contains_app_r (q a b : text) :
  contains q b = true -> contains q (a ++ b) = true.
Proof.
  intros H. apply contains_iff in H. destruct H as [x [y ->]].
  apply contains_iff. exists (a ++ x), y. rewrite <- app_assoc. reflexivity.
Qed.

Lemma contains_mid (q a b : text) : contains q (a ++ q ++ b) = true.
Proof. apply contains_iff. exists a, b. reflexivity. Qed.

(** *** Rule 3 *)

Lemma new_inc_not_nil (w : text) : run_of is_word w -> new_inc w <> [].
Proof.
  intros [Hw _]. unfold new_inc. destruct w; [congruence | discriminate].
Qed.

Lemma strangers_new_old_inc (u w : text) :
  run_of is_word u -> run_of is_word w ->
  strangers (new_inc u) (old_inc w) = true.
Proof.
  intros [Hu Fu] [Hw Fw].
  apply (@sstrangers_sound new_inc_t old_inc_t);
    [apply inst_new_inc | apply inst_old_inc | vm_compute; reflexivity]; assumption.
Qed.

Lemma strangers_old_new_inc (u w : text) :
  run_of is_word u -> run_of is_word w ->
  strangers (old_inc u) (new_inc w) = true.
Proof.
  intros [Hu Fu] [Hw Fw].
  apply (@sstrangers_sound old_inc_t new_inc_t);
    [apply inst_old_inc | apply inst_new_inc | vm_compute; reflexivity]; assumption.
Qed.

(** Replacing the idiom of one name leaves that of another alone. *)
Lemma replace_inc_other (u w c : text) :
  run_of is_word u -> run_of is_word w -> u <> w ->
  contains (old_inc w) (replace (old_inc u) (new_inc u) c) = contains (old_inc w) c /\
  count (old_inc w) (replace (old_inc u) (new_inc u) c) = count (old_inc w) c.
Proof.
  intros Hu Hw Ne. apply replace_strangers; try apply old_inc_not_nil.
  - apply old_inc_strangers; assumption.
  - apply strangers_new_old_inc; assumption.
Qed.

Lemma replace_inc_self (w c : text) :
  run_of is_word w ->
  contains (old_inc w) (replace (old_inc w) (new_inc w) c) = false.
Proof.
  intros Hw. apply replace_removes; [apply old_inc_not_nil|].
  apply strangers_new_old_inc; assumption.
Qed.

Lemma increment_all_cons (v : text) (vars : list text) (c : text) :
  increment_all (v :: vars) c =
  increment_all vars (replace (old_inc v) (new_inc v) c).
Proof. reflexivity. Qed.

Lemma increment_all_other (w : text) (vars : list text) :
  run_of is_word w -> Forall (run_of is_word) vars -> ~ In w vars ->
  forall c,
    contains (old_inc w) (increment_all vars c) = contains (old_inc w) c /\
    count (old_inc w) (increment_all vars c) = count (old_inc w) c.
Proof.
  intros Hw W. induction W as [|v vars Hv _ IH]; intros N c.
  - split; reflexivity.
  - rewrite increment_all_cons.
    assert (Ne : v <> w) by (intros ->; apply N; left; reflexivity).
    destruct (IH (fun H => N (or_intror H)) (replace (old_inc v) (new_inc v) c))
      as [-> ->].
    apply replace_inc_other; assumption.
Qed.

Lemma increment_all_gone (w : text) (vars : list text) :
  Forall (run_of is_word) vars -> NoDup vars -> In w vars ->
  forall c, contains (old_inc w) (increment_all vars c) = false.
Proof.
  intros W. induction W as [|v vars Hv W IH]; intros D I c; [contradiction|].
  rewrite increment_all_cons. inversion D as [|? ? Nv D']; subst.
  destruct I as [-> | I].
  - destruct (@increment_all_other w vars Hv W Nv
                (replace (old_inc w) (new_inc w) c)) as [-> _].
    apply replace_inc_self; exact Hv.
  - apply IH; assumption.
Qed.

(** [re.findall] misses no occurrence of the idiom. *)
Lemma plusplus_complete (w : text) :
  run_of is_word w ->
  forall c, contains (old_inc w) c = true -> In w (plusplus c).
Proof.
  intros Hw c.
  induction c as [c IH] using (induction_ltof1 _ (@length ascii)).
  unfold ltof in IH. intros C. destruct c as [|x c]; [discriminate|].
  unfold plusplus. rewrite find_all_cons.
  destruct (inc_re (x :: c)) as [[v n]|] eqn:E.
  - destruct (inc_re_inv _ E) as [Hv [Fv [En [rest Es]]]].
    destruct (list_eq_dec ascii_dec v w) as [->|Ne]; [left; reflexivity|].
    right. rewrite En, (@skipn_pred_app _ _ _ _ (@old_inc_not_nil v) Es).
    apply IH.
    + rewrite Es, length_app. unfold old_inc. rewrite !length_app. simpl. lia.
    + rewrite Es in C. change (old_inc v ++ rest) with ([] ++ old_inc v ++ rest) in C.
      rewrite contains_sep in C
        by (apply old_inc_strangers; [split; assumption | exact Hw | exact Ne]).
      exact C.
  - cbn [contains] in C. apply orb_true_iff in C. destruct C as [C | C].
    + apply starts_with_iff in C. destruct C as [rest Es].
      destruct Hw as [Hw Fw].
      rewrite Es, (inc_re_old_inc rest Hw Fw) in E. discriminate.
    + apply IH; [simpl; lia | exact C].
Qed.

Lemma plusplus_iff (w c : text) :
  In w (sorted (set_of (plusplus c))) <->
  run_of is_word w /\ contains (old_inc w) c = true.
Proof.
  rewrite sorted_in, set_of_in. split.
  - intros H. apply plusplus_in in H. destruct H as [H1 [H2 H3]].
    split; [split|]; assumption.
  - intros [Hw C]. apply plusplus_complete; assumption.
Qed.

Lemma names_nodup (c : text) : NoDup (sorted (set_of (plusplus c))).
Proof.
  eapply Permutation_NoDup; [apply sorted_perm | apply set_of_nodup].
Qed.

(** After rule 3 the idiom stands nowhere, whatever the name. *)
Lemma increments_clear (w c : text) :
  run_of is_word w -> contains (old_inc w) (apply Increments c) = false.
Proof.
  intros Hw. cbn [apply]. fold (increment_all (sorted (set_of (plusplus c))) c).
  destruct (in_dec (list_eq_dec ascii_dec) w (sorted (set_of (plusplus c))))
    as [I | N].
  - apply increment_all_gone; [apply plusplus_words | apply names_nodup | exact I].
  - destruct (@increment_all_other w _ Hw (plusplus_words c) N c) as [-> _].
    destruct (contains (old_inc w) c) eqn:C; [|reflexivity].
    exfalso. apply N. apply plusplus_iff. split; assumption.
Qed.

(** *** Rule 7a *)

Lemma ports_clear (d c : text) :
  run_of is_digit d -> contains (old_port d) (sub_all port_re c) = false.
Proof.
  intros [Hd Fd].
  apply (@sub_all_removes _ _ _ rewrites_port (@old_port_not_nil d)).
  - intros p r [e [[He Fe] [-> ->]]].
    apply (@sstrangers_sound fix_port_t old_port_t);
      [apply inst_fix_port | apply inst_old_port | vm_compute; reflexivity];
      assumption.
  - intros rest. rewrite (port_re_old_port rest Hd Fd). discriminate.
Qed.

Lemma ports_put_new (d : text) :
  run_of is_digit d ->
  forall c, contains (old_port d) c = true ->
            contains (fix_port_grep d) (sub_all port_re c) = true.
Proof.
  intros Hd c.
  induction c as [c IH] using (induction_ltof1 _ (@length ascii)).
  unfold ltof in IH. intros C.
  assert (M : any_match port_re c = true).
  { apply contains_iff in C. destruct C as [a [b ->]]. destruct Hd as [Hd Fd].
    apply any_match_at;
      [discriminate | rewrite (port_re_old_port b Hd Fd); discriminate]. }
  destruct (@sub_all_first _ _ _ rewrites_port M)
    as [a [p [r [rest [Es [Hp [[e [He [-> ->]]] [Hno Hs]]]]]]]].
  rewrite Hs.
  destruct (list_eq_dec ascii_dec e d) as [->|Ne]; [apply contains_mid|].
  rewrite Es, contains_sep in C by (apply old_port_strangers; assumption).
  apply orb_true_iff in C. destruct C as [C | C].
  - exfalso. apply contains_iff in C. destruct C as [a1 [a3 Ea]].
    assert (N : port_re ((old_port d ++ a3) ++ old_port e ++ rest) = None)
      by (apply (Hno a1); [exact Ea | discriminate]).
    rewrite <- app_assoc in N. destruct Hd as [Hd Fd].
    rewrite (port_re_old_port _ Hd Fd) in N. discriminate.
  - apply contains_app_r, contains_app_r. apply IH; [|exact C].
    rewrite Es, !length_app. unfold old_port. rewrite !length_app. simpl. lia.
Qed.

(** *** What rules 3 and 7a put in, counted *)

Lemma replace_inc_new_other_count (u w c : text) :
  run_of is_word u -> run_of is_word w -> u <> w ->
  count (new_inc w) (replace (old_inc u) (new_inc u) c) = count (new_inc w) c.
Proof.
  intros Hu Hw Ne.
  apply replace_strangers; [apply old_inc_not_nil | apply new_inc_not_nil; exact Hw | |].
  - apply strangers_old_new_inc; assumption.
  - apply new_inc_strangers; assumption.
Qed.

Lemma replace_inc_counts (w c : text) :
  run_of is_word w ->
  count (new_inc w) (replace (old_inc w) (new_inc w) c) =
  count (new_inc w) c + count (old_inc w) c.
Proof.
  intros Hw. apply replace_counts.
  - apply old_inc_not_nil.
  - apply new_inc_not_nil; exact Hw.
  - apply strangers_old_new_inc; exact Hw.
  - apply old_inc_self; exact Hw.
  - apply new_inc_self; exact Hw.
Qed.

Lemma increment_all_new_other_count (w : text) (vars : list text) :
  run_of is_word w -> Forall (run_of is_word) vars -> ~ In w vars ->
  forall c, count (new_inc w) (increment_all vars c) = count (new_inc w) c.
Proof.
  intros Hw W. induction W as [|v vars Hv _ IH]; intros N c.
  - reflexivity.
  - rewrite increment_all_cons.
    assert (Ne : v <> w) by (intros ->; apply N; left; reflexivity).
    rewrite (IH (fun H => N (or_intror H))).
    apply replace_inc_new_other_count; assumption.
Qed.

Lemma increment_all_counts (w : text) (vars : list text) :
  Forall (run_of is_word) vars -> NoDup vars -> In w vars ->
  forall c, count (new_inc w) (increment_all vars c) =
            count (new_inc w) c + count (old_inc w) c.
Proof.
  intros W. induction W as [|v vars Hv W IH]; intros D I c; [contradiction|].
  rewrite increment_all_cons. inversion D as [|? ? Nv D']; subst.
  destruct I as [-> | I].
  - rewrite (@increment_all_new_other_count w vars Hv W Nv).
    apply replace_inc_counts; exact Hv.
  - assert (Hw : run_of is_word w) by (rewrite Forall_forall in W; apply W; exact I).
    assert (Ne : v <> w) by (intros ->; contradiction).
    rewrite (IH D' I).
    rewrite (@replace_inc_new_other_count v w c Hv Hw Ne).
    destruct (@replace_inc_other v w c Hv Hw Ne) as [_ ->]. reflexivity.
Qed.

(** Rule 3 adds to the safe increments of a name the occurrences of its
    idiom. *)
Lemma increments_counts (w c : text) :
  run_of is_word w ->
  count (new_inc w) (apply Increments c) =
  count (new_inc w) c + count (old_inc w) c.
Proof.
  intros Hw. cbn [apply]. fold (increment_all (sorted (set_of (plusplus c))) c).
  destruct (in_dec (list_eq_dec ascii_dec) w (sorted (set_of (plusplus c))))
    as [I | N].
  - apply increment_all_counts; [apply plusplus_words | apply names_nodup | exact I].
  - rewrite (@increment_all_new_other_count w _ Hw (plusplus_words c) N).
    assert (Z : count (old_inc w) c = 0).
    { apply count_absent. destruct (contains (old_inc w) c) eqn:C; [|reflexivity].
      exfalso. apply N. apply plusplus_iff. split; assumption. }
    rewrite Z. lia.
Qed.

(** Rule 7a adds to the rewritten [grep]s of a port the occurrences of its
    [grep ":port"]. *)
Lemma ports_counts (d c : text) :
  run_of is_digit d ->
  count (fix_port_grep d) (sub_all port_re c) =
  count (fix_port_grep d) c + count (old_port d) c.
Proof.
  intros Hd.
  apply (@sub_all_counts _ _ (old_port d) (fix_port_grep d) rewrites_port).
  - apply old_port_not_nil.
  - discriminate.
  - intros rest. destruct Hd as [Hd Fd].
    rewrite (port_re_old_port rest Hd Fd). discriminate.
  - intros p r [e [He [-> ->]]].
    destruct (list_eq_dec ascii_dec e d) as [->|Ne]; [left; split; reflexivity|].
    right. split; [apply old_port_strangers; assumption|].
    split; [|apply fix_port_strangers; assumption].
    destruct He as [He Fe], Hd as [Hd Fd].
    apply (@sstrangers_sound old_port_t fix_port_t);
      [apply inst_old_port | apply inst_fix_port | vm_compute; reflexivity];
      assumption.
  - destruct Hd as [Hd Fd].
    apply (@sstrangers_sound old_port_t fix_port_t);
      [apply inst_old_port | apply inst_fix_port | vm_compute; reflexivity];
      assumption.
  - apply old_port_self; exact Hd.
  - apply fix_port_self; exact Hd.
Qed.

End Preserve.

Import Preserve.

(** ** The rules as functions on the buffer *)

Module Steps.

Lemma content_replace_first (old new label : text) (st : state) :
  content (replace_first old new label st) = replace1 old new (content st).
Proof.
  unfold replace_first. destruct (contains old (content st)) eqn:E; simpl.
  - reflexivity.
  - symmetry; apply replace1_absent; exact E.
Qed.

Lemma content_replace_counted (old new : text) (label : nat -> text) (st : state) :
  content (replace_counted old new label st) = replace old new (content st).
Proof.
  unfold replace_counted. destruct (0 <? count old (content st)) eqn:E; simpl.
  - reflexivity.
  - symmetry; apply replace_count_zero. apply Nat.ltb_ge in E; lia.
Qed.

Lemma content_replace_every (old new label : text) (st : state) :
  content (replace_every old new label st) = replace old new (content st).
Proof.
  unfold replace_every. destruct (contains old (content st)) eqn:E; simpl.
  - reflexivity.
  - symmetry; apply replace_absent; exact E.
Qed.

Lemma content_step_3_vars (vars : list text) (st : state) :
  content (fold_left (fun st var => step_3_var var st) vars st) =
  fold_left (fun c var => replace (old_inc var) (new_inc var) c) vars (content st).
Proof.
  revert st; induction vars as [|v vars IH]; intros st; simpl; [reflexivity|].
  rewrite IH. unfold step_3_var. rewrite content_replace_counted. reflexivity.
Qed.

Lemma content_step_3 (st : state) :
  content (step_3 st) = apply Increments (content st).
Proof. apply content_step_3_vars. Qed.

Lemma content_step_7a (st : state) :
  content (step_7a st) = apply Ports (content st).
Proof.
  unfold step_7a; simpl.
  destruct (text_eqb (sub_all port_re (content st)) (content st)) eqn:E; simpl.
  - apply text_eqb_eq in E. congruence.
  - reflexivity.
Qed.

Lemma content_patch (original : text) :
  content (patch original) = fold_left (fun c r => apply r c) rules original.
Proof.
  unfold patch, steps, rules; simpl fold_left.
  unfold step_7b, step_6b, step_6a, step_5, step_4, step_2, step_1c, step_1b, step_1a.
  rewrite content_replace_every, content_step_7a.
  rewrite !content_replace_counted, !content_replace_every.
  rewrite content_step_3, content_replace_counted.
  rewrite !content_replace_first.
  reflexivity.
Qed.

End Steps.

Import Steps.

(** ** The run, rule by rule *)

Module Pipeline.

Lemma content_step_of (id : step_id) (st : state) :
  content (step_of id st) = apply (rule_of id) (content st).
Proof.
  destruct id; cbn [step_of rule_of apply].
  - apply content_replace_first.
  - apply content_replace_first.
  - apply content_replace_first.
  - apply content_replace_counted.
  - apply content_replace_counted.
  - apply content_replace_every.
  - apply content_replace_every.
  - apply content_replace_counted.
  - apply content_replace_counted.
  - apply content_step_7a.
  - apply content_replace_every.
Qed.

Lemma content_run_ids (ids : list step_id) (st : state) :
  content (run_ids ids st) =
  fold_left (fun c r => apply r c) (map rule_of ids) (content st).
Proof.
  unfold run_ids. revert st.
  induction ids as [|id ids IH]; intros st; cbn [fold_left map]; [reflexivity|].
  rewrite IH, content_step_of. reflexivity.
Qed.

(** The entries a list of steps appends are entries of these steps. *)
Lemma run_ids_entries (ids : list step_id) (st : state) :
  exists es,
    fixes (run_ids ids st) = fixes st ++ es /\
    Forall (fun e => exists id c, In id ids /\ e = entry_of id c) es.
Proof.
  unfold run_ids. revert st.
  induction ids as [|id ids IH]; intros st; cbn [fold_left].
  - exists []. rewrite app_nil_r. split; [reflexivity | constructor].
  - destruct (IH (step_of id st)) as [es [F A]].
    assert (A' : Forall (fun e => exists id' c, In id' (id :: ids) /\ e = entry_of id' c) es).
    { eapply Forall_impl; [|exact A]. intros e [id' [c [I E]]].
      exists id', c. split; [right; exact I | exact E]. }
    rewrite F. destruct (records_step_of id st) as [I | [F' _]].
    + rewrite I. exists es. split; [reflexivity | exact A'].
    + rewrite F', <- app_assoc. exists ([entry_of id (content st)] ++ es).
      split; [reflexivity|]. constructor; [|exact A'].
      exists id, (content st). split; [left; reflexivity | reflexivity].
Qed.

Lemma not_from_rule_3 (ids : list step_id) (es : list text) :
  Forall (fun id => forall c, from_rule_3 (entry_of id c) = false) ids ->
  Forall (fun e => exists id c, In id ids /\ e = entry_of id c) es ->
  Forall (fun e => from_rule_3 e = false) es.
Proof.
  intros H A. eapply Forall_impl; [|exact A]. intros e [id [c [I ->]]].
  rewrite Forall_forall in H. apply H; exact I.
Qed.

Lemma ids_1_2_not_rule_3 :
  Forall (fun id => forall c, from_rule_3 (entry_of id c) = false) ids_1_2.
Proof. unfold ids_1_2. repeat constructor. Qed.

Lemma ids_4_7_not_rule_3 :
  Forall (fun id => forall c, from_rule_3 (entry_of id c) = false) ids_4_7.
Proof. unfold ids_4_7. repeat constructor. Qed.

Lemma filter_all (A : Type) (f : A -> bool) (l : list A) :
  (forall x, In x l -> f x = true) -> filter f l = l.
Proof.
  induction l as [|x l IH]; intros H; cbn [filter]; [reflexivity|].
  rewrite (H x (or_introl eq_refl)), IH; [reflexivity|].
  intros y Hy. apply H. right; exact Hy.
Qed.

(** The entries of the loop of rule 3: one for each name whose idiom
    stands in the buffer the loop begins with, carrying the number of its
    occurrences there. *)
Lemma step_3_vars_report (vars : list text) :
  Forall (run_of is_word) vars -> NoDup vars ->
  forall st,
    fixes (fold_left (fun st var => step_3_var var st) vars st) =
    fixes st ++
    map (fun v => label_3 v (count (old_inc v) (content st)))
        (filter (fun v => 0 <? count (old_inc v) (content st)) vars).
Proof.
  intros W. induction W as [|v vars Hv W IH]; intros D st; cbn [fold_left filter].
  - cbn [map]. rewrite app_nil_r. reflexivity.
  - inversion D as [|? ? Nv D']; subst. rewrite (IH D').
    assert (E : forall u, In u vars ->
                count (old_inc u) (content (step_3_var v st)) =
                count (old_inc u) (content st)).
    { intros u Hu. unfold step_3_var. rewrite content_replace_counted.
      assert (Wu : run_of is_word u) by (rewrite Forall_forall in W; apply W; exact Hu).
      apply replace_inc_other; [exact Hv | exact Wu | intros ->; contradiction]. }
    rewrite (filter_ext_in _ (fun u => 0 <? count (old_inc u) (content st)))
      by (intros u Hu; rewrite (E u Hu); reflexivity).
    rewrite (map_ext_in _ (fun u => label_3 u (count (old_inc u) (content st))))
      by (intros u Hu; apply filter_In in Hu; rewrite (E u (proj1 Hu)); reflexivity).
    unfold step_3_var at 1, replace_counted.
    destruct (0 <? count (old_inc v) (content st)); cbn [fixes map].
    + rewrite <- app_assoc. reflexivity.
    + reflexivity.
Qed.

Lemma step_3_report (st : state) :
  fixes (step_3 st) =
  fixes st ++
  map (fun v => label_3 v (count (old_inc v) (content st)))
      (sorted (set_of (plusplus (content st)))).
Proof.
  unfold step_3.
  rewrite (@step_3_vars_report _ (plusplus_words (content st)) (names_nodup (content st))).
  rewrite filter_all; [reflexivity|].
  intros v Hv. apply plusplus_iff in Hv. destruct Hv as [_ C].
  apply Nat.ltb_lt. apply contains_count_pos; [apply old_inc_not_nil | exact C].
Qed.

(** The run, cut at rule 3. *)
Lemma patch_cut (original : text) :
  patch original =
  run_ids ids_4_7 (step_3 (run_ids ids_1_2 (State original []))).
Proof.
  rewrite patch_unfold. unfold steps, ids_4_7, ids_1_2, run_ids.
  cbn [fold_left step_of]. reflexivity.
Qed.

Lemma content_before_rule_3 (original : text) :
  content (run_ids ids_1_2 (State original [])) = before_rule_3 original.
Proof. rewrite content_run_ids. reflexivity. Qed.

Lemma rules_1_2_old_inc (w original : text) :
  run_of is_word w ->
  contains (old_inc w) (before_rule_3 original) = contains (old_inc w) original /\
  count (old_inc w) (before_rule_3 original) = count (old_inc w) original.
Proof.
  intros [Hw Fw]. unfold before_rule_3.
  apply (@fold_strangers old_inc_t);
    [apply inst_old_inc; assumption | apply old_inc_not_nil | vm_compute; reflexivity].
Qed.

Lemma names_of_iff (original v : text) :
  In v (names_of original) <->
  run_of is_word v /\ contains (old_inc v) original = true.
Proof.
  unfold names_of. rewrite plusplus_iff. split; intros [Hv C]; split; try exact Hv.
  - destruct (rules_1_2_old_inc original Hv) as [<- _]. exact C.
  - destruct (rules_1_2_old_inc original Hv) as [-> _]. exact C.
Qed.

(** The report of a run: the entries of rules 1a to 2, then one entry of
    rule 3 for each name in the idiom, in the order of [names_of], with
    the number of occurrences of the idiom in the original text, then the
    entries of rules 4 to 7b. *)
Lemma rule_3_report (original : text) :
  exists before after,
    fixes (patch original) =
      before ++
      map (fun v => label_3 v (count (old_inc v) original)) (names_of original) ++
      after /\
    Forall (fun e => from_rule_3 e = false) before /\
    Forall (fun e => from_rule_3 e = false) after.
Proof.
  rewrite patch_cut.
  destruct (run_ids_entries ids_1_2 (State original [])) as [before [F1 A1]].
  destruct (run_ids_entries ids_4_7 (step_3 (run_ids ids_1_2 (State original []))))
    as [after [F2 A2]].
  exists before, after. split; [|split].
  - rewrite F2, step_3_report, F1, content_before_rule_3. cbn [fixes app].
    rewrite <- app_assoc. f_equal. f_equal.
    apply map_ext_in. intros v Hv. fold (names_of original) in Hv.
    apply names_of_iff in Hv. destruct Hv as [Hv _].
    destruct (rules_1_2_old_inc original Hv) as [_ ->]. reflexivity.
  - exact (not_from_rule_3 ids_1_2_not_rule_3 A1).
  - exact (not_from_rule_3 ids_4_7_not_rule_3 A2).
Qed.

End Pipeline.

Import Pipeline.

(** ** The buffer a run ends with *)

Module Final.

Lemma content_cut (original : text) :
  content (patch original) =
  fold_left (fun c r => apply r c) rules_4_7
            (apply Increments (before_rule_3 original)).
Proof.
  rewrite patch_cut, content_run_ids, content_step_3, content_before_rule_3.
  reflexivity.
Qed.

Lemma content_cut_7 (original : text) :
  content (patch original) =
  replace old_egrep new_egrep (sub_all port_re (before_rule_7 original)).
Proof.
  rewrite content_cut. unfold before_rule_7, before_rule_3.
  rewrite fold_left_app. reflexivity.
Qed.

(** No increment idiom is left. *)
Lemma final_old_inc (w original : text) :
  run_of is_word w -> contains (old_inc w) (content (patch original)) = false.
Proof.
  intros Hw. rewrite content_cut.
  destruct (@fold_strangers old_inc_t (old_inc w) rules_4_7
              (inst_old_inc (proj1 Hw) (proj2 Hw)) (@old_inc_not_nil w)
              ltac:(vm_compute; reflexivity)
              (apply Increments (before_rule_3 original))) as [-> _].
  apply increments_clear; exact Hw.
Qed.

(** No [grep ":port"] is left. *)
Lemma final_old_port (d original : text) :
  run_of is_digit d -> contains (old_port d) (content (patch original)) = false.
Proof.
  intros Hd. rewrite content_cut_7.
  destruct (@apply_strangers old_port_t (old_port d) (Every old_egrep new_egrep)
              (inst_old_port (proj1 Hd) (proj2 Hd)) (@old_port_not_nil d)
              ltac:(vm_compute; reflexivity)
              (sub_all port_re (before_rule_7 original))) as [E _].
  cbn [apply] in E. rewrite E. apply ports_clear; exact Hd.
Qed.

Lemma fix_port_not_nil (d : text) : fix_port_grep d <> [].
Proof. discriminate. Qed.

Lemma before_rule_7_old_port_both (d original : text) :
  run_of is_digit d ->
  contains (old_port d) (before_rule_7 original) = contains (old_port d) original /\
  count (old_port d) (before_rule_7 original) = count (old_port d) original.
Proof.
  intros Hd. unfold before_rule_7.
  apply (@fold_strangers old_port_t (old_port d) _
           (inst_old_port (proj1 Hd) (proj2 Hd)) (@old_port_not_nil d)).
  vm_compute. reflexivity.
Qed.

Lemma before_rule_7_old_port (d original : text) :
  run_of is_digit d ->
  contains (old_port d) (before_rule_7 original) = contains (old_port d) original.
Proof. intros Hd. exact (proj1 (before_rule_7_old_port_both original Hd)). Qed.

(** Every [grep ":port"] of the text is a rewritten [grep] in the end. *)
Lemma final_fix_port_count (d original : text) :
  run_of is_digit d ->
  count (fix_port_grep d) (content (patch original)) =
  count (fix_port_grep d) original + count (old_port d) original.
Proof.
  intros Hd. rewrite content_cut_7.
  destruct (@apply_strangers fix_port_t (fix_port_grep d) (Every old_egrep new_egrep)
              (inst_fix_port (proj1 Hd) (proj2 Hd)) (@fix_port_not_nil d)
              ltac:(vm_compute; reflexivity)
              (sub_all port_re (before_rule_7 original))) as [_ E].
  cbn [apply] in E. rewrite E, (ports_counts _ Hd).
  rewrite (proj2 (before_rule_7_old_port_both original Hd)).
  f_equal. unfold before_rule_7.
  apply (@fold_strangers fix_port_t (fix_port_grep d) _
           (inst_fix_port (proj1 Hd) (proj2 Hd)) (@fix_port_not_nil d)).
  vm_compute. reflexivity.
Qed.

(** Every idiom of a name in the text is a safe increment in the end, when
    the other rules are strangers to the safe increment of the name. *)
Lemma final_new_inc_count (w original : text) :
  run_of is_word w ->
  forallb (rule_strangers (chars (new_inc w))) rules_1_2 = true ->
  forallb (rule_strangers (chars (new_inc w))) rules_4_7 = true ->
  count (new_inc w) (content (patch original)) =
  count (new_inc w) original + count (old_inc w) original.
Proof.
  intros Hw S12 S47. rewrite content_cut.
  destruct (@fold_strangers (chars (new_inc w)) (new_inc w) rules_4_7
              (inst_chars (new_inc w)) (new_inc_not_nil Hw) S47
              (apply Increments (before_rule_3 original))) as [_ ->].
  rewrite (increments_counts _ Hw).
  destruct (rules_1_2_old_inc original Hw) as [_ ->].
  f_equal. unfold before_rule_3.
  apply (@fold_strangers (chars (new_inc w)) (new_inc w) rules_1_2
           (inst_chars (new_inc w)) (new_inc_not_nil Hw) S12).
Qed.

(** The rewritten [grep] of a port whose [grep ":port"] stood in the text
    is there. *)
Lemma final_fix_port (d original : text) :
  run_of is_digit d -> contains (old_port d) original = true ->
  contains (fix_port_grep d) (content (patch original)) = true.
Proof.
  intros Hd C. rewrite content_cut_7.
  destruct (@apply_strangers fix_port_t (fix_port_grep d) (Every old_egrep new_egrep)
              (inst_fix_port (proj1 Hd) (proj2 Hd)) (@fix_port_not_nil d)
              ltac:(vm_compute; reflexivity)
              (sub_all port_re (before_rule_7 original))) as [E _].
  cbn [apply] in E. rewrite E. apply ports_put_new; [exact Hd|].
  rewrite before_rule_7_old_port by exact Hd. exact C.
Qed.

(** Rule 7a is in the report when a [grep ":port"] stood in the text. *)
Lemma patch_cut_7 (original : text) :
  patch original =
  step_7b (step_7a (run_ids ids_4_6 (step_3 (run_ids ids_1_2 (State original []))))).
Proof.
  rewrite patch_unfold. unfold steps, ids_4_6, ids_1_2, run_ids.
  cbn [fold_left step_of]. reflexivity.
Qed.

Lemma content_before_rule_7 (original : text) :
  content (run_ids ids_4_6 (step_3 (run_ids ids_1_2 (State original [])))) =
  before_rule_7 original.
Proof.
  rewrite content_run_ids, content_step_3, content_before_rule_3.
  unfold before_rule_7, before_rule_3. rewrite fold_left_app. reflexivity.
Qed.

Lemma any_match_inv (A : Type) (m : matcher A) (s : text) :
  any_match m s = true -> exists pre t, s = pre ++ t /\ m t <> None.
Proof.
  induction s as [|c s IH]; [discriminate|]. cbn [any_match]. intros H.
  destruct (m (c :: s)) eqn:E.
  - exists [], (c :: s). split; [reflexivity | congruence].
  - simpl in H. destruct (IH H) as [pre [t [-> Ht]]].
    exists (c :: pre), t. split; [reflexivity | exact Ht].
Qed.

Lemma label_7a_logged (st : state) :
  any_match port_re (content st) = true ->
  In label_7a (fixes (step_7b (step_7a st))).
Proof.
  intros M.
  destruct (records_step_of S7a st) as [I | [F _]].
  - apply step_7a_idle in I. congruence.
  - destruct (records_step_of S7b (step_7a st)) as [I' | [F' _]].
    + cbn [step_of] in I', F. rewrite I', F.
      apply in_or_app. right. left. reflexivity.
    + cbn [step_of] in F', F. rewrite F', F.
      apply in_or_app. left. apply in_or_app. right. left. reflexivity.
Qed.

Lemma final_label_7a (d original : text) :
  run_of is_digit d -> contains (old_port d) original = true ->
  In label_7a (fixes (patch original)).
Proof.
  intros Hd C. rewrite patch_cut_7. apply label_7a_logged.
  rewrite content_before_rule_7.
  rewrite <- (before_rule_7_old_port original Hd) in C.
  apply contains_iff in C. destruct C as [a [b ->]]. destruct Hd as [Hd Fd].
  apply any_match_at;
    [discriminate | rewrite (port_re_old_port b Hd Fd); discriminate].
Qed.

(** *** Patterns that are gone for good *)

Lemma every_clears (pre post : list rule) (old new : text) :
  nonempty old = true -> strangers new old = true ->
  forallb (rule_strangers (chars old)) post = true ->
  forall c,
    contains old (fold_left (fun c r => apply r c) (pre ++ Every old new :: post) c)
    = false.
Proof.
  intros Ho Sn Sp c. rewrite fold_left_app. cbn [fold_left].
  destruct (@fold_strangers (chars old) old post (inst_chars old)
              (@nonempty_true _ Ho) Sp
              (apply (Every old new) (fold_left (fun c r => apply r c) pre c)))
    as [-> _].
  cbn [apply]. apply replace_removes; [exact (@nonempty_true _ Ho) | exact Sn].
Qed.

Ltac gone pre post :=
  rewrite content_patch; apply (@every_clears pre post); vm_compute; reflexivity.

Lemma final_old_2 (original : text) :
  contains old_2 (content (patch original)) = false.
Proof.
  gone [Once old_1a new_1a; Once old_1b new_1b; Once old_1c new_1c]
       (Increments :: rules_4_7).
Qed.

Lemma final_old_guard (original : text) :
  contains old_guard (content (patch original)) = false.
Proof.
  gone (rules_1_2 ++ [Increments])
       [Every old_sort new_sort; Every old_6a new_6a; Every old_6b new_6b;
        Ports; Every old_egrep new_egrep].
Qed.

Lemma final_old_sort (original : text) :
  contains old_sort (content (patch original)) = false.
Proof.
  gone (rules_1_2 ++ [Increments; Every old_guard new_guard])
       [Every old_6a new_6a; Every old_6b new_6b; Ports; Every old_egrep new_egrep].
Qed.

Lemma final_old_6a (original : text) :
  contains old_6a (content (patch original)) = false.
Proof.
  gone (rules_1_2 ++ [Increments; Every old_guard new_guard; Every old_sort new_sort])
       [Every old_6b new_6b; Ports; Every old_egrep new_egrep].
Qed.

Lemma final_old_6b (original : text) :
  contains old_6b (content (patch original)) = false.
Proof.
  gone (rules_1_2 ++ [Increments; Every old_guard new_guard; Every old_sort new_sort;
                      Every old_6a new_6a])
       [Ports; Every old_egrep new_egrep].
Qed.

Lemma final_old_egrep (original : text) :
  contains old_egrep (content (patch original)) = false.
Proof.
  gone (rules_1_2 ++ Increments :: rules_4_6 ++ [Ports]) (@nil rule).
Qed.

Lemma final_no_inc (original : text) :
  any_match inc_re (content (patch original)) = false.
Proof.
  destruct (any_match inc_re (content (patch original))) eqn:M; [|reflexivity].
  exfalso. apply any_match_inv in M. destruct M as [pre [t [E Ht]]].
  destruct (inc_re t) as [[w n]|] eqn:R; [|congruence].
  apply inc_re_inv in R. destruct R as [Hw [Fw [_ [rest Et]]]].
  assert (C : contains (old_inc w) (content (patch original)) = true)
    by (apply contains_iff; exists pre, rest; rewrite E, Et; reflexivity).
  rewrite (@final_old_inc w original (conj Hw Fw)) in C. discriminate.
Qed.

Lemma final_no_port (original : text) :
  any_match port_re (content (patch original)) = false.
Proof.
  destruct (any_match port_re (content (patch original))) eqn:M; [|reflexivity].
  exfalso. apply any_match_inv in M. destruct M as [pre [t [E Ht]]].
  destruct (port_re t) as [[r n]|] eqn:R; [|congruence].
  apply port_re_inv in R. destruct R as [d [rest [Hd [Fd [Et _]]]]].
  assert (C : contains (old_port d) (content (patch original)) = true)
    by (apply contains_iff; exists pre, rest; rewrite E, Et; reflexivity).
  rewrite (@final_old_port d original (conj Hd Fd)) in C. discriminate.
Qed.

End Final.

Import Final.

(** ** The report *)

(** C2, as amended: a run is the sequence of its elementary steps, and each
    step appends its labelled entry exactly when it changes the buffer,
    appending nothing and changing nothing otherwise.  The entries of rules
    2, 3, 6a and 6b carry the number of instances replaced; those of rules
    1a, 1b, 1c, 4, 5, 7a and 7b are fixed labels ([entry_of]). *)
Theorem entry_iff_changed (original : text) :
  patch original =
    fold_left (fun st id => step_of id st) (schedule original) (State original []) /\
  forall id st,
    (content (step_of id st) = content st /\ fixes (step_of id st) = fixes st) \/
    (content (step_of id st) <> content st /\
     fixes (step_of id st) = fixes st ++ [entry_of id (content st)]).
Proof.
  split; [apply patch_schedule|]. intros id st.
  destruct (records_step_of id st) as [E | [F M]].
  - left. rewrite E. split; reflexivity.
  - right. split; [|exact F]. intros E. rewrite E in M. lia.
Qed.

(** C2 as stated fails for the rules that replace every occurrence without
    counting: on a text with two instances of the pattern of rule 5 the
    entry is the same fixed label as on a text with one, and the numeral 2
    does not occur in it. *)
Lemma global_rule_without_count :
  let c := old_sort ++ old_sort in
  count old_sort c = 2 /\
  content (patch c) = new_sort ++ new_sort /\
  fixes (patch c) = [label_5] /\
  fixes (patch old_sort) = [label_5] /\
  contains (decimal 2) label_5 = false.
Proof. vm_compute. repeat split; reflexivity. Qed.

(** C10, as amended: the buffer a run ends with differs from the original
    exactly when a fix was logged, and the number of logged fixes, which the
    summary line prints, is the number of elementary steps that changed the
    buffer: rules 1a to 2 and 4 to 7b count once, rule 3 once for each
    name it rewrote. *)
Theorem changed_iff_logged (original : text) :
  (content (patch original) <> original <-> fixes (patch original) <> []) /\
  length (fixes (patch original)) =
    hits (map step_of (schedule original)) (State original []).
Proof.
  split.
  - destruct (patch_logs original) as [[F C] | [F M]].
    + rewrite F, C. split; intros H; exfalso; apply H; reflexivity.
    + split; [intros _; exact F|]. intros _ E. rewrite E in M. lia.
  - rewrite patch_schedule at 1. rewrite hits_fixes. reflexivity.
Qed.

(** C10 as stated fails: on a text with two names in the increment idiom
    the summary counts two fixes while one of the eleven rules matched. *)
Lemma two_entries_for_one_rule :
  let s := lit "((a++)) ((b++))" in
  length (fixes (patch s)) = 2 /\ matched_rules s = 1.
Proof. vm_compute. split; reflexivity. Qed.

(** ** The script *)

(** C6: when no rule's pattern occurs in the text of the target, the script
    leaves the file system as it is, prints the no-op message and exits
    with 0; when some pattern occurs (and the file can be written), the
    buffer differs from the text, the script stores it in the target,
    prints the number of fixes and then a line for each, and exits
    with 0. *)
Theorem exit_and_report (argv : list text) (w : world) (f : file) :
  fs w (target_of argv) = Some f -> readable f = true ->
  (no_rule_matches (data f) = true ->
   main argv w = (World (fs w) (stdout w ++ no_changes ++ nl), Exit 0)) /\
  (no_rule_matches (data f) = false -> writable f = true ->
   content (patch (data f)) <> data f /\
   fixes (patch (data f)) <> [] /\
   main argv w =
     (World (fun p => if text_eqb p (target_of argv)
                      then Some (File (content (patch (data f))) true true)
                      else fs w p)
            (stdout w ++ applied (fixes (patch (data f))) (target_of argv) ++ nl ++
             concat (map (fun fx => lit "  " ++ fx ++ nl) (fixes (patch (data f))))),
      Exit 0)).
Proof.
  intros Hf Hr. unfold main, read_file. cbv zeta. rewrite Hf. cbv iota beta.
  rewrite Hr. split.
  - intros H. rewrite (patch_idle _ H). cbn [content].
    rewrite text_eqb_refl. reflexivity.
  - intros H Hw. destruct (patch_changes _ H) as [F C].
    split; [exact C|]. split; [exact F|].
    apply text_eqb_neq in C. rewrite C.
    unfold write_file. cbv zeta. rewrite Hf. cbv iota beta. rewrite Hw, Hr.
    rewrite print_fixes_out. unfold print. cbn [fs stdout].
    rewrite <- !app_assoc. reflexivity.
Qed.

Lemma exit_and_report_witness :
  main [] (sample_world old_6a true true) =
  (World (fun p => if text_eqb p default_target
                   then Some (File new_6a true true)
                   else fs (sample_world old_6a true true) p)
         (lit "Applied 1 fix(es) to invoke-unix-forensics.sh:" ++ nl ++ nl ++
          lit "  6a: Fixed netstat -ant -> -an -f inet -P tcp (1 instances)" ++ nl),
   Exit 0).
Proof.
  exact (proj2 (proj2 (proj2
    (exit_and_report [] (sample_world old_6a true true)
       (f := File old_6a true true) eq_refl eq_refl)
    eq_refl eq_refl))).
Defined.

(** C7: when the target cannot be read the script ends with the error of
    the failed [open], having printed nothing and written nothing. *)
Theorem unreadable_target_is_fatal (argv : list text) (w : world) (e : OSError) :
  read_file (fs w) (target_of argv) = inl e ->
  main argv w = (w, Uncaught e).
Proof. intros H. unfold main. cbv zeta. rewrite H. reflexivity. Qed.

Lemma unreadable_target_is_fatal_witness :
  main [lit "fix"; lit "missing.sh"] (World (fun _ => None) []) =
  (World (fun _ => None) [], Uncaught FileNotFoundError) /\
  main [] (sample_world old_6a false true) =
  (sample_world old_6a false true, Uncaught PermissionError).
Proof.
  split.
  - apply (unreadable_target_is_fatal [lit "fix"; lit "missing.sh"]
             (World (fun _ => None) [])). reflexivity.
  - apply (unreadable_target_is_fatal [] (sample_world old_6a false true)).
    reflexivity.
Defined.

(** C8: a run is determined by the target path and the file found there.
    Two runs from worlds that agree on the target end the same way, leave
    the same file at the target and print the same text; and the names of
    rule 3 are visited in an order that does not depend on the order in
    which the set of names is enumerated. *)
Theorem runs_are_deterministic (argv : list text) (w1 w2 : world) :
  fs w1 (target_of argv) = fs w2 (target_of argv) ->
  snd (main argv w1) = snd (main argv w2) /\
  fs (fst (main argv w1)) (target_of argv) =
    fs (fst (main argv w2)) (target_of argv) /\
  (exists out, stdout (fst (main argv w1)) = stdout w1 ++ out /\
               stdout (fst (main argv w2)) = stdout w2 ++ out) /\
  (forall names enumeration,
     Permutation enumeration (set_of names) ->
     sorted enumeration = sorted (set_of names)).
Proof.
  intros H.
  assert (canonical : forall names enumeration,
             Permutation enumeration (set_of names) ->
             sorted enumeration = sorted (set_of names))
    by (intros names enumeration P; apply sorted_canonical; exact P).
  assert (silent : forall w : world, stdout w = stdout w ++ [])
    by (intros w; rewrite app_nil_r; reflexivity).
  unfold main, read_file, write_file. cbv zeta. rewrite <- H.
  destruct (fs w1 (target_of argv)) as [f|] eqn:E1;
    [|split; [|split; [|split]]; cbn [fst snd];
      [reflexivity | congruence | exists []; split; apply silent | exact canonical]].
  destruct (readable f);
    [|split; [|split; [|split]]; cbn [fst snd];
      [reflexivity | congruence | exists []; split; apply silent | exact canonical]].
  destruct (text_eqb (content (patch (data f))) (data f)).
  { split; [|split; [|split]]; cbn [fst snd];
      [reflexivity | unfold print; cbn [fs]; congruence | | exact canonical].
    eexists. unfold print. cbn [stdout]. split; reflexivity. }
  destruct (writable f);
    [|split; [|split; [|split]]; cbn [fst snd];
      [reflexivity | congruence | exists []; split; apply silent | exact canonical]].
  rewrite !print_fixes_out. unfold print. cbn [fst snd fs stdout].
  rewrite !text_eqb_refl.
  split; [|split; [|split]]; [reflexivity | reflexivity | | exact canonical].
  eexists. rewrite <- !app_assoc. split; reflexivity.
Qed.

Lemma runs_are_deterministic_witness :
  snd (main [] (sample_world old_6a true true)) =
  snd (main [] (World (fs (sample_world old_6a true true)) (lit "earlier output"))).
Proof.
  exact (proj1 (runs_are_deterministic []
    (sample_world old_6a true true)
    (World (fs (sample_world old_6a true true)) (lit "earlier output"))
    eq_refl)).
Defined.

Lemma main_idle (argv : list text) (w : world) (f : file) :
  fs w (target_of argv) = Some f -> readable f = true ->
  patch (data f) = State (data f) [] ->
  main argv w = (World (fs w) (stdout w ++ no_changes ++ nl), Exit 0).
Proof.
  intros Hf Hr I. unfold main, read_file. cbv zeta. rewrite Hf. cbv iota beta.
  rewrite Hr, I. cbn [content]. rewrite text_eqb_refl. reflexivity.
Qed.

Lemma absent_after_rule_1 (o : text) :
  contains old_2 o = false -> any_match inc_re o = false ->
  contains old_guard o = false -> contains old_sort o = false ->
  contains old_6a o = false -> contains old_6b o = false ->
  any_match port_re o = false -> contains old_egrep o = false ->
  forallb (fun r => negb (matches r o))
          (Every old_2 new_2 :: Increments :: rules_4_7) = true.
Proof.
  intros H2 H3 H4 H5 H6a H6b H7a H7b. unfold rules_4_7. cbn [forallb matches].
  rewrite H2, H3, H4, H5, H6a, H6b, H7a, H7b. reflexivity.
Qed.

Lemma absent_everywhere (o : text) :
  contains old_1a o = false -> contains old_1b o = false ->
  contains old_1c o = false ->
  contains old_2 o = false -> any_match inc_re o = false ->
  contains old_guard o = false -> contains old_sort o = false ->
  contains old_6a o = false -> contains old_6b o = false ->
  any_match port_re o = false -> contains old_egrep o = false ->
  no_rule_matches o = true.
Proof.
  intros H1a H1b H1c H2 H3 H4 H5 H6a H6b H7a H7b.
  unfold no_rule_matches, rules. cbn [forallb matches].
  rewrite H1a, H1b, H1c, H2, H3, H4, H5, H6a, H6b, H7a, H7b. reflexivity.
Qed.

Lemma names_of_spec (original : text) :
  StronglySorted lt_text (names_of original) /\
  NoDup (names_of original) /\
  (forall v, In v (names_of original) <->
             run_of is_word v /\ contains (old_inc v) original = true).
Proof.
  split; [apply sorted_strict, set_of_nodup|].
  split; [apply names_nodup|]. intros v. apply names_of_iff.
Qed.

(** ** A second run *)

(** C1, as amended: in the buffer a run ends with, the patterns of the
    rules that replace every occurrence (2, 3, 4, 5, 6a, 6b, 7a, 7b) occur
    nowhere; if none of the three blocks of rules 1a, 1b and 1c occurs in
    it either, a second run changes nothing, logs nothing and the script
    prints the no-op message. *)
Theorem second_run_is_idle (original : text) :
  forallb (fun r => negb (matches r (content (patch original))))
          (Every old_2 new_2 :: Increments :: rules_4_7) = true /\
  (contains old_1a (content (patch original)) = false ->
   contains old_1b (content (patch original)) = false ->
   contains old_1c (content (patch original)) = false ->
   patch (content (patch original)) = State (content (patch original)) [] /\
   forall argv w f,
     fs w (target_of argv) = Some f -> readable f = true ->
     data f = content (patch original) ->
     main argv w = (World (fs w) (stdout w ++ no_changes ++ nl), Exit 0)).
Proof.
  pose proof (final_old_2 original) as H2.
  pose proof (final_no_inc original) as H3.
  pose proof (final_old_guard original) as H4.
  pose proof (final_old_sort original) as H5.
  pose proof (final_old_6a original) as H6a.
  pose proof (final_old_6b original) as H6b.
  pose proof (final_no_port original) as H7a.
  pose proof (final_old_egrep original) as H7b.
  split; [exact (@absent_after_rule_1 _ H2 H3 H4 H5 H6a H6b H7a H7b)|].
  intros H1a H1b H1c.
  assert (I : patch (content (patch original)) = State (content (patch original)) [])
    by exact (@patch_idle _
                (@absent_everywhere _ H1a H1b H1c H2 H3 H4 H5 H6a H6b H7a H7b)).
  split; [exact I|]. intros argv w f Hf Hr Hd.
  apply (@main_idle argv w f Hf Hr). rewrite Hd. exact I.
Qed.

Lemma second_run_is_idle_witness :
  patch (content (patch old_6a)) = State (content (patch old_6a)) [].
Proof.
  apply (proj2 (second_run_is_idle old_6a)); vm_compute; reflexivity.
Defined.

(** C1 as stated fails.  Rule 1a replaces the first occurrence of its
    block only: on a text with the block twice, the second run still finds
    one and changes the file.  And the replacement of rule 3 can complete
    the block of rule 1a: with [((fi++))] where the block ends in [fi], the
    first run applies rule 3 alone, the second applies rule 1a. *)
Lemma second_run_changes :
  text_eqb (content (patch (content (patch (old_1a ++ old_1a)))))
           (content (patch (old_1a ++ old_1a))) = false /\
  fixes (patch (content (patch (old_1a ++ old_1a)))) = [label_1a] /\
  fixes (patch (removelast (removelast old_1a) ++ old_inc (lit "fi"))) =
    [label_3 (lit "fi") 1] /\
  fixes (patch (content (patch (removelast (removelast old_1a) ++ old_inc (lit "fi")))))
    = [label_1a].
Proof. vm_compute. repeat split; reflexivity. Qed.

(** ** Rules 3 and 7a on the whole run *)

(** C4: when [((foo++))] and [((bar++))] occur in the text, the buffer the
    run ends with holds neither idiom, and each occurrence has become
    [foo=$((foo + 1))] or [bar=$((bar + 1))]: the buffer holds as many of
    these as the text held plus one for each occurrence of the idiom.  The
    report has, between the entries of the other rules, exactly one entry
    of rule 3 for each distinct name in the idiom, [foo] and [bar] among
    them, and the entry carries the number of occurrences of the idiom of
    the name in the text. *)
Theorem increments_rewritten (original : text) :
  contains (old_inc foo) original = true ->
  contains (old_inc bar) original = true ->
  contains (old_inc foo) (content (patch original)) = false /\
  contains (old_inc bar) (content (patch original)) = false /\
  count (new_inc foo) (content (patch original)) =
    count (new_inc foo) original + count (old_inc foo) original /\
  count (new_inc bar) (content (patch original)) =
    count (new_inc bar) original + count (old_inc bar) original /\
  exists before after,
    fixes (patch original) =
      before ++
      map (fun v => label_3 v (count (old_inc v) original)) (names_of original) ++
      after /\
    Forall (fun e => from_rule_3 e = false) (before ++ after) /\
    NoDup (names_of original) /\
    In foo (names_of original) /\ In bar (names_of original) /\
    (forall v, In v (names_of original) <->
               run_of is_word v /\ contains (old_inc v) original = true).
Proof.
  intros Cfoo Cbar.
  assert (Wfoo : run_of is_word foo) by (split; [discriminate | reflexivity]).
  assert (Wbar : run_of is_word bar) by (split; [discriminate | reflexivity]).
  split; [apply final_old_inc; exact Wfoo|].
  split; [apply final_old_inc; exact Wbar|].
  split; [apply final_new_inc_count;
          [exact Wfoo | vm_compute; reflexivity | vm_compute; reflexivity]|].
  split; [apply final_new_inc_count;
          [exact Wbar | vm_compute; reflexivity | vm_compute; reflexivity]|].
  destruct (rule_3_report original) as [before [after [F [B A]]]].
  destruct (names_of_spec original) as [_ [D S]].
  exists before, after. split; [exact F|].
  split; [apply Forall_app; split; assumption|].
  split; [exact D|].
  split; [apply S; split; assumption|].
  split; [apply S; split; assumption | exact S].
Qed.

Lemma increments_rewritten_witness :
  count (new_inc foo)
    (content (patch (lit "((foo++)); ((bar++)); ((foo++)); foo=$((foo + 1))"))) =
  count (new_inc foo) (lit "((foo++)); ((bar++)); ((foo++)); foo=$((foo + 1))") +
  count (old_inc foo) (lit "((foo++)); ((bar++)); ((foo++)); foo=$((foo + 1))").
Proof.
  assert (Cfoo : contains (old_inc foo)
                   (lit "((foo++)); ((bar++)); ((foo++)); foo=$((foo + 1))") = true)
    by (vm_compute; reflexivity).
  assert (Cbar : contains (old_inc bar)
                   (lit "((foo++)); ((bar++)); ((foo++)); foo=$((foo + 1))") = true)
    by (vm_compute; reflexivity).
  exact (proj1 (proj2 (proj2 (@increments_rewritten _ Cfoo Cbar)))).
Defined.

(** C9: the entries of rule 3 stand together in the report, one for each
    name of [names_of], in that order; the names ascend strictly in
    Python's order on strings and are the names that occur in the idiom,
    so that two texts with the same names in the idiom, in whatever order,
    give the same sequence of names. *)
Theorem rule_3_entries_sorted (original : text) :
  (exists before after,
     fixes (patch original) =
       before ++
       map (fun v => label_3 v (count (old_inc v) original)) (names_of original) ++
       after /\
     Forall (fun e => from_rule_3 e = false) (before ++ after)) /\
  StronglySorted lt_text (names_of original) /\
  (forall v, In v (names_of original) <->
             run_of is_word v /\ contains (old_inc v) original = true) /\
  (forall other,
     (forall v, run_of is_word v ->
                contains (old_inc v) other = contains (old_inc v) original) ->
     names_of other = names_of original).
Proof.
  destruct (rule_3_report original) as [before [after [F [B A]]]].
  destruct (names_of_spec original) as [St [D S]].
  split; [exists before, after; split; [exact F | apply Forall_app; split; assumption]|].
  split; [exact St|]. split; [exact S|].
  intros other H. destruct (names_of_spec other) as [_ [D' S']].
  apply sorted_unique; try apply sorted_sorted.
  apply NoDup_Permutation; try assumption.
  intros v. rewrite S, S'. split; intros [Hv C]; (split; [exact Hv|]).
  - rewrite <- (H v Hv). exact C.
  - rewrite (H v Hv). exact C.
Qed.

(** C5: when [grep ":port"] occurs in the text for a run of digits [port],
    each occurrence has become [grep "[.]port[[:space:]]"]: the buffer the
    run ends with holds as many of these as the text held plus one for
    each occurrence of [grep ":port"]; it holds no [grep ":digits"] at
    all, and rule 7a is in the report. *)
Theorem ports_rewritten (original port : text) :
  run_of is_digit port ->
  contains (old_port port) original = true ->
  count (fix_port_grep port) (content (patch original)) =
    count (fix_port_grep port) original + count (old_port port) original /\
  contains (fix_port_grep port) (content (patch original)) = true /\
  (forall d, run_of is_digit d ->
             contains (old_port d) (content (patch original)) = false) /\
  In label_7a (fixes (patch original)).
Proof.
  intros Hp C.
  split; [apply final_fix_port_count; exact Hp|].
  split; [apply final_fix_port; [exact Hp | exact C]|].
  split; [intros d Hd; apply final_old_port; exact Hd|].
  exact (@final_label_7a port original Hp C).
Qed.

Lemma ports_rewritten_witness :
  (contains (fix_port_grep (lit "80"))
     (content (patch (lit "grep ~:80~ && grep ~:8080~"))) = true /\
   contains (fix_port_grep (lit "8080"))
     (content (patch (lit "grep ~:80~ && grep ~:8080~"))) = true) /\
  content (patch (lit "grep ~:80~ && grep ~:8080~")) =
    lit "grep ~[.]80[[:space:]]~ && grep ~[.]8080[[:space:]]~".
Proof.
  assert (D80 : run_of is_digit (lit "80")) by (split; [discriminate | reflexivity]).
  assert (D8080 : run_of is_digit (lit "8080"))
    by (split; [discriminate | reflexivity]).
  assert (C80 : contains (old_port (lit "80")) (lit "grep ~:80~ && grep ~:8080~") = true)
    by (vm_compute; reflexivity).
  assert (C8080 : contains (old_port (lit "8080")) (lit "grep ~:80~ && grep ~:8080~") = true)
    by (vm_compute; reflexivity).
  split; [split|].
  - exact (proj1 (proj2 (@ports_rewritten _ _ D80 C80))).
  - exact (proj1 (proj2 (@ports_rewritten _ _ D8080 C8080))).
  - vm_compute. reflexivity.
Defined.

(** ** Rule 3 as one pass *)

Module OnePass.

Lemma rewrites_inc_in (vars : list text) : rewrites (inc_sub_in vars) (inc_rewrite_in vars).
Proof.
  intros s r n H. unfold inc_sub_in in H.
  destruct (inc_re s) as [[w k]|] eqn:E; [|discriminate].
  inversion H; subst. destruct (inc_re_inv _ E) as [Hw [Fw [En [rest Es]]]].
  exists (old_inc w), rest. split; [apply old_inc_not_nil|].
  split; [exact En|]. split; [exact Es|].
  exists w. split; [split; assumption|]. split; reflexivity.
Qed.

Lemma inc_sub_in_old_inc (vars : list text) (w rest : text) :
  run_of is_word w -> inc_sub_in vars (old_inc w ++ rest) <> None.
Proof.
  intros [Hw Fw]. unfold inc_sub_in. rewrite (inc_re_old_inc rest Hw Fw). discriminate.
Qed.

Lemma replace_pass (q q' a y : text) :
  contains q a = false -> no_straddle q y ->
  replace q q' (a ++ y) = a ++ replace q q' y.
Proof.
  intros C N. induction a as [|c a IH]; [reflexivity|].
  cbn [contains] in C. apply orb_false_iff in C. destruct C as [S C].
  simpl app. unfold replace. rewrite sub_all_cons. unfold literal at 1.
  destruct (starts_with q (c :: a ++ y)) eqn:E.
  - exfalso. destruct (@starts_with_app_inv q (c :: a) y E) as [L | [u [Hu [Eq Hs]]]].
    + congruence.
    + rewrite (N (c :: a) u Eq) in Hs; [discriminate | discriminate | exact Hu].
  - fold (replace q q' (a ++ y)). rewrite (IH C). reflexivity.
Qed.

Lemma no_straddle_apart (q x b : text) :
  apart q x = true -> no_straddle q (x ++ b).
Proof.
  intros A pre u Eq Hp Hu. destruct (starts_with u (x ++ b)) eqn:E; [|reflexivity].
  apply starts_with_compat in E. rewrite compat_sym in E.
  rewrite Eq in A. rewrite (@apart_tail_compat _ _ _ A Hu) in E. discriminate.
Qed.

Lemma no_straddle_self (q b : text) :
  apart (tl q) q = true -> no_straddle q (q ++ b).
Proof.
  intros A pre u Eq Hp Hu. destruct (starts_with u (q ++ b)) eqn:E; [|reflexivity].
  apply starts_with_compat in E. rewrite compat_sym in E.
  destruct pre as [|c pre]; [congruence|].
  rewrite Eq in A at 1. cbn [tl app] in A.
  rewrite (@apart_tail_compat _ _ _ A Hu) in E. discriminate.
Qed.

Lemma replace_skip (q q' x b : text) :
  apart x q = true -> replace q q' (x ++ b) = x ++ replace q q' b.
Proof.
  induction x as [|c x IH]; [reflexivity|].
  rewrite apart_cons, andb_true_iff, negb_true_iff. intros [C A].
  simpl app. unfold replace. rewrite sub_all_cons. unfold literal at 1.
  destruct (starts_with q (c :: x ++ b)) eqn:E.
  - apply (starts_with_compat q (c :: x) b) in E. congruence.
  - fold (replace q q' (x ++ b)). rewrite (IH A). reflexivity.
Qed.

Lemma replace_hit (q q' b : text) :
  q <> [] -> replace q q' (q ++ b) = q' ++ replace q q' b.
Proof.
  intros Hne. destruct q as [|c q]; [congruence|].
  unfold replace. simpl app. rewrite sub_all_cons. unfold literal at 1.
  change (c :: q ++ b) with ((c :: q) ++ b). rewrite (starts_with_app (c :: q)).
  cbn [length]. rewrite Nat.sub_succ, Nat.sub_0_r.
  rewrite skipn_app, skipn_all, Nat.sub_diag. reflexivity.
Qed.

(** One name of the loop, on a text cut at an idiom or at a rewritten
    idiom. *)
Lemma replace_cut_new (v w a b : text) :
  run_of is_word v -> run_of is_word w ->
  contains (old_inc v) a = false ->
  replace (old_inc v) (new_inc v) (a ++ new_inc w ++ b) =
  a ++ new_inc w ++ replace (old_inc v) (new_inc v) b.
Proof.
  intros Hv Hw C.
  destruct (proj1 (andb_true_iff _ _) (strangers_old_new_inc Hv Hw)) as [A1 A2].
  rewrite replace_pass; [|exact C | apply no_straddle_apart; exact A1].
  rewrite replace_skip by exact A2. reflexivity.
Qed.

Lemma replace_cut_same (v a b : text) :
  run_of is_word v ->
  contains (old_inc v) a = false ->
  replace (old_inc v) (new_inc v) (a ++ old_inc v ++ b) =
  a ++ new_inc v ++ replace (old_inc v) (new_inc v) b.
Proof.
  intros Hv C.
  rewrite replace_pass; [|exact C | apply no_straddle_self, old_inc_self; exact Hv].
  rewrite replace_hit by apply old_inc_not_nil. reflexivity.
Qed.

Lemma replace_cut_other (v w a b : text) :
  run_of is_word v -> run_of is_word w -> v <> w ->
  contains (old_inc v) a = false ->
  replace (old_inc v) (new_inc v) (a ++ old_inc w ++ b) =
  a ++ old_inc w ++ replace (old_inc v) (new_inc v) b.
Proof.
  intros Hv Hw Ne C.
  rewrite replace_pass;
    [|exact C | apply no_straddle_apart; apply old_inc_apart; assumption].
  rewrite replace_skip; [reflexivity|].
  apply old_inc_apart; [exact Hw | exact Hv | congruence].
Qed.

Lemma existsb_text (w : text) (vars : list text) :
  existsb (text_eqb w) vars = true <-> In w vars.
Proof.
  rewrite existsb_exists. split.
  - intros [x [I E]]. apply text_eqb_eq in E. subst. exact I.
  - intros I. exists w. split; [exact I | apply text_eqb_refl].
Qed.

Lemma increment_all_cut_new (vars : list text) (w a : text) :
  Forall (run_of is_word) vars -> run_of is_word w ->
  (forall v, run_of is_word v -> contains (old_inc v) a = false) ->
  forall b, increment_all vars (a ++ new_inc w ++ b) =
            a ++ new_inc w ++ increment_all vars b.
Proof.
  intros W Hw Ha. induction W as [|v vars Hv _ IH]; intros b; [reflexivity|].
  rewrite !increment_all_cons.
  rewrite replace_cut_new by (try assumption; apply Ha; exact Hv).
  apply IH.
Qed.

Lemma increment_all_cut (vars : list text) (w a : text) :
  Forall (run_of is_word) vars -> run_of is_word w ->
  (forall v, run_of is_word v -> contains (old_inc v) a = false) ->
  forall b, increment_all vars (a ++ old_inc w ++ b) =
            a ++ (if existsb (text_eqb w) vars then new_inc w else old_inc w) ++
            increment_all vars b.
Proof.
  intros W Hw Ha. induction W as [|v vars Hv W IH]; intros b; [reflexivity|].
  rewrite !increment_all_cons. cbn [existsb].
  destruct (text_eqb w v) eqn:E.
  - apply text_eqb_eq in E. subst v. cbn [orb].
    rewrite replace_cut_same by (try assumption; apply Ha; exact Hv).
    apply increment_all_cut_new; assumption.
  - apply text_eqb_neq in E. cbn [orb].
    rewrite replace_cut_other by (try assumption; try congruence; apply Ha; exact Hv).
    apply IH.
Qed.

Lemma increment_all_absent (vars : list text) (c : text) :
  (forall v, In v vars -> contains (old_inc v) c = false) ->
  increment_all vars c = c.
Proof.
  induction vars as [|v vars IH]; intros H; [reflexivity|].
  rewrite increment_all_cons, replace_absent by (apply H; left; reflexivity).
  apply IH. intros u I. apply H. right; exact I.
Qed.

Lemma no_match_no_idiom (vars : list text) (c v : text) :
  run_of is_word v ->
  any_match (inc_sub_in vars) c = false -> contains (old_inc v) c = false.
Proof.
  intros Hv M. destruct (contains (old_inc v) c) eqn:C; [|reflexivity].
  apply contains_iff in C. destruct C as [a [b Ec]].
  rewrite Ec, (@any_match_at _ (inc_sub_in vars) a (old_inc v ++ b)) in M;
    [discriminate | | apply inc_sub_in_old_inc; exact Hv].
  intros E. apply app_eq_nil in E. destruct E as [E _]. exact (@old_inc_not_nil v E).
Qed.

(** The loop over a list of names is one pass over the idiom. *)
Lemma increment_all_one_pass (vars : list text) :
  Forall (run_of is_word) vars ->
  forall c, increment_all vars c = sub_all (inc_sub_in vars) c.
Proof.
  intros W c.
  induction c as [c IH] using (induction_ltof1 _ (@length ascii)).
  unfold ltof in IH.
  destruct (any_match (inc_sub_in vars) c) eqn:M.
  - destruct (@sub_all_first _ _ _ (rewrites_inc_in vars) M)
      as [a [p [r [rest [Es [Hne [[w [Hw [-> ->]]] [Hno Hs]]]]]]]].
    assert (L : length rest < length c).
    { rewrite Es, !length_app. unfold old_inc. rewrite !length_app. simpl. lia. }
    assert (Ha : forall v, run_of is_word v -> contains (old_inc v) a = false).
    { intros v Hv. destruct (contains (old_inc v) a) eqn:C; [|reflexivity].
      exfalso. apply contains_iff in C. destruct C as [a1 [a3 Ea]].
      assert (N : inc_sub_in vars ((old_inc v ++ a3) ++ old_inc w ++ rest) = None).
      { apply (Hno a1); [exact Ea|]. intros E. apply app_eq_nil in E.
        destruct E as [E _]. exact (@old_inc_not_nil v E). }
      rewrite <- app_assoc in N. exact (@inc_sub_in_old_inc vars v _ Hv N). }
    rewrite Hs, Es, (@increment_all_cut vars w a W Hw Ha), (IH _ L). reflexivity.
  - rewrite (@sub_all_no_match _ _ M). apply increment_all_absent.
    intros v I. apply (@no_match_no_idiom vars); [|exact M].
    rewrite Forall_forall in W. apply W; exact I.
Qed.

Lemma sub_all_ext (m m' : matcher text) (s : text) :
  (forall a t, s = a ++ t -> m t = m' t) -> sub_all m s = sub_all m' s.
Proof.
  induction s as [s IH] using (induction_ltof1 _ (@length ascii)).
  unfold ltof in IH. intros H. destruct s as [|c s]; [reflexivity|].
  rewrite !sub_all_cons, <- (H [] (c :: s) eq_refl).
  destruct (m (c :: s)) as [[r n]|].
  - f_equal. apply IH.
    + rewrite length_skipn. simpl. lia.
    + intros a t E. apply (H (c :: firstn (n - 1) s ++ a)).
      simpl. rewrite <- app_assoc, <- E, firstn_skipn. reflexivity.
  - f_equal. apply IH; [simpl; lia|].
    intros a t E. apply (H (c :: a)). rewrite E. reflexivity.
Qed.

Lemma inc_sub_in_all (vars : list text) (c : text) :
  (forall w, run_of is_word w -> contains (old_inc w) c = true -> In w vars) ->
  sub_all (inc_sub_in vars) c = sub_all inc_sub c.
Proof.
  intros H. apply sub_all_ext. intros a t E. unfold inc_sub_in, inc_sub.
  destruct (inc_re t) as [[w n]|] eqn:R; [|reflexivity].
  destruct (inc_re_inv _ R) as [Hw [Fw [_ [rest Et]]]].
  assert (I : In w vars).
  { apply H; [split; assumption|]. rewrite E, Et. apply contains_app_r.
    apply (@contains_mid (old_inc w) [] rest). }
  apply existsb_text in I. rewrite I. reflexivity.
Qed.

Lemma inc_sub_in_same (vars vars' : list text) (c : text) :
  (forall v, In v vars <-> In v vars') ->
  sub_all (inc_sub_in vars) c = sub_all (inc_sub_in vars') c.
Proof.
  intros H. apply sub_all_ext. intros a t _. unfold inc_sub_in.
  destruct (inc_re t) as [[w n]|]; [|reflexivity].
  assert (E : existsb (text_eqb w) vars = existsb (text_eqb w) vars').
  { destruct (existsb (text_eqb w) vars) eqn:E1, (existsb (text_eqb w) vars') eqn:E2;
      try reflexivity.
    - apply existsb_text, H, existsb_text in E1. congruence.
    - apply existsb_text, H, existsb_text in E2. congruence. }
  rewrite E. reflexivity.
Qed.

End OnePass.
Import OnePass.

(** X1: rule 3 does what one [re.sub] over its regular expression would
    do.  The loop over the sorted distinct names, replacing the idiom of
    one name after the other, leaves the buffer in which each match of
    [\(\((\w+)\+\+\)\)] has become [name=$((name + 1))] and every other
    character is as it was. *)
Theorem rule_3_is_one_pass (st : state) :
  content (step_3 st) = sub_all inc_sub (content st).
Proof.
  rewrite content_step_3. cbn [apply].
  fold (increment_all (sorted (set_of (plusplus (content st)))) (content st)).
  rewrite increment_all_one_pass by apply plusplus_words.
  apply inc_sub_in_all. intros w Hw C. apply plusplus_iff. split; assumption.
Qed.

(** X2: the buffer the loop of rule 3 leaves does not depend on the order
    in which the names are taken, nor on a name being taken twice: two
    lists with the same names give the same buffer.  The sort decides
    the order of the report only. *)
Theorem rule_3_order_free (vars vars' : list text) (st : state) :
  Forall (run_of is_word) vars ->
  (forall v, In v vars <-> In v vars') ->
  content (fold_left (fun st var => step_3_var var st) vars st) =
  content (fold_left (fun st var => step_3_var var st) vars' st).
Proof.
  intros W H. rewrite !content_step_3_vars.
  fold (increment_all vars (content st)). fold (increment_all vars' (content st)).
  rewrite !increment_all_one_pass.
  - apply inc_sub_in_same; exact H.
  - rewrite Forall_forall in *. intros v I. apply W, H, I.
  - exact W.
Qed.

Lemma rule_3_order_free_witness :
  content (fold_left (fun st var => step_3_var var st) [bar; foo]
             (State (lit "((foo++)) ((bar++))") [])) =
  content (fold_left (fun st var => step_3_var var st) [foo; bar]
             (State (lit "((foo++)) ((bar++))") [])).
Proof.
  assert (W : Forall (run_of is_word) [bar; foo])
    by (repeat constructor; discriminate).
  assert (S : forall v, In v [bar; foo] <-> In v [foo; bar])
    by (intros v; simpl; tauto).
  exact (@rule_3_order_free [bar; foo] [foo; bar]
           (State (lit "((foo++)) ((bar++))") []) W S).
Defined.

(** ** The instances rule 3 reports *)

Module Tally.

(** The first match of [re.findall]. *)
Lemma find_all_first (A : Type) (m : matcher A) (s : text) :
  (forall t x n, m t = Some (x, n) -> 1 <= n) ->
  any_match m s = true ->
  exists a t x n,
    s = a ++ t /\ m t = Some (x, n) /\
    (forall a1 a2, a = a1 ++ a2 -> a2 <> [] -> m (a2 ++ t) = None) /\
    find_all m s = x :: find_all m (skipn n t).
Proof.
  intros Hn. induction s as [|c s IH]; [discriminate|].
  cbn [any_match]. intros H. rewrite find_all_cons.
  destruct (m (c :: s)) as [[x n]|] eqn:E.
  - exists [], (c :: s), x, n. split; [reflexivity|]. split; [exact E|]. split.
    + intros a1 a2 Ea. destruct a1; [simpl in Ea; congruence | discriminate].
    + pose proof (Hn _ _ _ E) as L. destruct n as [|n]; [lia|].
      cbn [skipn]. rewrite Nat.sub_succ, Nat.sub_0_r. reflexivity.
  - simpl in H. destruct (IH H) as [a [t [x [n [Es [Em [Hno Hf]]]]]]].
    exists (c :: a), t, x, n. split; [rewrite Es; reflexivity|].
    split; [exact Em|]. split; [|exact Hf].
    intros a1 a2 Ea Ha2. destruct a1 as [|y a1]; simpl in Ea.
    + subst a2. simpl app. rewrite <- Es. exact E.
    + inversion Ea; subst. eapply Hno; [reflexivity | exact Ha2].
Qed.

Lemma inc_re_pos (t x : text) (n : nat) : inc_re t = Some (x, n) -> 1 <= n.
Proof.
  intros H. destruct (inc_re_inv _ H) as [_ [_ [-> _]]].
  unfold old_inc. rewrite !length_app. simpl. lia.
Qed.

Lemma list_sum_cons (x : nat) (l : list nat) : list_sum (x :: l) = x + list_sum l.
Proof. reflexivity. Qed.

Lemma tally_one (w : text) (f : text -> nat) (vars : list text) :
  NoDup vars -> In w vars ->
  list_sum (map (fun v => (if text_eqb v w then 1 else 0) + f v) vars) =
  S (list_sum (map f vars)).
Proof.
  intros D. induction D as [|v vars N D IH]; intros I; [contradiction|].
  cbn [map]; rewrite !list_sum_cons. destruct I as [-> | I].
  - rewrite text_eqb_refl.
    assert (Z : forall l, ~ In w l ->
                list_sum (map (fun v => (if text_eqb v w then 1 else 0) + f v) l) =
                list_sum (map f l)).
    { induction l as [|u l IHl]; intros Nl; [reflexivity|]. cbn [map]; rewrite !list_sum_cons.
      destruct (text_eqb u w) eqn:E.
      - apply text_eqb_eq in E. subst. exfalso. apply Nl. left; reflexivity.
      - rewrite IHl; [reflexivity|]. intros H. apply Nl. right; exact H. }
    rewrite (Z _ N). lia.
  - destruct (text_eqb v w) eqn:E.
    + apply text_eqb_eq in E. subst. contradiction.
    + rewrite (IH I). lia.
Qed.

Lemma count_cut (v w a rest : text) :
  run_of is_word v -> run_of is_word w ->
  contains (old_inc v) a = false ->
  count (old_inc v) (a ++ old_inc w ++ rest) =
  (if text_eqb v w then 1 else 0) + count (old_inc v) rest.
Proof.
  intros Hv Hw C. destruct (text_eqb v w) eqn:E.
  - apply text_eqb_eq in E. subst w.
    rewrite count_self; [|apply old_inc_not_nil | apply old_inc_self; exact Hv].
    rewrite (count_absent _ _ C). reflexivity.
  - apply text_eqb_neq in E.
    rewrite count_sep;
      [|apply old_inc_not_nil | apply old_inc_strangers; [exact Hw | exact Hv | congruence]].
    rewrite (count_absent _ _ C). reflexivity.
Qed.

(** The occurrences of the idioms of the names add up to the matches of
    [re.findall]. *)
Lemma tally (vars : list text) :
  NoDup vars -> Forall (run_of is_word) vars ->
  forall c,
    (forall w, run_of is_word w -> contains (old_inc w) c = true -> In w vars) ->
    list_sum (map (fun v => count (old_inc v) c) vars) = length (plusplus c).
Proof.
  intros D W c.
  induction c as [c IH] using (induction_ltof1 _ (@length ascii)).
  unfold ltof in IH. intros H.
  destruct (any_match inc_re c) eqn:M.
  - destruct (@find_all_first _ inc_re c inc_re_pos M)
      as [a [t [w [n [Es [Em [Hno Hf]]]]]]].
    destruct (inc_re_inv _ Em) as [Hw [Fw [En [rest Et]]]].
    assert (Rw : run_of is_word w) by (split; assumption).
    assert (Sk : skipn n t = rest).
    { rewrite En, Et, skipn_app, skipn_all, Nat.sub_diag. reflexivity. }
    assert (L : length rest < length c).
    { rewrite Es, Et, !length_app. unfold old_inc. rewrite !length_app. simpl. lia. }
    assert (Ha : forall v, run_of is_word v -> contains (old_inc v) a = false).
    { intros v [Hv Fv]. destruct (contains (old_inc v) a) eqn:C; [|reflexivity].
      exfalso. apply contains_iff in C. destruct C as [a1 [a3 Ea]].
      assert (N : inc_re ((old_inc v ++ a3) ++ t) = None).
      { apply (Hno a1); [exact Ea|]. intros E. apply app_eq_nil in E.
        destruct E as [E _]. exact (@old_inc_not_nil v E). }
      rewrite <- app_assoc, (inc_re_old_inc _ Hv Fv) in N. discriminate. }
    unfold plusplus. rewrite Hf, Sk. cbn [length]. fold (plusplus rest).
    rewrite <- (IH _ L).
    + rewrite <- (@tally_one w (fun v => count (old_inc v) rest) vars D).
      * f_equal. apply map_ext_in. intros v I. rewrite Es, Et.
        apply count_cut; [|exact Rw | apply Ha].
        all: rewrite Forall_forall in W; apply W; exact I.
      * apply H; [exact Rw|]. rewrite Es, Et. apply contains_mid.
    + intros u Hu C. apply H; [exact Hu|]. rewrite Es, Et.
      apply contains_app_r, contains_app_r. exact C.
  - assert (Z : forall v, In v vars -> count (old_inc v) c = 0).
    { intros v I. apply count_absent.
      destruct (contains (old_inc v) c) eqn:C; [|reflexivity].
      rewrite Forall_forall in W.
      pose proof (@plusplus_complete v (W _ I) c C) as P.
      unfold plusplus in P. rewrite (@find_all_no_match _ _ _ M) in P. contradiction. }
    unfold plusplus. rewrite (@find_all_no_match _ _ _ M). cbn [length].
    clear - Z. induction vars as [|v vars IHv]; [reflexivity|].
    cbn [map]; rewrite !list_sum_cons. rewrite (Z v (or_introl eq_refl)), IHv; [reflexivity|].
    intros u I. apply Z. right; exact I.
Qed.

End Tally.
Import Tally.

(** X3: rule 3 appends one entry for each distinct name, in sorted order,
    with the number of occurrences of the idiom of the name, and these
    numbers add up to the number of matches [re.findall] returned. *)
Theorem rule_3_counts_add_up (st : state) :
  fixes (step_3 st) =
    fixes st ++
    map (fun v => label_3 v (count (old_inc v) (content st)))
        (sorted (set_of (plusplus (content st)))) /\
  list_sum (map (fun v => count (old_inc v) (content st))
                (sorted (set_of (plusplus (content st))))) =
  length (plusplus (content st)).
Proof.
  split; [apply step_3_report|].
  apply tally; [apply names_nodup | apply plusplus_words|].
  intros w Hw C. apply plusplus_iff. split; assumption.
Qed.

(** ** Patterns of the text are not lost *)

Module Kept.

Lemma contains_app_l (q a b : text) :
  contains q a = true -> contains q (a ++ b) = true.
Proof.
  intros H. apply contains_iff in H. destruct H as [x [y ->]].
  apply contains_iff. exists x, (y ++ b). rewrite <- !app_assoc. reflexivity.
Qed.

Lemma sub_all_keeps (m : matcher text) (R : text -> text -> Prop) (q : text) :
  rewrites m R ->
  (forall p r, R p r -> strangers p q = true) ->
  forall s, contains q s = true -> contains q (sub_all m s) = true.
Proof.
  intros Rw HS s.
  induction s as [s IH] using (induction_ltof1 _ (@length ascii)).
  unfold ltof in IH. intros C.
  destruct (any_match m s) eqn:M.
  - destruct (@sub_all_first _ _ _ Rw M) as [a [p [r [rest [Es [Hp [HR [_ Hs]]]]]]]].
    assert (L : length rest < length s).
    { rewrite Es, !length_app. destruct p; [congruence | simpl; lia]. }
    rewrite Hs. rewrite Es, (@contains_sep q p a rest (HS _ _ HR)) in C.
    apply orb_true_iff in C. destruct C as [C | C].
    + apply contains_app_l; exact C.
    + apply contains_app_r, contains_app_r. apply (IH _ L C).
  - rewrite (@sub_all_no_match _ _ M). exact C.
Qed.

Lemma replace_keeps (old new q : text) :
  old <> [] -> strangers old q = true ->
  forall s, contains q s = true -> contains q (replace old new s) = true.
Proof.
  intros Ho S. apply (@sub_all_keeps _ _ _ (@rewrites_literal old new Ho)).
  intros p r [-> ->]. exact S.
Qed.

Lemma replace1_keeps (old new q : text) :
  strangers old q = true ->
  forall s, contains q s = true -> contains q (replace1 old new s) = true.
Proof.
  intros S s C. destruct (contains old s) eqn:O.
  - destruct (@replace1_split old new s O) as [a [b [Es Er]]].
    rewrite Er. rewrite Es, (@contains_sep q old a b S) in C.
    apply orb_true_iff in C. destruct C as [C | C].
    + apply contains_app_l; exact C.
    + apply contains_app_r, contains_app_r; exact C.
  - rewrite (@replace1_absent old new s O). exact C.
Qed.

Lemma increment_all_keeps (q : text) (vars : list text) :
  sstrangers old_inc_t (chars q) = true ->
  Forall (run_of is_word) vars ->
  forall c, contains q c = true -> contains q (increment_all vars c) = true.
Proof.
  intros S W. induction W as [|v vars [Hv Fv] _ IH]; intros c C; [exact C|].
  rewrite increment_all_cons. apply IH.
  apply replace_keeps; [apply old_inc_not_nil | | exact C].
  exact (@sstrangers_sound _ _ _ _ (inst_old_inc Hv Fv) (inst_chars q) S).
Qed.

Lemma keeps_spared (q : text) (r : rule) :
  rule_spares (chars q) r = true -> keeps q r.
Proof.
  intros S c C. destruct r as [old new|old new| |]; cbn [rule_spares apply] in *.
  - apply replace1_keeps; [|exact C].
    exact (@sstrangers_sound _ _ _ _ (inst_chars old) (inst_chars q) S).
  - apply andb_true_iff in S. destruct S as [Ho S].
    apply replace_keeps; [exact (@nonempty_true _ Ho) | | exact C].
    exact (@sstrangers_sound _ _ _ _ (inst_chars old) (inst_chars q) S).
  - apply (@increment_all_keeps q _ S (plusplus_words c) c C).
  - apply (@sub_all_keeps _ _ _ rewrites_port); [|exact C].
    intros p r' [port [[Hp Fp] [-> ->]]].
    exact (@sstrangers_sound _ _ _ _ (inst_old_port Hp Fp) (inst_chars q) S).
Qed.

Lemma keeps_name (q v : text) :
  sstrangers old_inc_t (chars q) = true -> run_of is_word v ->
  keeps q (Every (old_inc v) (new_inc v)).
Proof.
  intros S [Hv Fv] c C. cbn [apply].
  apply replace_keeps; [apply old_inc_not_nil | | exact C].
  exact (@sstrangers_sound _ _ _ _ (inst_old_inc Hv Fv) (inst_chars q) S).
Qed.


(** Any other step of a run keeps the pattern of a literal step. *)
Lemma others_keep (id id' : step_id) :
  literal_step id = true -> id' <> id ->
  (forall v, id' = S3 v -> run_of is_word v) ->
  keeps (pattern_of id) (rule_of id').
Proof.
  intros L Ne Hv.
  destruct id; try discriminate L;
    (destruct id' as [| | | |v| | | | | |];
     [..]; try congruence;
     first [ apply keeps_name; [vm_compute; reflexivity | apply Hv; reflexivity]
           | apply keeps_spared; vm_compute; reflexivity ]).
Qed.


Lemma schedule_names (original v : text) :
  In (S3 v) (schedule original) -> run_of is_word v.
Proof.
  unfold schedule. intros I. apply in_app_or in I. destruct I as [I | I].
  - repeat (destruct I as [I | I]; [discriminate|]). contradiction.
  - apply in_app_or in I. destruct I as [I | I].
    + apply in_map_iff in I. destruct I as [u [E I]]. inversion E; subst.
      apply plusplus_iff in I. exact (proj1 I).
    + repeat (destruct I as [I | I]; [discriminate|]). contradiction.
Qed.

Lemma schedule_literal (original : text) (id : step_id) :
  literal_step id = true -> In id (schedule original).
Proof.
  intros L. unfold schedule.
  destruct id; try discriminate L;
    first [ apply in_or_app; left; cbn [In]; tauto
          | apply in_or_app; right; apply in_or_app; right; cbn [In]; tauto ].
Qed.

Lemma run_ids_keeps (q : text) (ids : list step_id) :
  (forall id, In id ids -> keeps q (rule_of id)) ->
  forall st, contains q (content st) = true ->
             contains q (content (run_ids ids st)) = true.
Proof.
  unfold run_ids. induction ids as [|id ids IH]; intros H st C; [exact C|].
  cbn [fold_left]. apply IH.
  - intros id' I. apply H. right; exact I.
  - rewrite content_step_of. apply (H id (or_introl eq_refl)). exact C.
Qed.


Lemma run_ids_app (l1 l2 : list step_id) (st : state) :
  run_ids (l1 ++ l2) st = run_ids l2 (run_ids l1 st).
Proof. unfold run_ids. apply fold_left_app. Qed.

End Kept.
Import Kept.



(** ** A run with one rule *)

Module Lone.

Lemma plan_idle :
  Forall (fun p : (state -> state) * rule =>
            forall st, fst p st = st <-> matches (snd p) (content st) = false) plan.
Proof.
  unfold plan, steps, rules. cbn [combine].
  repeat (apply Forall_cons; [cbn [fst snd matches]; intros st|]);
    [ .. | apply Forall_nil ].
  - apply replace_first_idle.
  - apply replace_first_idle.
  - apply replace_first_idle.
  - apply replace_counted_idle; discriminate.
  - apply step_3_idle.
  - apply replace_every_idle.
  - apply replace_every_idle.
  - apply replace_counted_idle; discriminate.
  - apply replace_counted_idle; discriminate.
  - apply step_7a_idle.
  - apply replace_every_idle.
Qed.

Lemma patch_plan (original : text) :
  patch original = fold_left (fun st p => fst p st) plan (State original []).
Proof.
  rewrite patch_unfold. unfold plan, steps, rules.
  cbn [combine fold_left fst]. reflexivity.
Qed.

Lemma fold_plan_idle (tb : list ((state -> state) * rule)) (st : state) :
  Forall (fun p : (state -> state) * rule =>
            forall st, fst p st = st <-> matches (snd p) (content st) = false) tb ->
  (forall p, In p tb -> matches (snd p) (content st) = false) ->
  fold_left (fun st p => fst p st) tb st = st.
Proof.
  intros I. induction I as [|p tb Hp _ IH]; intros H; cbn [fold_left]; [reflexivity|].
  rewrite (proj2 (Hp st) (H p (or_introl eq_refl))). apply IH.
  intros p' I'. apply H. right; exact I'.
Qed.

Lemma any_inc_iff (c : text) :
  any_match inc_re c = true <->
  exists v, run_of is_word v /\ contains (old_inc v) c = true.
Proof.
  split.
  - intros M. apply any_match_inv in M. destruct M as [pre [t [E Ht]]].
    destruct (inc_re t) as [[w n]|] eqn:R; [|congruence].
    apply inc_re_inv in R. destruct R as [Hw [Fw [_ [rest Et]]]].
    exists w. split; [split; assumption|].
    apply contains_iff. exists pre, rest. rewrite E, Et. reflexivity.
  - intros [v [[Hv Fv] C]]. apply contains_iff in C. destruct C as [a [b ->]].
    apply any_match_at.
    + intros E. apply app_eq_nil in E. destruct E as [E _].
      exact (@old_inc_not_nil v E).
    + rewrite (inc_re_old_inc b Hv Fv). discriminate.
Qed.

Lemma any_port_iff (c : text) :
  any_match port_re c = true <->
  exists d, run_of is_digit d /\ contains (old_port d) c = true.
Proof.
  split.
  - intros M. apply any_match_inv in M. destruct M as [pre [t [E Ht]]].
    destruct (port_re t) as [[r n]|] eqn:R; [|congruence].
    apply port_re_inv in R. destruct R as [d [rest [Hd [Fd [Et _]]]]].
    exists d. split; [split; assumption|].
    apply contains_iff. exists pre, rest. rewrite E, Et. reflexivity.
  - intros [d [[Hd Fd] C]]. apply contains_iff in C. destruct C as [a [b ->]].
    apply any_match_at.
    + intros E. apply app_eq_nil in E. destruct E as [E _].
      exact (@old_port_not_nil d E).
    + rewrite (port_re_old_port b Hd Fd). discriminate.
Qed.

Lemma bool_iff (a b : bool) : (a = true <-> b = true) -> a = b.
Proof. destruct a, b; intros [H1 H2]; try reflexivity; [symmetry|]; auto. Qed.

Lemma quiet_sound (r' r : rule) :
  quiet r' r = true -> forall c, matches r' (apply r c) = matches r' c.
Proof.
  intros Q c. destruct r' as [old new|old new| |]; cbn [quiet matches] in *.
  - apply andb_true_iff in Q. destruct Q as [Ho Q].
    exact (proj1 (@apply_strangers _ old r (inst_chars old) (@nonempty_true _ Ho) Q c)).
  - apply andb_true_iff in Q. destruct Q as [Ho Q].
    exact (proj1 (@apply_strangers _ old r (inst_chars old) (@nonempty_true _ Ho) Q c)).
  - apply bool_iff. rewrite !any_inc_iff.
    split; intros [v [[Hv Fv] C]]; exists v; (split; [split; assumption|]).
    + rewrite <- (proj1 (@apply_strangers _ (old_inc v) r (inst_old_inc Hv Fv)
                           (@old_inc_not_nil v) Q c)). exact C.
    + rewrite (proj1 (@apply_strangers _ (old_inc v) r (inst_old_inc Hv Fv)
                        (@old_inc_not_nil v) Q c)). exact C.
  - apply bool_iff. rewrite !any_port_iff.
    split; intros [d [[Hd Fd] C]]; exists d; (split; [split; assumption|]).
    + rewrite <- (proj1 (@apply_strangers _ (old_port d) r (inst_old_port Hd Fd)
                           (@old_port_not_nil d) Q c)). exact C.
    + rewrite (proj1 (@apply_strangers _ (old_port d) r (inst_old_port Hd Fd)
                        (@old_port_not_nil d) Q c)). exact C.
Qed.

Lemma only_spec (r : rule) (c : text) :
  only r c = true ->
  forall r', In r' rules ->
    matches r' c = rule_eqb r' r.
Proof.
  unfold only. rewrite forallb_forall. intros H r' I. specialize (H r' I).
  destruct (rule_eqb r' r); [exact H | apply negb_true_iff; exact H].
Qed.

Lemma in_plan_rules (p : (state -> state) * rule) : In p plan -> In (snd p) rules.
Proof.
  destruct p as [f r]. intros I. apply in_combine_r in I. exact I.
Qed.

(** A run in which one step fires and no rule matches before or after
    it. *)
Lemma lone_at (pre post : list ((state -> state) * rule)) (id : step_id)
    (original : text) :
  plan = pre ++ (step_of id, rule_of id) :: post ->
  forallb (fun p => negb (rule_eqb (snd p) (rule_of id))) (pre ++ post) = true ->
  rule_eqb (rule_of id) (rule_of id) = true ->
  forallb (fun p => quiet (snd p) (rule_of id)) post = true ->
  only (rule_of id) original = true ->
  patch original = State (apply (rule_of id) original) [entry_of id original].
Proof.
  intros Ep Hne Hrefl Hq Ho.
  pose proof plan_idle as PI. rewrite Ep in PI.
  apply Forall_app in PI. destruct PI as [Ipre Ipost].
  apply Forall_cons_iff in Ipost. destruct Ipost as [Iid Ipost].
  cbn [fst snd] in Iid.
  rewrite forallb_forall in Hne, Hq.
  assert (Off : forall p, In p (pre ++ post) -> matches (snd p) original = false).
  { intros p I. rewrite (@only_spec _ _ Ho (snd p)).
    - apply negb_true_iff. apply Hne; exact I.
    - apply in_plan_rules. rewrite Ep. apply in_app_or in I.
      apply in_or_app. destruct I as [I | I]; [left; exact I | right; right; exact I]. }
  assert (On : matches (rule_of id) original = true).
  { rewrite (@only_spec _ _ Ho (rule_of id)); [exact Hrefl|].
    apply (@in_plan_rules (step_of id, rule_of id)). rewrite Ep.
    apply in_or_app. right; left; reflexivity. }
  rewrite patch_plan, Ep, fold_left_app. cbn [fold_left fst].
  rewrite (@fold_plan_idle pre (State original []) Ipre)
    by (intros p I; apply Off; apply in_or_app; left; exact I).
  assert (Fire : step_of id (State original []) =
                 State (apply (rule_of id) original) [entry_of id original]).
  { destruct (records_step_of id (State original [])) as [I | [F _]].
    - apply Iid in I. cbn [content] in I. congruence.
    - apply state_eq.
      + rewrite content_step_of. reflexivity.
      + exact F. }
  rewrite Fire. apply fold_plan_idle; [exact Ipost|].
  intros p I. cbn [content].
  rewrite (@quiet_sound _ _ (Hq p I)). apply Off. apply in_or_app. right; exact I.
Qed.

End Lone.

Import Lone.

Module Blocks.

Lemma replace1_unfold (old new s : text) :
  replace1 old new s =
  if starts_with old s then new ++ skipn (length old) s
  else match s with
       | [] => []
       | c :: s' => c :: replace1 old new s'
       end.
Proof. destruct s; reflexivity. Qed.

(** [replace(old, new, 1)] on a text cut at the first occurrence. *)
Lemma replace1_at (q q' a b : text) :
  contains q a = false -> no_straddle q (q ++ b) ->
  replace1 q q' (a ++ q ++ b) = a ++ q' ++ b.
Proof.
  intros C N. induction a as [|c a IH].
  - simpl app. rewrite replace1_unfold, starts_with_app.
    rewrite skipn_app, skipn_all, Nat.sub_diag. reflexivity.
  - cbn [contains] in C. apply orb_false_iff in C. destruct C as [S C].
    simpl app. rewrite replace1_unfold.
    destruct (starts_with q (c :: a ++ q ++ b)) eqn:E.
    + exfalso.
      destruct (@starts_with_app_inv q (c :: a) (q ++ b) E) as [L | [u [Hu [Eq Hs]]]].
      * congruence.
      * rewrite (N (c :: a) u Eq) in Hs; [discriminate | discriminate | exact Hu].
    + rewrite (IH C). reflexivity.
Qed.

Lemma count_replace1 (old new : text) :
  old <> [] -> strangers new old = true -> apart (tl old) old = true ->
  forall s, count old (replace1 old new s) = pred (count old s).
Proof.
  intros Ho S A s. destruct (contains old s) eqn:C.
  - destruct (@replace1_split old new s C) as [a [b [Es Er]]].
    rewrite Er, Es, (@count_self old Ho A), (@count_sep old new Ho S). lia.
  - rewrite (@replace1_absent old new s C), (count_absent _ _ C). reflexivity.
Qed.

Lemma replace_miss (q q' : text) (c : ascii) (s : text) :
  starts_with q (c :: s) = false -> replace q q' (c :: s) = c :: replace q q' s.
Proof.
  intros H. unfold replace. rewrite sub_all_cons. unfold literal at 1.
  rewrite H. reflexivity.
Qed.

(** [count] counts the occurrences [replace] replaces. *)
Lemma length_replace (old new : text) :
  old <> [] ->
  forall s, length (replace old new s) + count old s * length old =
            length s + count old s * length new.
Proof.
  intros Ho s.
  induction s as [s IH] using (induction_ltof1 _ (@length ascii)).
  unfold ltof in IH. destruct s as [|c s]; [reflexivity|].
  destruct (starts_with old (c :: s)) eqn:E.
  - apply starts_with_iff in E. destruct E as [rest E]. rewrite E.
    rewrite (@replace_hit old new rest Ho), (@count_hit old rest Ho), !length_app.
    assert (L : length rest < length (c :: s)).
    { rewrite E, length_app. destruct old; [congruence | simpl; lia]. }
    specialize (IH _ L). rewrite !Nat.mul_succ_l. lia.
  - rewrite (@replace_miss old new c s E), (@count_miss old c s E). cbn [length].
    specialize (IH s (Nat.lt_succ_diag_r _)). lia.
Qed.

End Blocks.
Import Blocks.

(** A run in which the rule of a lone step matches alone. *)
Lemma lone_run (original : text) (id : step_id) :
  lone_step id = true ->
  only (rule_of id) original = true ->
  patch original = State (apply (rule_of id) original) [entry_of id original].
Proof.
  intros L O. destruct id; try discriminate L.
  - apply (@lone_at (firstn 0 plan) (skipn 1 plan));
      [reflexivity | vm_compute; reflexivity .. | exact O].
  - apply (@lone_at (firstn 2 plan) (skipn 3 plan));
      [reflexivity | vm_compute; reflexivity .. | exact O].
  - apply (@lone_at (firstn 3 plan) (skipn 4 plan));
      [reflexivity | vm_compute; reflexivity .. | exact O].
  - apply (@lone_at (firstn 6 plan) (skipn 7 plan));
      [reflexivity | vm_compute; reflexivity .. | exact O].
  - apply (@lone_at (firstn 7 plan) (skipn 8 plan));
      [reflexivity | vm_compute; reflexivity .. | exact O].
  - apply (@lone_at (firstn 8 plan) (skipn 9 plan));
      [reflexivity | vm_compute; reflexivity .. | exact O].
  - apply (@lone_at (firstn 9 plan) (skipn 10 plan));
      [reflexivity | vm_compute; reflexivity .. | exact O].
  - apply (@lone_at (firstn 10 plan) (skipn 11 plan));
      [reflexivity | vm_compute; reflexivity .. | exact O].
Qed.

(** X5: when the pattern of one rule occurs in the text and that of no
    other rule does, and the rule is none of 1b, 3 and 4, the run is that
    rule alone: the buffer is the text with the rule applied and the
    report is the entry of the rule and nothing else.  (The replacements
    of rules 1b, 3 and 4 end in a word that can complete the pattern of a
    later rule.) *)
Theorem lone_rule_runs_alone (original : text) (id : step_id) :
  lone_step id = true ->
  only (rule_of id) original = true ->
  patch original = State (apply (rule_of id) original) [entry_of id original].
Proof. intros L O. exact (@lone_run original id L O). Qed.

Lemma lone_rule_runs_alone_witness :
  patch (lit "netstat -ant 2>/dev/null | wc -l") =
  State (apply (rule_of S6a) (lit "netstat -ant 2>/dev/null | wc -l"))
        [entry_of S6a (lit "netstat -ant 2>/dev/null | wc -l")].
Proof.
  assert (O : only (rule_of S6a) (lit "netstat -ant 2>/dev/null | wc -l") = true)
    by (vm_compute; reflexivity).
  exact (@lone_rule_runs_alone _ S6a eq_refl O).
Defined.

(** X6: rules 1a, 1b and 1c rewrite the first occurrence of their block
    and nothing else: on a buffer cut at the first occurrence, the text
    before it and the text after it, further occurrences included, stay
    as they are, and the label of the rule is appended. *)
Theorem rule_1_first_block_only (id : step_id) (pre post : text) (fx : list text) :
  once_step id = true ->
  contains (pattern_of id) pre = false ->
  step_of id (State (pre ++ pattern_of id ++ post) fx) =
  State (pre ++ replacement_of id ++ post)
        (fx ++ [entry_of id (pre ++ pattern_of id ++ post)]).
Proof.
  intros O C.
  assert (A : apart (tl (pattern_of id)) (pattern_of id) = true)
    by (destruct id; try discriminate O; vm_compute; reflexivity).
  assert (E : step_of id =
              replace_first (pattern_of id) (replacement_of id)
                (entry_of id (pre ++ pattern_of id ++ post)))
    by (destruct id; try discriminate O; reflexivity).
  rewrite E. unfold replace_first. cbn [content fixes].
  rewrite contains_mid, replace1_at;
    [reflexivity | exact C | apply no_straddle_self; exact A].
Qed.

Lemma rule_1_first_block_only_witness :
  step_of S1c (State ((lit "# list" ++ nl) ++ pattern_of S1c ++ (nl ++ pattern_of S1c)) []) =
  State ((lit "# list" ++ nl) ++ replacement_of S1c ++ (nl ++ pattern_of S1c))
        ([] ++ [entry_of S1c ((lit "# list" ++ nl) ++ pattern_of S1c ++ (nl ++ pattern_of S1c))]).
Proof.
  assert (C : contains (pattern_of S1c) (lit "# list" ++ nl) = false)
    by (vm_compute; reflexivity).
  exact (@rule_1_first_block_only S1c (lit "# list" ++ nl) (nl ++ pattern_of S1c) []
           eq_refl C).
Defined.

(** X7: on a text in which the block of rule 1a occurs and the pattern of
    no other rule does, the run puts the new block in the place of the
    first occurrence, alters no other character and reports rule 1a
    alone. *)
Theorem rule_1a_alone (pre post : text) :
  contains old_1a pre = false ->
  only (Once old_1a new_1a) (pre ++ old_1a ++ post) = true ->
  patch (pre ++ old_1a ++ post) = State (pre ++ new_1a ++ post) [label_1a].
Proof.
  intros C O. rewrite (@lone_run _ S1a eq_refl O). cbn [rule_of apply entry_of].
  rewrite replace1_at; [reflexivity | exact C | apply no_straddle_self].
  vm_compute; reflexivity.
Qed.

Lemma rule_1a_alone_witness :
  patch ((lit "#!/bin/bash" ++ nl) ++ old_1a ++ (nl ++ lit "exit 0" ++ nl)) =
  State ((lit "#!/bin/bash" ++ nl) ++ new_1a ++ (nl ++ lit "exit 0" ++ nl)) [label_1a].
Proof.
  assert (C : contains old_1a (lit "#!/bin/bash" ++ nl) = false)
    by (vm_compute; reflexivity).
  assert (O : only (Once old_1a new_1a)
                ((lit "#!/bin/bash" ++ nl) ++ old_1a ++ (nl ++ lit "exit 0" ++ nl)) = true)
    by (vm_compute; reflexivity).
  exact (@rule_1a_alone (lit "#!/bin/bash" ++ nl) (nl ++ lit "exit 0" ++ nl) C O).
Defined.

(** X8: a run takes away one occurrence of a block of rule 1 and no more.
    Rule 1a leaves one occurrence of its block less than it found; the
    whole run leaves one occurrence less of the line of rule 1b and of
    the line of rule 1c than the text had (none, if it had none). *)
Theorem rule_1_takes_one_block (original : text) :
  count old_1a (content (step_1a (State original []))) = pred (count old_1a original) /\
  count old_1b (content (patch original)) = pred (count old_1b original) /\
  count old_1c (content (patch original)) = pred (count old_1c original).
Proof.
  split; [|split].
  - unfold step_1a. rewrite content_replace_first. cbn [content].
    apply count_replace1; [discriminate | vm_compute; reflexivity ..].
  - rewrite content_patch.
    change rules with ([Once old_1a new_1a] ++ Once old_1b new_1b ::
                       tl (tl rules)).
    rewrite fold_left_app. cbn [fold_left].
    rewrite (proj2 (@fold_strangers (chars old_1b) old_1b (tl (tl rules))
                      (inst_chars old_1b) ltac:(discriminate)
                      ltac:(vm_compute; reflexivity) _)).
    cbn [apply]. rewrite count_replace1;
      [|discriminate | vm_compute; reflexivity ..].
    rewrite (proj2 (@replace1_strangers old_1a new_1a old_1b ltac:(discriminate)
                      ltac:(vm_compute; reflexivity) ltac:(vm_compute; reflexivity)
                      original)).
    reflexivity.
  - rewrite content_patch.
    change rules with ([Once old_1a new_1a; Once old_1b new_1b] ++
                       Once old_1c new_1c :: tl (tl (tl rules))).
    rewrite fold_left_app. cbn [fold_left].
    rewrite (proj2 (@fold_strangers (chars old_1c) old_1c (tl (tl (tl rules)))
                      (inst_chars old_1c) ltac:(discriminate)
                      ltac:(vm_compute; reflexivity) _)).
    cbn [apply]. rewrite count_replace1;
      [|discriminate | vm_compute; reflexivity ..].
    rewrite (proj2 (@replace1_strangers old_1b new_1b old_1c ltac:(discriminate)
                      ltac:(vm_compute; reflexivity) ltac:(vm_compute; reflexivity)
                      _)).
    rewrite (proj2 (@replace1_strangers old_1a new_1a old_1c ltac:(discriminate)
                      ltac:(vm_compute; reflexivity) ltac:(vm_compute; reflexivity)
                      original)).
    reflexivity.
Qed.

(** X9: the number a counting rule (2, 3 for a name, 6a, 6b) puts in its
    entry is the number of replacements it makes: the length of the
    buffer changes by that number times the difference between the
    lengths of the replacement and of the pattern. *)
Theorem counted_entry_accounts (id : step_id) (st : state) :
  counted_step id = true ->
  length (content (step_of id st)) +
    count (pattern_of id) (content st) * length (pattern_of id) =
  length (content st) +
    count (pattern_of id) (content st) * length (replacement_of id).
Proof.
  intros C. rewrite content_step_of.
  destruct id; try discriminate C; cbn [rule_of apply];
    unfold pattern_of, replacement_of; cbn [rule_of];
    apply length_replace; first [discriminate | apply old_inc_not_nil].
Qed.

Lemma counted_entry_accounts_witness :
  length (content (step_of S2 (State (lit "a=$(x || echo ~0~); b=$(y || echo ~0~)") []))) +
    count (pattern_of S2) (content (State (lit "a=$(x || echo ~0~); b=$(y || echo ~0~)") [])) *
      length (pattern_of S2) =
  length (content (State (lit "a=$(x || echo ~0~); b=$(y || echo ~0~)") [])) +
    count (pattern_of S2) (content (State (lit "a=$(x || echo ~0~); b=$(y || echo ~0~)") [])) *
      length (replacement_of S2).
Proof.
  exact (@counted_entry_accounts S2
           (State (lit "a=$(x || echo ~0~); b=$(y || echo ~0~)") []) eq_refl).
Defined.

(** ** The order of the report *)

Module Report.

Lemma run_ids_picks (ids : list step_id) (st : state) :
  exists es, fixes (run_ids ids st) = fixes st ++ es /\ picks entry_from ids es.
Proof.
  unfold run_ids. revert st.
  induction ids as [|id ids IH]; intros st; cbn [fold_left].
  - exists []. rewrite app_nil_r. split; [reflexivity | constructor].
  - destruct (IH (step_of id st)) as [es [F P]]. rewrite F.
    destruct (records_step_of id st) as [I | [F' _]].
    + rewrite I. exists es. split; [reflexivity | apply picks_skip; exact P].
    + rewrite F', <- app_assoc. exists (entry_of id (content st) :: es).
      split; [reflexivity|]. apply picks_take; [|exact P].
      exists (content st). reflexivity.
Qed.

Lemma picks_in (A B : Type) (R : A -> B -> Prop) (l : list A) (es : list B) :
  picks R l es -> forall e, In e es -> exists a, In a l /\ R a e.
Proof.
  intros P. induction P as [|a l es P IH|a l e es Ha P IH]; intros x I.
  - contradiction.
  - destruct (IH x I) as [b [Ib Rb]]. exists b. split; [right; exact Ib | exact Rb].
  - destruct I as [<- | I].
    + exists a. split; [left; reflexivity | exact Ha].
    + destruct (IH x I) as [b [Ib Rb]]. exists b. split; [right; exact Ib | exact Rb].
Qed.

Lemma picks_nodup (A B : Type) (R : A -> B -> Prop) (l : list A) (es : list B) :
  picks R l es -> NoDup l ->
  (forall a a' e, In a l -> In a' l -> R a e -> R a' e -> a = a') ->
  NoDup es.
Proof.
  intros P. induction P as [|a l es P IH|a l e es Ha P IH]; intros D Inj.
  - constructor.
  - inversion D; subst. apply IH; [assumption|].
    intros x y e Ix Iy. apply Inj; right; assumption.
  - inversion D as [|? ? N D']; subst. constructor.
    + intros I. destruct (picks_in P _ I) as [b [Ib Rb]].
      assert (Eab : a = b)
        by (apply (Inj a b e); [left; reflexivity | right; exact Ib | exact Ha | exact Rb]).
      subst. contradiction.
    + apply IH; [assumption|].
      intros x y e' Ix Iy. apply Inj; right; assumption.
Qed.

Lemma schedule_nodup (original : text) : NoDup (schedule original).
Proof.
  unfold schedule.
  set (names := sorted (set_of (plusplus (content
                  (step_2 (step_1c (step_1b (step_1a (State original []))))))))).
  assert (D : NoDup names) by apply names_nodup.
  assert (M : NoDup (map S3 names)).
  { clearbody names. induction D as [|v l N D IH]; cbn [map]; constructor.
    - intros I. apply in_map_iff in I. destruct I as [u [E I]].
      inversion E; subst. contradiction.
    - exact IH. }
  assert (T : forall id, In id (map S3 names) -> exists v, id = S3 v).
  { intros id I. apply in_map_iff in I. destruct I as [u [E _]].
    exists u. symmetry; exact E. }
  clearbody names.
  repeat (apply NoDup_cons;
          [ intros I; cbn [app In] in I;
            repeat (destruct I as [I | I]; [discriminate|]);
            apply in_app_or in I; destruct I as [I | I];
            [ destruct (T _ I) as [v E]; discriminate
            | cbn [In] in I;
              repeat (destruct I as [I | I]; [discriminate|]); contradiction ]
          | ]).
  cbn [app]. apply NoDup_app; [exact M | | ].
  - repeat (apply NoDup_cons;
            [ intros I; cbn [In] in I;
              repeat (destruct I as [I | I]; [discriminate|]); contradiction | ]).
    apply NoDup_nil.
  - intros id I1 I2. destruct (T _ I1) as [v E]. subst.
    cbn [In] in I2. repeat (destruct I2 as [I2 | I2]; [discriminate|]). contradiction.
Qed.

Lemma tag_entry (id : step_id) (c : text) :
  tag (entry_of id c) =
  match id with
  | S1a => lit "1a:" | S1b => lit "1b:" | S1c => lit "1c:"
  | S2 => lit "2: " | S3 _ => lit "3: " | S4 => lit "4: " | S5 => lit "5: "
  | S6a => lit "6a:" | S6b => lit "6b:" | S7a => lit "7a:" | S7b => lit "7b:"
  end.
Proof. destruct id; reflexivity. Qed.

Lemma label_3_name (v v' : text) (n n' : nat) :
  run_of is_word v -> run_of is_word v' ->
  label_3 v n = label_3 v' n' -> v = v'.
Proof.
  intros [_ Fv] [_ Fv'] E. unfold label_3 in E.
  apply app_inv_head in E.
  assert (S : forall w rest, forallb is_word w = true ->
                span is_word (w ++ lit "++)) -> safe increment (" ++ rest) = w).
  { intros w rest Fw. apply (@span_stop is_word w "+"%char); [exact Fw | reflexivity]. }
  rewrite <- (S v (decimal n ++ lit " instances)") Fv).
  rewrite <- (S v' (decimal n' ++ lit " instances)") Fv'). rewrite E. reflexivity.
Qed.

Lemma entry_step (original : text) (id id' : step_id) (e : text) :
  In id (schedule original) -> In id' (schedule original) ->
  entry_from id e -> entry_from id' e -> id = id'.
Proof.
  intros I I' [c E] [c' E'].
  assert (T : tag (entry_of id c) = tag (entry_of id' c')) by congruence.
  rewrite !tag_entry in T.
  destruct id, id'; try discriminate T; try reflexivity.
  f_equal. apply (@label_3_name var var0 (count (old_inc var) c) (count (old_inc var0) c')).
  - exact (@schedule_names original _ I).
  - exact (@schedule_names original _ I').
  - cbn [entry_of] in E, E'. congruence.
Qed.

End Report.
Import Report.

(** X10: the report follows the order of the rules.  Its entries are
    entries of steps of the schedule (1a, 1b, 1c, 2, 3 for each name in
    sorted order, 4, 5, 6a, 6b, 7a, 7b), in the order of the schedule and
    at most one for each step; no entry stands twice in the report. *)
Theorem report_follows_the_rules (original : text) :
  picks entry_from (schedule original) (fixes (patch original)) /\
  NoDup (schedule original) /\
  NoDup (fixes (patch original)).
Proof.
  assert (P : picks entry_from (schedule original) (fixes (patch original))).
  { rewrite patch_schedule. fold (run_ids (schedule original) (State original [])).
    destruct (run_ids_picks (schedule original) (State original [])) as [es [F P]].
    rewrite F. exact P. }
  split; [exact P|]. split; [apply schedule_nodup|].
  apply (picks_nodup P (schedule_nodup original)).
  intros a a' e. apply entry_step.
Qed.

(** ** The script and the file system *)

(** X11: when the target can be read but not written and some rule
    matches, the script ends with the error of the failed [open] for
    writing; the file is as it was and nothing has been printed, the
    report being printed after the write only. *)
Theorem unwritable_target_is_fatal (argv : list text) (w : world) (f : file) :
  fs w (target_of argv) = Some f -> readable f = true -> writable f = false ->
  no_rule_matches (data f) = false ->
  main argv w = (w, Uncaught PermissionError).
Proof.
  intros Hf Hr Hw H. unfold main, read_file. cbv zeta. rewrite Hf. cbv iota beta.
  rewrite Hr. destruct (patch_changes _ H) as [_ C].
  apply text_eqb_neq in C. rewrite C.
  unfold write_file. cbv zeta. rewrite Hf. cbv iota beta. rewrite Hw. reflexivity.
Qed.

Lemma unwritable_target_is_fatal_witness :
  main [] (sample_world old_6a true false) =
  (sample_world old_6a true false, Uncaught PermissionError).
Proof.
  exact (@unwritable_target_is_fatal [] (sample_world old_6a true false)
           (File old_6a true false) eq_refl eq_refl eq_refl eq_refl).
Defined.



(** ** The regular expressions *)

(** X13: what the two regular expressions match.  The expression of
    rule 3 matches at a position exactly when the text there reads [((],
    a non-empty run of word characters and [++))], and captures the run;
    the expression of rule 7a matches exactly when the text reads
    [old_port d] for a non-empty run of digits [d], the closing quote
    included, and the match is replaced by [fix_port_grep d].  Nothing
    else is matched: no spaces inside the parentheses, no port followed
    by anything but the quote. *)
Theorem what_the_expressions_match (s : text) :
  (forall w n, inc_re s = Some (w, n) <->
     run_of is_word w /\ n = length (old_inc w) /\
     starts_with (old_inc w) s = true) /\
  (forall r n, port_re s = Some (r, n) <->
     exists d, run_of is_digit d /\ r = fix_port_grep d /\
               n = length (old_port d) /\ starts_with (old_port d) s = true).
Proof.
  split.
  - intros w n. split.
    + intros H. destruct (inc_re_inv _ H) as [Hw [Fw [En [rest Es]]]].
      split; [split; assumption|]. split; [exact En|].
      rewrite Es. apply starts_with_app.
    + intros [[Hw Fw] [-> S]]. apply starts_with_iff in S. destruct S as [rest ->].
      apply inc_re_old_inc; assumption.
  - intros r n. split.
    + intros H. destruct (port_re_inv _ H) as [d [rest [Hd [Fd [Es [Er En]]]]]].
      exists d. split; [split; assumption|]. split; [exact Er|]. split; [exact En|].
      rewrite Es. apply starts_with_app.
    + intros [d [[Hd Fd] [-> [-> S]]]]. apply starts_with_iff in S.
      destruct S as [rest ->]. apply port_re_old_port; assumption.
Qed.

(** ** Replacements are not lost either *)

Module Stays.

(** [replace] puts the replacement where the pattern stood. *)
Lemma replace_puts (old new s : text) :
  old <> [] -> contains old s = true -> contains new (replace old new s) = true.
Proof.
  intros Ho C.
  pose proof (@contains_any_match old new s Ho C) as M.
  destruct (@sub_all_first _ _ _ (@rewrites_literal old new Ho) M)
    as [a [p [r [rest [_ [_ [[_ ->] [_ Hs]]]]]]]].
  unfold replace. rewrite Hs. apply contains_mid.
Qed.

Lemma replace1_puts (old new s : text) :
  contains old s = true -> contains new (replace1 old new s) = true.
Proof.
  intros C. destruct (@replace1_split old new s C) as [a [b [_ ->]]].
  apply contains_mid.
Qed.

Lemma step_puts (id : step_id) (c : text) :
  literal_step id = true ->
  contains (pattern_of id) c = true ->
  contains (replacement_of id) (apply (rule_of id) c) = true.
Proof.
  intros L C. destruct id; try discriminate L;
    unfold pattern_of, replacement_of in *; cbn [rule_of apply] in *;
    first [ apply replace1_puts; exact C
          | apply replace_puts; [discriminate | exact C] ].
Qed.

(** Any other step of a run keeps the replacement of a lone step. *)
Lemma others_keep_new (id id' : step_id) :
  literal_step id = true -> lone_step id = true -> id' <> id ->
  (forall v, id' = S3 v -> run_of is_word v) ->
  keeps (replacement_of id) (rule_of id').
Proof.
  intros L O Ne Hv.
  destruct id; try discriminate L; try discriminate O;
    (destruct id' as [| | | |v| | | | | |];
     [..]; try congruence;
     first [ apply keeps_name; [vm_compute; reflexivity | apply Hv; reflexivity]
           | apply keeps_spared; vm_compute; reflexivity ]).
Qed.

End Stays.
Import Stays.

(** X14: what a rule puts in is still there when the run ends.  When the
    pattern of one of the rules 1a, 1c, 2, 5, 6a, 6b, 7b occurs in the
    text, the replacement of the rule occurs in the buffer the run ends
    with: no later rule takes it apart. *)
Theorem every_replacement_stays (original : text) (id : step_id) :
  literal_step id = true -> lone_step id = true ->
  contains (pattern_of id) original = true ->
  contains (replacement_of id) (content (patch original)) = true.
Proof.
  intros L O C.
  destruct (in_split _ _ (@schedule_literal original id L))
    as [l1 [l2 Es]].
  pose proof (schedule_nodup original) as D. rewrite Es in D.
  apply NoDup_remove_2 in D.
  rewrite patch_schedule. fold (run_ids (schedule original) (State original [])).
  rewrite Es. change (l1 ++ id :: l2) with (l1 ++ [id] ++ l2).
  rewrite !run_ids_app.
  set (st := run_ids l1 (State original [])).
  assert (N : forall id', In id' (l1 ++ l2) -> id' <> id /\
                (forall v, id' = S3 v -> run_of is_word v)).
  { intros id' I. split; [intros ->; exact (D I)|].
    intros v ->. apply (@schedule_names original). rewrite Es.
    apply in_app_or in I. apply in_or_app.
    destruct I as [I | I]; [left; exact I | right; right; exact I]. }
  assert (K : contains (pattern_of id) (content st) = true).
  { apply run_ids_keeps; [|exact C]. intros id' I.
    destruct (N id' (in_or_app _ _ _ (or_introl I))) as [Ne Hv].
    apply others_keep; assumption. }
  apply run_ids_keeps.
  - intros id' I. destruct (N id' (in_or_app _ _ _ (or_intror I))) as [Ne Hv].
    apply others_keep_new; assumption.
  - unfold run_ids at 1. cbn [fold_left]. rewrite content_step_of.
    apply step_puts; assumption.
Qed.

Lemma every_replacement_stays_witness :
  contains (replacement_of S5)
    (content (patch (lit "du -sh /* 2>/dev/null | sort -rh | head -10; netstat -ant 2>/dev/null")))
  = true.
Proof.
  assert (C : contains (pattern_of S5)
                (lit "du -sh /* 2>/dev/null | sort -rh | head -10; netstat -ant 2>/dev/null")
              = true) by (vm_compute; reflexivity).
  exact (@every_replacement_stays _ S5 eq_refl eq_refl C).
Defined.

(** ** Rule 2 on the whole run *)

Module Fallback.

Lemma step_2_logs (st : state) :
  0 < count old_2 (content st) ->
  fixes (step_2 st) = fixes st ++ [label_2 (count old_2 (content st))].
Proof.
  intros H. unfold step_2, replace_counted. cbv zeta.
  apply Nat.ltb_lt in H. rewrite H. reflexivity.
Qed.

Lemma before_rule_2 (q : text) (original : text) :
  q <> [] ->
  forallb (rule_strangers (chars q))
          [Once old_1a new_1a; Once old_1b new_1b; Once old_1c new_1c] = true ->
  count q (content (step_1c (step_1b (step_1a (State original []))))) =
  count q original.
Proof.
  intros Hq S. unfold step_1c, step_1b, step_1a.
  rewrite !content_replace_first. cbn [content].
  exact (proj2 (@fold_strangers (chars q) q
                  [Once old_1a new_1a; Once old_1b new_1b; Once old_1c new_1c]
                  (inst_chars q) Hq S original)).
Qed.

End Fallback.
Import Fallback.

(** X15: rule 2 on the whole run.  Each [|| echo ~0~)] of the text, with
    [~] for the double quote, has become [|| true)]: the buffer the run
    ends with holds as many [|| true)] as the text held plus one for
    each occurrence of the pattern, and none of the pattern; when the
    pattern occurs, the report holds the entry of rule 2 with the number
    of its occurrences in the text. *)
Theorem fallbacks_rewritten (original : text) :
  count new_2 (content (patch original)) =
    count new_2 original + count old_2 original /\
  contains old_2 (content (patch original)) = false /\
  (0 < count old_2 original ->
   In (label_2 (count old_2 original)) (fixes (patch original))).
Proof.
  split; [|split].
  - rewrite content_patch.
    set (pre := [Once old_1a new_1a; Once old_1b new_1b; Once old_1c new_1c]).
    change rules with (pre ++ Every old_2 new_2 :: tl (tl (tl (tl rules)))).
    rewrite fold_left_app. cbn [fold_left].
    rewrite (proj2 (@fold_strangers (chars new_2) new_2 (tl (tl (tl (tl rules))))
                      (inst_chars new_2) ltac:(discriminate)
                      ltac:(vm_compute; reflexivity) _)).
    cbn [apply].
    rewrite replace_counts; [|discriminate | discriminate | vm_compute; reflexivity ..].
    subst pre.
    rewrite (proj2 (@fold_strangers (chars new_2) new_2
                      [Once old_1a new_1a; Once old_1b new_1b; Once old_1c new_1c]
                      (inst_chars new_2) ltac:(discriminate)
                      ltac:(vm_compute; reflexivity) original)).
    rewrite (proj2 (@fold_strangers (chars old_2) old_2
                      [Once old_1a new_1a; Once old_1b new_1b; Once old_1c new_1c]
                      (inst_chars old_2) ltac:(discriminate)
                      ltac:(vm_compute; reflexivity) original)).
    reflexivity.
  - apply final_old_2.
  - intros H. rewrite patch_cut.
    destruct (run_ids_entries ids_4_7 (step_3 (run_ids ids_1_2 (State original []))))
      as [es [F _]].
    rewrite F, step_3_report. apply in_or_app. left. apply in_or_app. left.
    unfold ids_1_2, run_ids. cbn [fold_left step_of].
    assert (E : count old_2 (content (step_1c (step_1b (step_1a (State original []))))) =
                count old_2 original)
      by (apply before_rule_2; [discriminate | vm_compute; reflexivity]).
    rewrite step_2_logs by (rewrite E; exact H).
    rewrite E. apply in_or_app. right. left. reflexivity.
Qed.

(** ** The rules and what they are to do *)

Module Declared.

Lemma stands_iff (p s : text) : stands p s <-> starts_with p s = true.
Proof. unfold stands. symmetry. apply starts_with_iff. Qed.

Lemma not_stands_nil (p : text) : p <> [] -> ~ stands p [].
Proof.
  intros Hp [t E]. symmetry in E. apply app_eq_nil in E. destruct E; congruence.
Qed.

(** A scan does what [rewritten] says. *)
Lemma sub_all_rewritten (m : matcher text) (R : text -> text -> Prop) :
  rewrites m R ->
  (forall p r, R p r -> p <> []) ->
  (forall p r rest, R p r -> m (p ++ rest) <> None) ->
  forall s, rewritten R s (sub_all m s).
Proof.
  intros Rw Hne Hc s.
  induction s as [s IH] using (induction_ltof1 _ (@length ascii)).
  unfold ltof in IH.
  destruct (any_match m s) eqn:M.
  - destruct (@sub_all_first _ _ _ Rw M) as [a [p [r [rest [Es [Hp [HR [Hno Hs]]]]]]]].
    assert (L : length rest < length s).
    { rewrite Es, !length_app. destruct p; [congruence | simpl; lia]. }
    rewrite Hs, Es. apply rewritten_match; [exact HR | | apply IH; exact L].
    intros g1 g2 p' r' Eg Hg HR' [t Et].
    pose proof (Hno g1 g2 Eg Hg) as N. rewrite Et in N.
    exact (Hc p' r' t HR' N).
  - rewrite (@sub_all_no_match _ _ M). apply rewritten_rest.
    intros g1 g2 p r Eg HR [t Et].
    destruct g2 as [|c g2].
    + symmetry in Et. apply app_eq_nil in Et. destruct Et as [Ep _].
      exact (Hne _ _ HR Ep).
    + rewrite Eg, (@any_match_at _ m g1 (c :: g2)) in M;
        [discriminate | discriminate | rewrite Et; apply (Hc _ _ _ HR)].
Qed.

Lemma replace1_first (old new c : text) :
  first_replaced old new c (replace1 old new c).
Proof.
  induction c as [|x c IH].
  - rewrite replace1_unfold. destruct (starts_with old []) eqn:E.
    + right. exists [], (skipn (length old) []).
      split; [exact (starts_with_split _ _ E)|]. split; [|reflexivity].
      intros g1 g2 Eg Hg. destruct g1; destruct g2; try discriminate Eg; congruence.
    + left. split; [|reflexivity]. intros g1 g2 Eg S.
      symmetry in Eg. apply app_eq_nil in Eg. destruct Eg as [_ ->].
      apply stands_iff in S. congruence.
  - rewrite replace1_unfold. destruct (starts_with old (x :: c)) eqn:E.
    + right. exists [], (skipn (length old) (x :: c)).
      split; [exact (starts_with_split _ _ E)|]. split; [|reflexivity].
      intros g1 g2 Eg Hg. destruct g1; destruct g2; try discriminate Eg; congruence.
    + destruct IH as [[N ->] | [g [b [Ec [F ->]]]]].
      * left. split; [|reflexivity]. intros g1 g2 Eg S.
        destruct g1 as [|y g1]; simpl in Eg.
        -- subst g2. apply stands_iff in S. congruence.
        -- inversion Eg; subst. exact (N g1 g2 eq_refl S).
      * right. exists (x :: g), b. split; [rewrite Ec; reflexivity|].
        split; [|reflexivity]. intros g1 g2 Eg Hg S.
        destruct g1 as [|y g1]; simpl in Eg.
        -- subst g2. simpl app in S. rewrite <- Ec in S.
           apply stands_iff in S. congruence.
        -- inversion Eg; subst. exact (F g1 g2 eq_refl Hg S).
Qed.

Lemma rewrites_inc : rewrites inc_sub inc_rewrite.
Proof.
  intros s r n H. unfold inc_sub in H.
  destruct (inc_re s) as [[w k]|] eqn:E; [|discriminate].
  inversion H; subst. destruct (inc_re_inv _ E) as [Hw [Fw [En [rest Es]]]].
  exists (old_inc w), rest. split; [apply old_inc_not_nil|].
  split; [exact En|]. split; [exact Es|].
  exists w. split; [split; assumption|]. split; reflexivity.
Qed.

Lemma increments_one_pass (c : text) : apply Increments c = sub_all inc_sub c.
Proof.
  cbn [apply]. fold (increment_all (sorted (set_of (plusplus c))) c).
  rewrite increment_all_one_pass by apply plusplus_words.
  apply inc_sub_in_all. intros w Hw C. apply plusplus_iff. split; assumption.
Qed.

(** Each rule does to the buffer what it is to do. *)
Lemma apply_follows (r : rule) (c : text) :
  In r rules -> follows r c (apply r c).
Proof.
  intros I.
  assert (Lit : forall old new, old <> [] ->
            rewritten (literally old new) c (replace old new c)).
  { intros old new Ho. apply (@sub_all_rewritten _ _ (@rewrites_literal old new Ho)).
    - intros p r' [-> _]. exact Ho.
    - intros p r' rest [-> _]. unfold literal. rewrite starts_with_app. discriminate. }
  unfold rules in I. cbn [In] in I.
  repeat (destruct I as [<- | I];
          [cbn [follows];
           first [ apply replace1_first
                 | apply Lit; discriminate
                 | idtac ] | ]); try contradiction.
  - rewrite increments_one_pass.
    apply (@sub_all_rewritten _ _ rewrites_inc).
    + intros p r' [w [_ [-> _]]]. apply old_inc_not_nil.
    + intros p r' rest [w [[Hw Fw] [-> _]]]. unfold inc_sub.
      rewrite (inc_re_old_inc rest Hw Fw). discriminate.
  - apply (@sub_all_rewritten _ _ rewrites_port).
    + intros p r' [d [_ [-> _]]]. apply old_port_not_nil.
    + intros p r' rest [d [[Hd Fd] [-> _]]].
      rewrite (port_re_old_port rest Hd Fd). discriminate.
Qed.

(** The first pattern of a text stands at one place only. *)
Lemma first_place (P : text -> text -> Prop) (g p rest g' p' rest' : text) :
  g ++ p ++ rest = g' ++ p' ++ rest' ->
  (forall g1 g2, g = g1 ++ g2 -> g2 <> [] -> ~ stands p' (g2 ++ p ++ rest)) ->
  (forall g1 g2, g' = g1 ++ g2 -> g2 <> [] -> ~ stands p (g2 ++ p' ++ rest')) ->
  g = g' /\ p ++ rest = p' ++ rest'.
Proof.
  intros E F F'. apply app_eq_app in E. destruct E as [l [[Eg Er] | [Eg Er]]].
  - destruct l as [|x l].
    + rewrite app_nil_r in Eg. simpl in Er. split; congruence.
    + exfalso. apply (F g' (x :: l) Eg); [discriminate|].
      exists rest'. rewrite <- Er. reflexivity.
  - destruct l as [|x l].
    + rewrite app_nil_r in Eg. simpl in Er. split; congruence.
    + exfalso. apply (F' g (x :: l) Eg); [discriminate|].
      exists rest. rewrite <- Er. reflexivity.
Qed.

(** [rewritten] leaves one result, when no pattern begins another. *)
Lemma rewritten_unique (P : text -> text -> Prop) :
  (forall p r p' r' t t', P p r -> P p' r' -> p ++ t = p' ++ t' ->
                          p = p' /\ r = r') ->
  forall s x, rewritten P s x -> forall y, rewritten P s y -> x = y.
Proof.
  intros Free s x H. induction H as [g N | g p r rest rest' HP F H IH]; intros y H'.
  - remember g as s eqn:Es in H'. destruct H' as [g' N' | g' p' r' rest0 rest0' HP' F' H0].
    + congruence.
    + exfalso. apply (N g' (p' ++ rest0) p' r' (eq_sym Es) HP').
      exists rest0. reflexivity.
  - remember (g ++ p ++ rest) as s eqn:Es in H'.
    destruct H' as [g' N' | g' p' r' rest0 rest0' HP' F' H0].
    + exfalso. apply (N' g (p ++ rest) p r Es HP). exists rest. reflexivity.
    + destruct (@first_place P g p rest g' p' rest0) as [Eg Ep].
      * symmetry; exact Es.
      * intros g1 g2 Eg Hg. exact (F g1 g2 p' r' Eg Hg HP').
      * intros g1 g2 Eg Hg. exact (F' g1 g2 p r Eg Hg HP).
      * destruct (Free p r p' r' rest rest0 HP HP' Ep) as [<- <-].
        apply app_inv_head in Ep. subst. rewrite (IH _ H0). reflexivity.
Qed.

Lemma first_replaced_unique (old new c x y : text) :
  first_replaced old new c x -> first_replaced old new c y -> x = y.
Proof.
  intros [[N ->] | [g [b [Ec [F ->]]]]] [[N' ->] | [g' [b' [Ec' [F' ->]]]]].
  - reflexivity.
  - exfalso. apply (N g' (old ++ b') Ec'). exists b'. reflexivity.
  - exfalso. apply (N' g (old ++ b) Ec). exists b. reflexivity.
  - destruct (@first_place (literally old new) g old b g' old b') as [Eg Ep].
    + congruence.
    + exact F.
    + exact F'.
    + apply app_inv_head in Ep. subst. reflexivity.
Qed.

Lemma inc_free (p r p' r' t t' : text) :
  inc_rewrite p r -> inc_rewrite p' r' -> p ++ t = p' ++ t' -> p = p' /\ r = r'.
Proof.
  intros [w [[_ Fw] [-> ->]]] [w' [[_ Fw'] [-> ->]]] E.
  unfold old_inc in E. rewrite <- !app_assoc in E. apply app_inv_head in E.
  assert (S : forall v rest, forallb is_word v = true ->
                span is_word (v ++ lit "++))" ++ rest) = v).
  { intros v rest Fv. apply (@span_stop is_word v "+"%char); [exact Fv | reflexivity]. }
  assert (Ew : w = w').
  { rewrite <- (S w t Fw), <- (S w' t' Fw'). rewrite E. reflexivity. }
  subst. split; reflexivity.
Qed.

Lemma port_free (p r p' r' t t' : text) :
  port_rewrite p r -> port_rewrite p' r' -> p ++ t = p' ++ t' -> p = p' /\ r = r'.
Proof.
  intros [d [[_ Fd] [-> ->]]] [d' [[_ Fd'] [-> ->]]] E.
  unfold old_port in E. rewrite <- !app_assoc in E. apply app_inv_head in E.
  assert (S : forall v rest, forallb is_digit v = true ->
                span is_digit (v ++ lit "~" ++ rest) = v).
  { intros v rest Fv. apply (@span_stop is_digit v dquote); [exact Fv | reflexivity]. }
  assert (Ed : d = d').
  { rewrite <- (S d t Fd), <- (S d' t' Fd'). rewrite E. reflexivity. }
  subst. split; reflexivity.
Qed.

Lemma follows_unique (r : rule) (c x y : text) :
  follows r c x -> follows r c y -> x = y.
Proof.
  destruct r as [old new|old new| |]; cbn [follows].
  - apply first_replaced_unique.
  - intros H1 H2. refine (@rewritten_unique (literally old new) _ c x H1 y H2).
    intros p r p' r' t t' [-> ->] [-> ->] _. split; reflexivity.
  - intros H1 H2. exact (@rewritten_unique inc_rewrite inc_free c x H1 y H2).
  - intros H1 H2. exact (@rewritten_unique port_rewrite port_free c x H1 y H2).
Qed.

End Declared.
Import Declared.

(** C3: the buffer the patcher ends with is the original text with the
    rules applied in the declared order (1a, 1b, 1c, 2, 3, 4, 5, 6a, 6b,
    7a, 7b), each to the buffer the rule before it left, and with nothing
    else done to it.  What applying a rule means is said by [follows],
    without the scan of the model: rules 1a to 1c replace the leftmost
    occurrence of their block, the other rules replace, reading from left
    to right, each pattern where it stands and keep every other
    character; and the buffer a rule leaves is the only one that
    [follows] allows. *)
Theorem patch_is_fold_of_rules (original : text) :
  content (patch original) = fold_left (fun c r => apply r c) rules original /\
  (forall r c, In r rules -> follows r c (apply r c)) /\
  (forall r c x, In r rules -> follows r c x -> x = apply r c).
Proof.
  split; [exact (content_patch original)|]. split.
  - intros r c I. exact (@apply_follows r c I).
  - intros r c x I F. exact (@follows_unique r c x (apply r c) F (@apply_follows r c I)).
Qed.

(** A name past ASCII: [\w] holds the letter with code point 233, and rule
    3 rewrites the idiom of a name made of it. *)
Example latin1_name_is_rewritten :
  let name := [ascii_of_nat 233] in
  is_word (ascii_of_nat 233) = true /\
  plusplus (old_inc name) = [name] /\
  patch (old_inc name) = State (new_inc name) [label_3 name 1].
Proof. vm_compute. repeat split; reflexivity. Qed.
